(** * Gesture-driven fireworks: particle engine and trigger state machine

    A shallow embedding of [components/GameCanvas.tsx] (the particle class,
    the colour helper [hsl], the explosion composer [triggerFirework], the
    gesture classifier [onResults] and the frame function [draw]) and of the
    start handler of [App.tsx], together with the properties the
    specification states about them and further properties of the code.

    Numbers.  JavaScript numbers are modelled by exact rationals ([Q]);
    [Date.now()] and the canvas dimensions, which are integers, by [Z].
    The transcendental functions the source calls ([Math.sqrt], [Math.cos],
    [Math.sin]) and the constant [Math.PI] are parameters of the
    development, and so is the sequence of values returned by
    [Math.random()].

    State.  The refs of the component are the fields of [World]; the two
    objects keyed by ['Left'] and ['Right'] are records with one field per
    lane.  Two fields are added for the statements: the number of calls of
    [Math.random()] made so far, and the trace of the calls of
    [triggerFirework].

    Left out.  Drawing on the canvas other than the discs of the particles
    (background, texts, hand indicators), the camera set-up, and what the
    audio engine does with a cue: none of them writes to the state modelled
    here. *)

From Stdlib Require Import ZArith QArith Qround Qminmax Qpower Lqa Lia String.
From stdpp Require Import base option list gmap.

Local Open Scope Q_scope.

(** Strict comparison on rationals, as a boolean ([a < b] in the source). *)
Definition Qltb (a b : Q) : bool := negb (Qle_bool b a).

(** ** The particle class *)

Module Particle.

Record t : Type := mk {
  x : Q;
  y : Q;
  vx : Q;
  vy : Q;
  hue : Q;
  lightness : Q;
  alpha : Q;
  decay : Q;
  friction : Q;
  gravity : Q;
  size : Q
}.

(** Field assignments [this.f = v]. *)
Definition set_x (v : Q) (p : t) : t :=
  mk v (y p) (vx p) (vy p) (hue p) (lightness p) (alpha p) (decay p)
     (friction p) (gravity p) (size p).
Definition set_y (v : Q) (p : t) : t :=
  mk (x p) v (vx p) (vy p) (hue p) (lightness p) (alpha p) (decay p)
     (friction p) (gravity p) (size p).
Definition set_vx (v : Q) (p : t) : t :=
  mk (x p) (y p) v (vy p) (hue p) (lightness p) (alpha p) (decay p)
     (friction p) (gravity p) (size p).
Definition set_vy (v : Q) (p : t) : t :=
  mk (x p) (y p) (vx p) v (hue p) (lightness p) (alpha p) (decay p)
     (friction p) (gravity p) (size p).
Definition set_alpha (v : Q) (p : t) : t :=
  mk (x p) (y p) (vx p) (vy p) (hue p) (lightness p) v (decay p)
     (friction p) (gravity p) (size p).
Definition set_decay (v : Q) (p : t) : t :=
  mk (x p) (y p) (vx p) (vy p) (hue p) (lightness p) (alpha p) v
     (friction p) (gravity p) (size p).
Definition set_gravity (v : Q) (p : t) : t :=
  mk (x p) (y p) (vx p) (vy p) (hue p) (lightness p) (alpha p) (decay p)
     (friction p) v (size p).

(** [update()]: six assignments, executed one after the other on the
    same object. *)
Definition update (p : t) : t :=
  let p := set_vx (vx p * friction p) p in
  let p := set_vy (vy p * friction p) p in
  let p := set_vy (vy p + gravity p) p in
  let p := set_x (x p + vx p) p in
  let p := set_y (y p + vy p) p in
  set_alpha (alpha p - decay p) p.

(** [isDead()]: [this.alpha <= 0]. *)
Definition isDead (p : t) : bool := Qle_bool (alpha p) 0.

End Particle.

(** ** Configuration *)

Record Palette : Type := { palette_hue : Z; palette_name : string }.

Definition COLOR_PALETTES : list Palette :=
  [ {| palette_hue := 0;   palette_name := "red" |};
    {| palette_hue := 15;  palette_name := "scarlet" |};
    {| palette_hue := 30;  palette_name := "orange" |};
    {| palette_hue := 45;  palette_name := "gold" |};
    {| palette_hue := 55;  palette_name := "yellow" |};
    {| palette_hue := 120; palette_name := "green" |};
    {| palette_hue := 160; palette_name := "cyan" |};
    {| palette_hue := 200; palette_name := "blue" |};
    {| palette_hue := 240; palette_name := "indigo" |};
    {| palette_hue := 280; palette_name := "purple" |};
    {| palette_hue := 300; palette_name := "magenta" |};
    {| palette_hue := 330; palette_name := "pink" |} ].

Inductive ExplosionStyle : Type :=
  circle | ring | burst | willow | chrysanthemum.

Definition EXPLOSION_STYLES : list ExplosionStyle :=
  [circle; ring; burst; willow; chrysanthemum].

Definition MAX_PARTICLES : nat := 2000.

(** ** Code that draws random numbers

    A computation that calls [Math.random()] is a function of the number of
    calls made so far (the cursor into the sequence of returned values); it
    returns its result and the advanced cursor. *)

Definition Rand (A : Type) : Type := nat -> A * nat.

Global Instance Rand_ret : MRet Rand := fun A (a : A) k => (a, k).
Global Instance Rand_bind : MBind Rand :=
  fun A B (f : A -> Rand B) (m : Rand A) k => let '(a, k') := m k in f a k'.

(** The values of the locals of one iteration of the particle loop of
    [triggerFirework], before the particle is constructed. *)
Record Roll : Type := mkRoll {
  roll_angle : Q;
  roll_velocity : Q;
  roll_hueVariation : Q;
  roll_lightness : Q;
  roll_size : Q;
  roll_decay : Q;
  roll_gravity : Q
}.

(** What [triggerFirework] settles once per explosion. *)
Record Plan : Type := mkPlan {
  plan_palette : Palette;
  plan_style : ExplosionStyle;
  plan_sizeClass : Q;
  plan_particleCount : Q;
  plan_explosionPower : Q;
  plan_baseSize : Q
}.

(** ** Hands, lanes and the state shared between callbacks *)

Module Point.
Record t : Type := mk { x : Q; y : Q }.
End Point.

Inductive HandState : Type := OPEN | FIST | UNKNOWN.

Global Instance HandState_eq_dec : EqDecision HandState.
Proof. solve_decision. Defined.

(** The two hand labels of the tracker (['Left' | 'Right'] in [types.ts]). *)
Inductive Lane : Type := Left | Right.

Global Instance Lane_eq_dec : EqDecision Lane.
Proof. solve_decision. Defined.

Global Instance Lane_countable : Countable Lane.
Proof.
  refine (inj_countable'
            (fun hand => match hand with Left => true | Right => false end)
            (fun b : bool => if b then Left else Right) _).
  by intros [].
Defined.

(** An object with the two keys ['Left'] and ['Right']. *)
Record PerLane (A : Type) : Type := mkPerLane { atLeft : A; atRight : A }.
Arguments mkPerLane {A} _ _.
Arguments atLeft {A} _.
Arguments atRight {A} _.

Definition lane_get {A : Type} (hand : Lane) (o : PerLane A) : A :=
  match hand with Left => atLeft o | Right => atRight o end.

Definition lane_set {A : Type} (hand : Lane) (v : A) (o : PerLane A) : PerLane A :=
  match hand with
  | Left => mkPerLane v (atRight o)
  | Right => mkPerLane (atLeft o) v
  end.

(** The payload of the tracker callback.  Either field may be missing
    ([None]); [multiHandLandmarks[i]] is the array of landmarks of hand [i]
    and [multiHandedness[i]] its label. *)
Record Results : Type := mkResults {
  multiHandLandmarks : option (list (list Point.t));
  multiHandedness : option (list Lane)
}.

Record Canvas : Type := mkCanvas {
  width : Z;
  height : Z;
  has2d : bool            (* [canvas.getContext('2d')] is not null *)
}.

Record Finale : Type := mkFinale { active : bool; lastSpawn : Z }.

(** One invocation of [triggerFirework]: the caller (a lane of the normal
    trigger, or [None] for the finale choreography) and the arguments. *)
Record TriggerCall : Type := mkCall {
  call_lane : option Lane;
  call_x : Q;
  call_y : Q
}.

Record World : Type := mkWorld {
  canvas : option Canvas;                 (* canvasRef.current *)
  audio : bool;                           (* audioRef.current is not null *)
  particles : list Particle.t;            (* particles.current *)
  handState : PerLane HandState;          (* handStateRef.current *)
  prevHandState : PerLane HandState;      (* prevHandStateRef.current *)
  handPos : PerLane Point.t;              (* handPosRef.current *)
  lastTriggerTime : PerLane Z;            (* lastTriggerTime.current *)
  grandFinale : Finale;                   (* grandFinaleRef.current *)
  cursor : nat;                           (* calls of Math.random() so far *)
  explosionCues : nat;                    (* calls of playExplosion so far *)
  triggerLog : list TriggerCall           (* trace of triggerFirework calls *)
}.

Definition set_canvas (v : option Canvas) (w : World) : World :=
  mkWorld v (audio w) (particles w) (handState w) (prevHandState w)
    (handPos w) (lastTriggerTime w) (grandFinale w) (cursor w)
    (explosionCues w) (triggerLog w).
Definition set_particles (v : list Particle.t) (w : World) : World :=
  mkWorld (canvas w) (audio w) v (handState w) (prevHandState w)
    (handPos w) (lastTriggerTime w) (grandFinale w) (cursor w)
    (explosionCues w) (triggerLog w).
Definition set_handState (v : PerLane HandState) (w : World) : World :=
  mkWorld (canvas w) (audio w) (particles w) v (prevHandState w)
    (handPos w) (lastTriggerTime w) (grandFinale w) (cursor w)
    (explosionCues w) (triggerLog w).
Definition set_prevHandState (v : PerLane HandState) (w : World) : World :=
  mkWorld (canvas w) (audio w) (particles w) (handState w) v
    (handPos w) (lastTriggerTime w) (grandFinale w) (cursor w)
    (explosionCues w) (triggerLog w).
Definition set_handPos (v : PerLane Point.t) (w : World) : World :=
  mkWorld (canvas w) (audio w) (particles w) (handState w) (prevHandState w)
    v (lastTriggerTime w) (grandFinale w) (cursor w)
    (explosionCues w) (triggerLog w).
Definition set_lastTriggerTime (v : PerLane Z) (w : World) : World :=
  mkWorld (canvas w) (audio w) (particles w) (handState w) (prevHandState w)
    (handPos w) v (grandFinale w) (cursor w)
    (explosionCues w) (triggerLog w).
Definition set_grandFinale (v : Finale) (w : World) : World :=
  mkWorld (canvas w) (audio w) (particles w) (handState w) (prevHandState w)
    (handPos w) (lastTriggerTime w) v (cursor w)
    (explosionCues w) (triggerLog w).
Definition set_cursor (v : nat) (w : World) : World :=
  mkWorld (canvas w) (audio w) (particles w) (handState w) (prevHandState w)
    (handPos w) (lastTriggerTime w) (grandFinale w) v
    (explosionCues w) (triggerLog w).
Definition set_explosionCues (v : nat) (w : World) : World :=
  mkWorld (canvas w) (audio w) (particles w) (handState w) (prevHandState w)
    (handPos w) (lastTriggerTime w) (grandFinale w) (cursor w)
    v (triggerLog w).
Definition set_triggerLog (v : list TriggerCall) (w : World) : World :=
  mkWorld (canvas w) (audio w) (particles w) (handState w) (prevHandState w)
    (handPos w) (lastTriggerTime w) (grandFinale w) (cursor w)
    (explosionCues w) v.

(** The refs as the component creates them. *)
Definition initialWorld (c : option Canvas) (a : bool) (k : nat) : World :=
  mkWorld c a []
    (mkPerLane UNKNOWN UNKNOWN) (mkPerLane UNKNOWN UNKNOWN)
    (mkPerLane (Point.mk 0 0) (Point.mk 0 0)) (mkPerLane 0%Z 0%Z)
    (mkFinale false 0) k 0 [].

(** How a callback ends: it returns, or a [TypeError] is thrown out of it.
    Either way the assignments made so far stay. *)
Inductive Outcome (A : Type) : Type :=
| Returned (a : A)
| Threw (a : A).
Arguments Returned {A} _.
Arguments Threw {A} _.

Definition outcome_state {A : Type} (o : Outcome A) : A :=
  match o with Returned a => a | Threw a => a end.

(** ** The start screen: [App.tsx]

    The four pieces of React state of [App], the start handler and what
    [App] renders from the state. *)

Module App.

Record State : Type := mkState {
  started : bool;
  loading : bool;
  cameraActive : bool;
  error : option string
}.

Definition initialState : State := mkState false false false None.

Definition setStarted (v : bool) (s : State) : State :=
  mkState v (loading s) (cameraActive s) (error s).
Definition setLoading (v : bool) (s : State) : State :=
  mkState (started s) v (cameraActive s) (error s).
Definition setCameraActive (v : bool) (s : State) : State :=
  mkState (started s) (loading s) v (error s).
Definition setError (v : option string) (s : State) : State :=
  mkState (started s) (loading s) (cameraActive s) v.

(** What the browser answers to the requests of [handleStart]. *)
Record Browser : Type := mkBrowser {
  cameraGranted : bool;       (* [getUserMedia] resolves *)
  audioContextBuilt : bool;   (* [new AudioContextClass()] does not throw *)
  contextSuspended : bool;    (* [ctx.state === 'suspended'] *)
  resumeGranted : bool;       (* [ctx.resume()] resolves *)
  fullscreenGranted : bool    (* [requestFullscreen()] resolves *)
}.

(** Lines written to the console. *)
Inductive Console : Type :=
| consoleLog (message : string)
| consoleError.

Definition cameraDenied : string :=
  "Camera access denied. Please allow camera access to play."%string.

(** The body of the outer [try]: it throws where the first request fails;
    the fullscreen request has a [try] of its own. *)
Definition tryStart (b : Browser) (s : State)
  : Outcome (State * list Console) :=
  if negb (cameraGranted b) then Threw (s, [])
  else if negb (audioContextBuilt b) then Threw (s, [])
  else if contextSuspended b && negb (resumeGranted b) then Threw (s, [])
  else
    let out :=
      if fullscreenGranted b then []
      else [consoleLog "Fullscreen not supported or denied"%string] in
    Returned (setStarted true s, out).

(** [handleStart], from the click to the end of its [finally]. *)
Definition handleStart (b : Browser) (s : State) : State * list Console :=
  let s := setLoading true s in
  let s := setError None s in
  let '(s, out) :=
    match tryStart b s with
    | Returned r => r
    | Threw (s, out) => (setError (Some cameraDenied) s, out ++ [consoleError])
    end in
  (setLoading false s, out).

(** What [App] returns. *)
Inductive Screen : Type :=
| StartScreen (message : option string) (buttonDisabled : bool)
| Game (waitingForHand : bool).

Definition render (s : State) : Screen :=
  if negb (started s) then StartScreen (error s) (loading s)
  else Game (negb (cameraActive s)).

(** The camera and the audio context are both there. *)
Definition ready (b : Browser) : bool :=
  cameraGranted b && audioContextBuilt b
  && (negb (contextSuspended b) || resumeGranted b).

End App.

(** The argument of [onHandsDetected] in [onResults], when it is called:
    before the loop over the hands, for a payload with both lists. *)
Definition handsDetected (results : Results) : option bool :=
  match multiHandLandmarks results, multiHandedness results with
  | Some hands, Some _ => Some (0 <? length hands)%nat
  | _, _ => None
  end.

(** [App]'s state after [onResults] got a payload
    ([onHandsDetected] is [setCameraActive]). *)
Definition trackerPayload (s : App.State) (results : Results) : App.State :=
  match handsDetected results with
  | Some b => App.setCameraActive b s
  | None => s
  end.


(** ** Sample inputs

    Concrete values for the parameters of the development and a few worlds,
    used where a statement is run on an input. *)

Definition sampleCanvas : Canvas := mkCanvas 1920 1080 true.

(** Every call of [Math.random()] returns 0.1: first palette entry but one,
    circle style, small size class. *)
Definition sampleRandom (n : nat) : Q := 0.1.

(** As [sampleRandom], but the style draw selects the ring style. *)
Definition ringRandom (n : nat) : Q := if (n =? 1)%nat then 0.3 else 0.1.

(** Circle style, small size class, count 70, and 0.9 for every draw of the
    particle loop. *)
Definition brightRandom (n : nat) : Q := if (n <? 4)%nat then 0 else 0.9.

Definition sampleCos (a : Q) : Q := 1.
Definition sampleSin (a : Q) : Q := 0.
Definition samplePI : Q := 3.14.

(** Exact on the squares of rationals. *)
Definition sampleSqrt (q : Q) : Q := Z.sqrt (Qnum q) # Pos.sqrt (Qden q).

(** 21 landmarks: the wrist at the centre, every other landmark at distance
    0.4 (an open hand) or 0.1 (a fist) from it. *)
Definition openHand : list Point.t :=
  Point.mk 0.5 0.5 :: replicate 20 (Point.mk 0.5 0.1).
Definition fistHand : list Point.t :=
  Point.mk 0.5 0.5 :: replicate 20 (Point.mk 0.5 0.4).

Definition freshWorld : World := initialWorld (Some sampleCanvas) true 0.

(** After the tracker saw an open left hand, and two open hands. *)
Definition leftOpenWorld : World :=
  set_handState (mkPerLane OPEN UNKNOWN)
    (set_handPos (mkPerLane (Point.mk 0.5 0.5) (Point.mk 0 0)) freshWorld).
Definition bothOpenWorld : World :=
  set_handState (mkPerLane OPEN OPEN)
    (set_handPos (mkPerLane (Point.mk 0.5 0.5) (Point.mk 0.5 0.5)) freshWorld).

(** A pool of 2001 particles. *)
Definition fullWorld : World :=
  set_particles
    (replicate 2001 (Particle.mk 0 0 0 0 0 50 1 0.01 0.98 0.04 2)) freshWorld.

(** As [ringRandom], for the three other styles with a [case] of their
    own. *)
Definition burstRandom (n : nat) : Q := if (n =? 1)%nat then 0.5 else 0.1.
Definition willowRandom (n : nat) : Q := if (n =? 1)%nat then 0.7 else 0.1.
Definition chrysanthemumRandom (n : nat) : Q :=
  if (n =? 1)%nat then 0.9 else 0.1.

(** A browser that grants the camera and builds a running audio context
    but denies fullscreen, and one that denies the camera. *)
Definition windowedBrowser : App.Browser :=
  App.mkBrowser true true false false false.
Definition cameraDeniedBrowser : App.Browser :=
  App.mkBrowser false true false false true.

(** A particle moving to the right at one pixel per frame. *)
Definition sampleParticle : Particle.t :=
  Particle.mk 0 0 1 0 0 50 1 0.01 0.98 0.04 2.

Section Engine.

(** [random n] is the value of the [n]-th call of [Math.random()]. *)
Variable random : nat -> Q.
Variables cos sin : Q -> Q.
Variable PI : Q.
Variable sqrt : Q -> Q.

Definition mathRandom : Rand Q := fun k => (random k, S k).

(** [arr[Math.floor(Math.random() * arr.length)]].  An index outside the
    array would read [undefined]; [d] stands for it (lemma
    [randomChoice_index] shows the index is inside the array). *)
Definition randomChoice {A : Type} (d : A) (arr : list A) : Rand A :=
  r ← mathRandom;
  mret (nth (Z.to_nat (Qfloor (r * inject_Z (Z.of_nat (length arr))))) arr d).

Definition randomRange (min max : Q) : Rand Q :=
  r ← mathRandom; mret (r * (max - min) + min).

(** [new Particle(x, y, hue, velocity, lightness, size)] *)
Definition Particle_new (x y hue : Q) (velocity : Q * Q) (lightness size : Q)
  : Rand Particle.t :=
  r1 ← mathRandom;
  r2 ← mathRandom;
  r3 ← mathRandom;
  mret (Particle.mk x y (fst velocity) (snd velocity) hue
          (lightness + r1 * 10) 1 (0.012 + r2 * 0.018) 0.98 0.04
          (size + r3 * 2)).

(** Palette, style and size class of an explosion. *)
Definition planExplosion : Rand Plan :=
  palette ← randomChoice {| palette_hue := 0; palette_name := "" |} COLOR_PALETTES;
  style ← randomChoice circle EXPLOSION_STYLES;
  sizeClass ← mathRandom;
  if Qltb sizeClass 0.3 then
    particleCount ← randomRange 70 110;
    explosionPower ← randomRange 5 8;
    baseSize ← randomRange 3.5 5;
    mret (mkPlan palette style sizeClass particleCount explosionPower baseSize)
  else if Qltb sizeClass 0.7 then
    particleCount ← randomRange 120 180;
    explosionPower ← randomRange 8 11;
    baseSize ← randomRange 4.5 6;
    mret (mkPlan palette style sizeClass particleCount explosionPower baseSize)
  else
    particleCount ← randomRange 200 300;
    explosionPower ← randomRange 10 14;
    baseSize ← randomRange 5.5 7.5;
    mret (mkPlan palette style sizeClass particleCount explosionPower baseSize).

(** The [switch (style)] of the particle loop. *)
Definition styleAdjust (plan : Plan) (l : Roll) : Rand Roll :=
  let explosionPower := plan_explosionPower plan in
  match plan_style plan with
  | ring =>
      r ← mathRandom;
      let velocity := explosionPower * (0.85 + r * 0.3) in
      decay ← randomRange 0.015 0.025;
      lightness ← randomRange 45 55;
      mret (mkRoll (roll_angle l) velocity (roll_hueVariation l) lightness
              (roll_size l) decay (roll_gravity l))
  | burst =>
      r ← mathRandom;
      let velocity :=
        if Qltb 0.7 r then roll_velocity l * 1.8 else roll_velocity l in
      lightness ← randomRange 45 58;
      mret (mkRoll (roll_angle l) velocity (roll_hueVariation l) lightness
              (roll_size l) (roll_decay l) (roll_gravity l))
  | willow =>
      s ← randomRange 0.3 0.7;
      let velocity := explosionPower * s in
      let gravity := 0.08 in
      decay ← randomRange 0.008 0.015;
      r ← mathRandom;
      let hueVariation :=
        if Qltb 0.7 r
        then inject_Z (Z.rem (palette_hue (plan_palette plan) + 180) 360)
        else roll_hueVariation l in
      lightness ← randomRange 45 55;
      mret (mkRoll (roll_angle l) velocity hueVariation lightness
              (roll_size l) decay gravity)
  | chrysanthemum =>
      r ← mathRandom;
      lightness ← (if Qltb 0.7 r then randomRange 50 60
                   else mret (roll_lightness l));
      s ← randomRange 0.5 1.0;
      let velocity := explosionPower * s in
      mret (mkRoll (roll_angle l) velocity (roll_hueVariation l) lightness
              (roll_size l) (roll_decay l) (roll_gravity l))
  | circle => mret l
  end.

(** The locals of one iteration, after the style switch. *)
Definition rollParticle (plan : Plan) : Rand Roll :=
  r ← mathRandom;
  let angle := r * PI * 2 in
  r ← mathRandom;
  let velocity := r * plan_explosionPower plan in
  r ← mathRandom;
  let hueVariation :=
    inject_Z (palette_hue (plan_palette plan)) + (r - 0.5) * 30 in
  lightness ← randomRange 45 55;
  let size := plan_baseSize plan in
  decay ← randomRange 0.01 0.02;
  let gravity := 0.04 in
  styleAdjust plan (mkRoll angle velocity hueVariation lightness size decay gravity).

(** Construction of the particle from the locals, and the two assignments
    that follow it ([particle.decay = decay; particle.gravity = gravity]). *)
Definition buildParticle (x y : Q) (l : Roll) : Rand Particle.t :=
  particle ← Particle_new x y (roll_hueVariation l)
               (cos (roll_angle l) * roll_velocity l,
                sin (roll_angle l) * roll_velocity l)
               (roll_lightness l) (roll_size l);
  let particle := Particle.set_decay (roll_decay l) particle in
  let particle := Particle.set_gravity (roll_gravity l) particle in
  mret particle.

(** One iteration of the particle loop. *)
Definition spawnParticle (x y : Q) (plan : Plan) : Rand Particle.t :=
  l ← rollParticle plan; buildParticle x y l.

(** [for (let i = 0; i < particleCount; i++) { ...; particles.current.push(particle) }]
    with the loop counter [i] and the pool as accumulator.  [fuel] bounds
    the number of iterations (lemma [spawnLoop_fuel] shows that the fuel
    [spawnAll] passes is never exhausted before the loop condition
    fails). *)
Fixpoint spawnLoop (fuel : nat) (i : Z) (x y : Q) (plan : Plan)
    (pool : list Particle.t) : Rand (list Particle.t) :=
  match fuel with
  | O => mret pool
  | S fuel' =>
      if Qltb (inject_Z i) (plan_particleCount plan) then
        particle ← spawnParticle x y plan;
        spawnLoop fuel' (i + 1)%Z x y plan (pool ++ [particle])
      else mret pool
  end.

Definition spawnAll (x y : Q) (plan : Plan) (pool : list Particle.t)
  : Rand (list Particle.t) :=
  spawnLoop (Z.to_nat (Qceiling (plan_particleCount plan))) 0 x y plan pool.

(** *** The gesture classifier: [onResults] *)

Definition tips : list nat := [8; 12; 16; 20]%nat.

(** The body of [tips.forEach]: [avgDist += Math.sqrt(dx*dx + dy*dy)];
    [None] when [landmarks[tipIdx]] is undefined (reading [.x] throws). *)
Definition addTipDistance (landmarks : list Point.t) (wrist : Point.t)
    (avgDist : option Q) (tipIdx : nat) : option Q :=
  a ← avgDist;
  tip ← landmarks !! tipIdx;
  let dx := Point.x tip - Point.x wrist in
  let dy := Point.y tip - Point.y wrist in
  Some (a + sqrt (dx * dx + dy * dy)).

(** Wrist and state read off the landmarks of one hand. *)
Definition readHand (landmarks : list Point.t) : option (Point.t * HandState) :=
  wrist ← landmarks !! 0%nat;
  avgDist ← foldl (addTipDistance landmarks wrist) (Some 0) tips;
  let avgDist := avgDist / 4 in
  let newState := if Qltb avgDist 0.25 then FIST else OPEN in
  Some (wrist, newState).

(** The loop over [results.multiHandLandmarks], from index [i] on, with
    the set [foundHands]. *)
Fixpoint scanHands (i : nat) (hands : list (list Point.t))
    (handedness : list Lane) (foundHands : gset Lane) (w : World)
  : Outcome (gset Lane * World) :=
  match hands with
  | [] => Returned (foundHands, w)
  | landmarks :: rest =>
      match handedness !! i with
      | None => Threw (foundHands, w)
      | Some label =>
          let foundHands := {[ label ]} ∪ foundHands in
          match readHand landmarks with
          | None => Threw (foundHands, w)
          | Some (wrist, newState) =>
              let w := set_handPos
                         (lane_set label
                            (Point.mk (Point.x wrist) (Point.y wrist))
                            (handPos w)) w in
              let w := set_handState
                         (lane_set label newState (handState w)) w in
              scanHands (S i) rest handedness foundHands w
          end
      end
  end.

(** The body of [['Left', 'Right'].forEach] that clears missing hands. *)
Definition clearMissing (foundHands : gset Lane) (w : World) (hand : Lane)
  : World :=
  if bool_decide (hand ∈ foundHands) then w
  else set_handState (lane_set hand UNKNOWN (handState w)) w.

Definition onResults (results : Results) (w : World) : Outcome World :=
  match multiHandLandmarks results, multiHandedness results with
  | Some hands, Some handedness =>
      match scanHands 0 hands handedness ∅ w with
      | Threw (_, w) => Threw w
      | Returned (foundHands, w) =>
          Returned (foldl (clearMissing foundHands) w [Left; Right])
      end
  | _, _ => Returned w
  end.

(** *** The explosion composer: [triggerFirework]

    [who] is not an argument of the source function: it names the caller
    in the trace of calls. *)
Definition triggerFirework (who : option Lane) (x y : Q) (w : World) : World :=
  let w := set_triggerLog (triggerLog w ++ [mkCall who x y]) w in
  match canvas w with
  | None => w
  | Some _ =>
      if (MAX_PARTICLES <? length (particles w))%nat then w
      else
        let w := if audio w
                 then set_explosionCues (S (explosionCues w)) w else w in
        let '(plan, k) := planExplosion (cursor w) in
        let '(pool, k) := spawnAll x y plan (particles w) k in
        set_cursor k (set_particles pool w)
  end.

(** [Math.random()] called from [draw]. *)
Definition nextRandom (w : World) : Q * World :=
  (random (cursor w), set_cursor (S (cursor w)) w).

(** *** The frame function: [draw] *)

(** The six finale patterns.  Each is a sequence of [triggerFirework]
    calls; the coordinates are those of the source. *)
Definition patternSides (W H : Q) (w : World) : World :=
  let '(r, w) := nextRandom w in
  let y := r * H * 0.5 + H * 0.15 in
  let w := triggerFirework None (W * 0.1) y w in
  let w := triggerFirework None (W * 0.9) y w in
  let w := triggerFirework None (W * 0.3) (y - 30) w in
  let w := triggerFirework None (W * 0.7) (y - 30) w in
  triggerFirework None (W * 0.5) (y - 60) w.

Definition patternWave (W H : Q) (w : World) : World :=
  foldl (fun w (_ : nat) =>
           let '(r, w) := nextRandom w in
           let x := (r * 0.8 + 0.1) * W in
           let '(r, w) := nextRandom w in
           let y := r * H * 0.5 + H * 0.1 in
           triggerFirework None x y w)
        w (seq 0 6).

Definition patternCascade (W H : Q) (w : World) : World :=
  let '(r, w) := nextRandom w in
  let centerX := W / 2 + (r - 0.5) * 200 in
  let '(r, w) := nextRandom w in
  let centerY := H * 0.3 + (r - 0.5) * 100 in
  let w := triggerFirework None centerX centerY w in
  let w := triggerFirework None (centerX - 150) (centerY + 80) w in
  let w := triggerFirework None (centerX + 150) (centerY + 80) w in
  let w := triggerFirework None (centerX - 100) (centerY - 50) w in
  triggerFirework None (centerX + 100) (centerY - 50) w.

Definition patternCross (W H : Q) (w : World) : World :=
  let w := triggerFirework None (W * 0.15) (H * 0.15) w in
  let w := triggerFirework None (W * 0.85) (H * 0.15) w in
  let w := triggerFirework None (W * 0.5) (H * 0.35) w in
  let w := triggerFirework None (W * 0.15) (H * 0.55) w in
  let w := triggerFirework None (W * 0.85) (H * 0.55) w in
  let w := triggerFirework None (W * 0.3) (H * 0.25) w in
  triggerFirework None (W * 0.7) (H * 0.25) w.

Definition patternCircle (W H : Q) (w : World) : World :=
  let cx := W / 2 in
  let cy := H * 0.4 in
  foldl (fun w (i : nat) =>
           let angle := (inject_Z (Z.of_nat i) / 8) * PI * 2 in
           let radius := 200 in
           triggerFirework None (cx + cos angle * radius)
             (cy + sin angle * radius * 0.6) w)
        w (seq 0 8).

Definition patternChaos (W H : Q) (w : World) : World :=
  foldl (fun w (_ : nat) =>
           let '(r, w) := nextRandom w in
           let randX := r * W in
           let '(r, w) := nextRandom w in
           let randY := r * H * 0.7 + H * 0.1 in
           triggerFirework None randX randY w)
        w (seq 0 8).

(** The [if (phase === 0) ... else if ... else ...] chain. *)
Definition choreography (phase : Z) (W H : Q) (w : World) : World :=
  if (phase =? 0)%Z then patternSides W H w
  else if (phase =? 1)%Z then patternWave W H w
  else if (phase =? 2)%Z then patternCascade W H w
  else if (phase =? 3)%Z then patternCross W H w
  else if (phase =? 4)%Z then patternCircle W H w
  else patternChaos W H w.

(** The finale block: [grandFinaleRef.current.active = bothHandsOpen] and
    the choreography.  [Math.floor(now / 400) % 6] keeps the sign of its
    left operand, as [Z.rem] does. *)
Definition finaleBlock (now : Z) (c : Canvas) (bothHandsOpen : bool)
    (w : World) : World :=
  let W := inject_Z (width c) in
  let H := inject_Z (height c) in
  let w := set_grandFinale
             (mkFinale bothHandsOpen (lastSpawn (grandFinale w))) w in
  if bothHandsOpen && (15 <? now - lastSpawn (grandFinale w))%Z then
    let phase := Z.rem (now / 400) 6 in
    let w := choreography phase W H w in
    set_grandFinale (mkFinale (active (grandFinale w)) now) w
  else w.

(** The body of [['Left', 'Right'].forEach] in [draw] (the drawing of the
    hand indicator left out). *)
Definition laneBody (now : Z) (c : Canvas) (bothHandsOpen : bool)
    (w : World) (hand : Lane) : World :=
  let state := lane_get hand (handState w) in
  let pos := lane_get hand (handPos w) in
  let screenX := (1 - Point.x pos) * inject_Z (width c) in
  let screenY := Point.y pos * inject_Z (height c) in
  let w :=
    if negb bothHandsOpen then
      let prevState := lane_get hand (prevHandState w) in
      let justOpened :=
        bool_decide (state = OPEN) && negb (bool_decide (prevState = OPEN)) in
      if justOpened && (250 <? now - lane_get hand (lastTriggerTime w))%Z then
        let w := triggerFirework (Some hand) screenX screenY w in
        set_lastTriggerTime (lane_set hand now (lastTriggerTime w)) w
      else w
    else w in
  set_prevHandState (lane_set hand state (prevHandState w)) w.

(** Everything [draw] does before the particle pass: finale block, then
    the two lanes. *)
Definition inputLogic (now : Z) (c : Canvas) (w : World) : World :=
  let leftState := lane_get Left (handState w) in
  let rightState := lane_get Right (handState w) in
  let bothHandsOpen :=
    bool_decide (leftState = OPEN) && bool_decide (rightState = OPEN) in
  let w := finaleBlock now c bothHandsOpen w in
  foldl (laneBody now c bothHandsOpen) w [Left; Right].

(** The particle pass: at index [i] the particle is updated in place and,
    when it is not dead, stored at [writeIdx].  [writeIdx <= i] throughout
    (lemma [cullLoop_spec]), so the store never lands outside the array.
    The loop ends when [i] reaches the length. *)
Fixpoint cullLoop (fuel i writeIdx : nat) (arr : list Particle.t)
  : nat * list Particle.t :=
  match fuel with
  | O => (writeIdx, arr)
  | S fuel' =>
      match arr !! i with
      | None => (writeIdx, arr)
      | Some p =>
          let p := Particle.update p in
          let arr := <[ i := p ]> arr in
          if negb (Particle.isDead p)
          then cullLoop fuel' (S i) (S writeIdx) (<[ writeIdx := p ]> arr)
          else cullLoop fuel' (S i) writeIdx arr
      end
  end.

(** The pass, followed by [particles.current.length = writeIdx]. *)
Definition integrate (w : World) : World :=
  let '(writeIdx, arr) :=
    cullLoop (length (particles w)) 0 0 (particles w) in
  set_particles (take writeIdx arr) w.

Definition draw (now : Z) (w : World) : World :=
  match canvas w with
  | None => w
  | Some c =>
      if has2d c then integrate (inputLogic now c w) else w
  end.

(** The resize handler. *)
Definition onResize (innerWidth innerHeight : Z) (w : World) : World :=
  match canvas w with
  | None => w
  | Some c => set_canvas (Some (mkCanvas innerWidth innerHeight (has2d c))) w
  end.

(** Worlds the component can be in: the refs as created, then any
    sequence of tracker callbacks, frames and resizes. *)
Inductive Reachable : World -> Prop :=
| reach_initial c a k : Reachable (initialWorld c a k)
| reach_results results w :
    Reachable w -> Reachable (outcome_state (onResults results w))
| reach_draw now w : Reachable w -> Reachable (draw now w)
| reach_resize iw ih w : Reachable w -> Reachable (onResize iw ih w).

(** [Run w sizes w']: the component went from [w] to [w'] through frames
    on a mounted canvas, with tracker callbacks and resizes in between;
    [sizes] lists the size of the pool at the start and after each
    frame. *)
Inductive Run (w : World) : list nat -> World -> Prop :=
| run_start : Run w [length (particles w)] w
| run_results sizes w' results :
    Run w sizes w' -> Run w sizes (outcome_state (onResults results w'))
| run_resize sizes w' iw ih :
    Run w sizes w' -> Run w sizes (onResize iw ih w')
| run_frame sizes w' now c :
    Run w sizes w' -> canvas w' = Some c -> has2d c = true ->
    Run w (sizes ++ [length (particles (draw now w'))]) (draw now w').

(** Worlds reached from [w] by tracker callbacks alone. *)
Inductive Callbacks (w : World) : World -> Prop :=
| callbacks_none : Callbacks w w
| callbacks_more results w' :
    Callbacks w w' ->
    Callbacks w (outcome_state (onResults results w')).

(** *** Notions the statements below use *)

(** The particles a call of [triggerFirework] adds to the pool. *)
Definition appended (who : option Lane) (x y : Q) (w : World)
  : list Particle.t :=
  drop (length (particles w)) (particles (triggerFirework who x y w)).

(** The plan an accepted call of [triggerFirework] rolls in world [w]. *)
Definition planOf (w : World) : Plan := fst (planExplosion (cursor w)).

(** [v] is the value [randomRange min max] computes from the draw [u]. *)
Definition drawnWithin (min max u v : Q) : Prop :=
  v = u * (max - min) + min /\ min <= v < max.

(** Both lanes report OPEN: the condition of the finale. *)
Definition bothOpen (w : World) : Prop :=
  lane_get Left (handState w) = OPEN /\ lane_get Right (handState w) = OPEN.

(** The condition of the normal trigger, in the words of the
    specification: the lane is OPEN now, was not OPEN in the previous
    frame, and more than 250 ms have passed since its last trigger. *)
Definition risingEdge (now : Z) (w : World) (hand : Lane) : Prop :=
  lane_get hand (handState w) = OPEN
  /\ lane_get hand (prevHandState w) <> OPEN
  /\ (250 < now - lane_get hand (lastTriggerTime w))%Z.

Global Instance risingEdge_dec now w hand : Decision (risingEdge now w hand).
Proof. unfold risingEdge. apply _. Defined.

(** The call the normal trigger of a lane makes: the wrist of the lane,
    mirrored horizontally and scaled to the canvas. *)
Definition mirroredCall (c : Canvas) (w : World) (hand : Lane) : TriggerCall :=
  let pos := lane_get hand (handPos w) in
  mkCall (Some hand) ((1 - Point.x pos) * inject_Z (width c))
    (Point.y pos * inject_Z (height c)).

(** The calls of [triggerFirework] made between [w] and [w']. *)
Definition newCalls (w w' : World) : list TriggerCall :=
  drop (length (triggerLog w)) (triggerLog w').

(** A particle that is not dead. *)
Definition alive (p : Particle.t) : Prop := Particle.isDead p = false.

Global Instance alive_dec p : Decision (alive p).
Proof. unfold alive. apply _. Defined.

(** What the composer guarantees of a particle it pushes. *)
Definition fresh (p : Particle.t) : Prop :=
  Particle.alpha p = 1 /\ 0.008 <= Particle.decay p < 0.025.

(** What holds of a particle as long as it is in the pool. *)
Definition pooled (p : Particle.t) : Prop :=
  0 < Particle.alpha p <= 1 /\ 0.008 <= Particle.decay p < 0.025.

(** Everything but pool, random cursor, cue count and trace is the same
    in [w] and [w']. *)
Definition handsKept (w w' : World) : Prop :=
  canvas w' = canvas w /\ audio w' = audio w
  /\ handState w' = handState w /\ prevHandState w' = prevHandState w
  /\ handPos w' = handPos w /\ lastTriggerTime w' = lastTriggerTime w
  /\ grandFinale w' = grandFinale w.

(** From [w] to [w'] the pool got fresh particles at its end and nothing
    else happened to it; 2300 bounds it after if it did before. *)
Definition poolGrows (w w' : World) : Prop :=
  (exists batch, particles w' = particles w ++ batch /\ Forall fresh batch)
  /\ ((length (particles w) <= 2300)%nat ->
      (length (particles w') <= 2300)%nat).

(** From [w] to [w'] a pool above the cap stayed as it was. *)
Definition overCapKept (w w' : World) : Prop :=
  (MAX_PARTICLES < length (particles w))%nat -> particles w' = particles w.

(** From [w] to [w'] only the finale choreography called
    [triggerFirework]. *)
Definition finaleCallsOnly (w w' : World) : Prop :=
  exists calls, triggerLog w' = triggerLog w ++ calls
                /\ Forall (fun call => call_lane call = None) calls.

(** A step of the choreography: hands untouched, calls tagged as finale
    calls. *)
Definition finaleStep (w w' : World) : Prop :=
  handsKept w w' /\ finaleCallsOnly w w'.

(** The tracker callback leaves everything but the lane states and the
    lane positions as it was. *)
Definition trackerKept (w w' : World) : Prop :=
  canvas w' = canvas w /\ audio w' = audio w
  /\ particles w' = particles w /\ prevHandState w' = prevHandState w
  /\ lastTriggerTime w' = lastTriggerTime w
  /\ grandFinale w' = grandFinale w /\ cursor w' = cursor w
  /\ explosionCues w' = explosionCues w /\ triggerLog w' = triggerLog w.

(** The classification in the words of the specification: the Euclidean
    distance from the wrist (landmark 0) to a fingertip, and its average
    over the four fingertips (landmarks 8, 12, 16 and 20). *)
Definition tipDistance (wrist tip : Point.t) : Q :=
  sqrt ((Point.x tip - Point.x wrist) * (Point.x tip - Point.x wrist)
        + (Point.y tip - Point.y wrist) * (Point.y tip - Point.y wrist)).

Definition averageTipDistance (landmarks : list Point.t) : option Q :=
  wrist ← landmarks !! 0%nat;
  t1 ← landmarks !! 8%nat;
  t2 ← landmarks !! 12%nat;
  t3 ← landmarks !! 16%nat;
  t4 ← landmarks !! 20%nat;
  Some ((tipDistance wrist t1 + tipDistance wrist t2
         + tipDistance wrist t3 + tipDistance wrist t4) / 4).

(** The observations of a frame: label and landmarks of each hand, in the
    order of the payload; and the last observation of a lane among them. *)
Definition observations (hands : list (list Point.t)) (handedness : list Lane)
  : list (Lane * list Point.t) :=
  zip handedness hands.

Fixpoint lastObservation (hand : Lane) (obs : list (Lane * list Point.t))
  : option (list Point.t) :=
  match obs with
  | [] => None
  | (label, landmarks) :: rest =>
      match lastObservation hand rest with
      | Some later => Some later
      | None => if decide (label = hand) then Some landmarks else None
      end
  end.

(** The state the scan leaves in a lane: that of the lane's last
    observation, or the one it had. *)
Definition scanned (hand : Lane) (obs : list (Lane * list Point.t))
    (w : World) : HandState :=
  match lastObservation hand obs with
  | Some landmarks =>
      match readHand landmarks with
      | Some (_, newState) => newState
      | None => UNKNOWN
      end
  | None => lane_get hand (handState w)
  end.

(** The number of [triggerFirework] calls of the pattern of a phase. *)
Definition patternCalls (phase : Z) : nat :=
  if (phase =? 0)%Z then 5
  else if (phase =? 1)%Z then 6
  else if (phase =? 2)%Z then 5
  else if (phase =? 3)%Z then 7
  else 8.

(** [Within deadline w w']: the component went from [w] to [w'] through
    tracker callbacks, resizes and frames, every frame at a time not after
    [deadline]. *)
Inductive Within (deadline : Z) (w : World) : World -> Prop :=
| within_start : Within deadline w w
| within_results results w' :
    Within deadline w w' ->
    Within deadline w (outcome_state (onResults results w'))
| within_resize iw ih w' :
    Within deadline w w' -> Within deadline w (onResize iw ih w')
| within_frame now w' :
    Within deadline w w' -> (now <= deadline)%Z ->
    Within deadline w (draw now w').

(** The position the scan leaves in a lane: the wrist of the lane's last
    observation, or the one it had. *)
Definition scannedPos (hand : Lane) (obs : list (Lane * list Point.t))
    (w : World) : Point.t :=
  match lastObservation hand obs with
  | Some landmarks =>
      match landmarks !! 0%nat with
      | Some wrist => Point.mk (Point.x wrist) (Point.y wrist)
      | None => lane_get hand (handPos w)
      end
  | None => lane_get hand (handPos w)
  end.

(** A payload the callback can read to the end: a label for every hand and
    21 landmarks in every hand. *)
Definition wellFormed (hands : list (list Point.t)) (handedness : list Lane)
  : Prop :=
  (length hands <= length handedness)%nat
  /\ Forall (fun landmarks => (21 <= length landmarks)%nat) hands.

(** *** Rendering a particle

    The colour string [hsla(h, s%, l%, a)] that [hsl] builds is kept as its
    four numbers.  [%] on numbers takes the remainder of the division
    truncated towards zero. *)
Record Colour : Type := mkColour {
  colour_h : Q;
  colour_s : Q;
  colour_l : Q;
  colour_a : Q
}.

Definition Qtrunc (q : Q) : Z := Z.quot (Qnum q) (Zpos (Qden q)).

Definition jsRem (a b : Q) : Q := a - inject_Z (Qtrunc (a / b)) * b.

Definition hsl (h s l a : Q) : Colour :=
  mkColour (jsRem h 360) (Qmin 100 (Qmax 0 s)) (Qmin 100 (Qmax 0 l)) a.

(** What [Particle.draw] puts on the canvas: a filled full circle. *)
Record Disc : Type := mkDisc {
  disc_x : Q;
  disc_y : Q;
  disc_radius : Q;
  disc_fill : Colour
}.

(** [draw(ctx)]: nothing when [alpha <= 0]. *)
Definition Particle_draw (p : Particle.t) : option Disc :=
  if Qle_bool (Particle.alpha p) 0 then None
  else Some (mkDisc (Particle.x p) (Particle.y p)
               (Particle.size p * Particle.alpha p)
               (hsl (Particle.hue p) 100 (Particle.lightness p)
                  (Particle.alpha p))).

(** The particle pass of [draw] with the drawing in it: [p.update();
    p.draw(ctx); if (!p.isDead()) ...], the discs drawn so far as a further
    accumulator. *)
Fixpoint renderLoop (fuel i writeIdx : nat) (arr : list Particle.t)
    (drawn : list Disc) : nat * list Particle.t * list Disc :=
  match fuel with
  | O => (writeIdx, arr, drawn)
  | S fuel' =>
      match arr !! i with
      | None => (writeIdx, arr, drawn)
      | Some p =>
          let p := Particle.update p in
          let arr := <[ i := p ]> arr in
          let drawn :=
            match Particle_draw p with
            | Some disc => drawn ++ [disc]
            | None => drawn
            end in
          if negb (Particle.isDead p)
          then renderLoop fuel' (S i) (S writeIdx) (<[ writeIdx := p ]> arr) drawn
          else renderLoop fuel' (S i) writeIdx arr drawn
      end
  end.

(** The pass on a world: the world after it and the discs of the frame. *)
Definition renderPass (w : World) : World * list Disc :=
  let '(writeIdx, arr, drawn) :=
    renderLoop (length (particles w)) 0 0 (particles w) [] in
  (set_particles (take writeIdx arr) w, drawn).

(** What every particle of the pool looks like. *)
Definition wellMade (p : Particle.t) : Prop :=
  0 < Particle.alpha p <= 1
  /\ 0.008 <= Particle.decay p < 0.025
  /\ Particle.friction p = 0.98
  /\ (Particle.gravity p = 0.04 \/ Particle.gravity p = 0.08)
  /\ 3.5 <= Particle.size p < 9.5
  /\ -15 <= Particle.hue p < 360
  /\ 45 <= Particle.lightness p < 70.

(** From [w] to [w'] the pool got particles with [F] at its end. *)
Definition grows (F : Particle.t -> Prop) (w w' : World) : Prop :=
  exists batch, particles w' = particles w ++ batch /\ Forall F batch.

(** From [w] to [w'] the trace got calls with [P] at its end. *)
Definition callsIn (P : TriggerCall -> Prop) (w w' : World) : Prop :=
  exists calls, triggerLog w' = triggerLog w ++ calls /\ Forall P calls.

(** A call of the choreography at a point of the canvas, between a tenth
    and eight tenths of its height. *)
Definition inUpperCanvas (c : Canvas) (call : TriggerCall) : Prop :=
  call_lane call = None
  /\ 0 <= call_x call <= inject_Z (width c)
  /\ 0.1 * inject_Z (height c) <= call_y call <= 0.8 * inject_Z (height c).

(** *** The calls of the finale patterns

    The calls of [triggerFirework] each of the six patterns of [draw]
    makes, in order.  [r], [r1] and [r2] are values returned by
    [Math.random()]; in the two patterns that draw inside a loop, [k] is
    the number of calls of [Math.random()] made before the iteration. *)
Definition sidesCalls (W H r : Q) : list TriggerCall :=
  let y := r * H * 0.5 + H * 0.15 in
  [ mkCall None (W * 0.1) y;
    mkCall None (W * 0.9) y;
    mkCall None (W * 0.3) (y - 30);
    mkCall None (W * 0.7) (y - 30);
    mkCall None (W * 0.5) (y - 60) ].

Definition waveCall (W H : Q) (k : nat) : TriggerCall :=
  mkCall None ((random k * 0.8 + 0.1) * W) (random (S k) * H * 0.5 + H * 0.1).

Definition cascadeCalls (W H r1 r2 : Q) : list TriggerCall :=
  let centerX := W / 2 + (r1 - 0.5) * 200 in
  let centerY := H * 0.3 + (r2 - 0.5) * 100 in
  [ mkCall None centerX centerY;
    mkCall None (centerX - 150) (centerY + 80);
    mkCall None (centerX + 150) (centerY + 80);
    mkCall None (centerX - 100) (centerY - 50);
    mkCall None (centerX + 100) (centerY - 50) ].

Definition crossCalls (W H : Q) : list TriggerCall :=
  [ mkCall None (W * 0.15) (H * 0.15);
    mkCall None (W * 0.85) (H * 0.15);
    mkCall None (W * 0.5) (H * 0.35);
    mkCall None (W * 0.15) (H * 0.55);
    mkCall None (W * 0.85) (H * 0.55);
    mkCall None (W * 0.3) (H * 0.25);
    mkCall None (W * 0.7) (H * 0.25) ].

Definition circleCall (W H : Q) (i : nat) : TriggerCall :=
  let angle := (inject_Z (Z.of_nat i) / 8) * PI * 2 in
  mkCall None (W / 2 + cos angle * 200) (H * 0.4 + sin angle * 200 * 0.6).

Definition chaosCall (W H : Q) (k : nat) : TriggerCall :=
  mkCall None (random k * W) (random (S k) * H * 0.7 + H * 0.1).

(** [calls] are the calls of the pattern of [phase], on a canvas of width
    [W] and height [H], when [k] calls of [Math.random()] were made
    before. *)
Definition phaseCalls (phase : Z) (W H : Q) (k : nat)
    (calls : list TriggerCall) : Prop :=
  if (phase =? 0)%Z then calls = sidesCalls W H (random k)
  else if (phase =? 1)%Z then
    exists ks, length ks = 6%nat /\ head ks = Some k
               /\ calls = waveCall W H <$> ks
  else if (phase =? 2)%Z then
    calls = cascadeCalls W H (random k) (random (S k))
  else if (phase =? 3)%Z then calls = crossCalls W H
  else if (phase =? 4)%Z then calls = circleCall W H <$> seq 0 8
  else
    exists ks, length ks = 8%nat /\ head ks = Some k
               /\ calls = chaosCall W H <$> ks.


(** * Properties *)

Hypothesis random_range : forall n, 0 <= random n < 1.

Set Default Proof Using "Type".

(* Rational arithmetic stays folded when the monadic code is unfolded. *)
Local Arguments Qplus : simpl never.
Local Arguments Qminus : simpl never.
Local Arguments Qmult : simpl never.
Local Arguments Qdiv : simpl never.
Local Arguments Qopp : simpl never.
Local Arguments Qle_bool : simpl never.
Local Arguments Qltb : simpl never.
Local Arguments Qfloor : simpl never.
Local Arguments Qceiling : simpl never.
Local Arguments inject_Z : simpl never.
Local Arguments Z.rem : simpl never.
Local Arguments Z.to_nat : simpl never.

Lemma Qltb_lt (a b : Q) : Qltb a b = true <-> a < b.
Proof.
  unfold Qltb. rewrite negb_true_iff, <- not_true_iff_false, Qle_bool_iff.
  split; [apply Qnot_le_lt | apply Qlt_not_le].
Qed.

Lemma Qltb_ge (a b : Q) : Qltb a b = false <-> b <= a.
Proof.
  unfold Qltb. rewrite negb_false_iff. apply Qle_bool_iff.
Qed.

(** ** C3: the physics step *)

(** C3.  One call of [update()] multiplies both velocity components by the
    friction, then adds the gravity to the vertical velocity, then adds the
    (new) velocity to the position, then subtracts the decay from alpha, and
    leaves every other field alone; [isDead()] answers true exactly when
    alpha is at most zero. *)
Theorem update_applies_steps_in_order (p : Particle.t) :
  Particle.update p =
    Particle.mk
      (Particle.x p + Particle.vx p * Particle.friction p)
      (Particle.y p + (Particle.vy p * Particle.friction p + Particle.gravity p))
      (Particle.vx p * Particle.friction p)
      (Particle.vy p * Particle.friction p + Particle.gravity p)
      (Particle.hue p) (Particle.lightness p)
      (Particle.alpha p - Particle.decay p)
      (Particle.decay p) (Particle.friction p) (Particle.gravity p)
      (Particle.size p)
  /\ (Particle.isDead p = true <-> Particle.alpha p <= 0).
Proof.
  split.
  - reflexivity.
  - unfold Particle.isDead. apply Qle_bool_iff.
Qed.

(** Runs the monadic plumbing of the composer, leaving arithmetic and
    tests on random values in place. *)
Ltac run_rand :=
  cbv beta iota zeta delta
    [planExplosion rollParticle styleAdjust buildParticle spawnParticle
     Particle_new randomChoice randomRange mathRandom
     mbind mret Rand_bind Rand_ret fst snd
     plan_palette plan_style plan_sizeClass plan_particleCount
     plan_explosionPower plan_baseSize
     roll_angle roll_velocity roll_hueVariation roll_lightness roll_size
     roll_decay roll_gravity].

Lemma randomRange_within (min max : Q) (k : nat) :
  min < max ->
  drawnWithin min max (random k) (fst (randomRange min max k))
  /\ snd (randomRange min max k) = S k.
Proof using random_range.
  intros Hlt. pose proof (random_range k) as [H0 H1].
  unfold drawnWithin. run_rand.
  split; [split; [reflexivity|]|reflexivity].
  assert (0 <= random k * (max - min)) by (apply Qmult_le_0_compat; lra).
  assert (random k * (max - min) < 1 * (max - min))
    by (apply Qmult_lt_compat_r; lra).
  split; lra.
Qed.

(** The index [randomChoice] reads is inside the array. *)
Lemma randomChoice_index (n k : nat) :
  (0 < n)%nat ->
  (Z.to_nat (Qfloor (random k * inject_Z (Z.of_nat n))) < n)%nat.
Proof using random_range.
  intros Hn. destruct (random_range k) as [H0 H1].
  set (N := inject_Z (Z.of_nat n)).
  assert (0 < N) as HN.
  { unfold N. change 0 with (inject_Z 0). rewrite <- Zlt_Qlt. lia. }
  assert (0 <= random k * N) as Hlo by (apply Qmult_le_0_compat; lra).
  assert (random k * N < 1 * N) as Hhi by (apply Qmult_lt_compat_r; lra).
  assert (0 <= Qfloor (random k * N))%Z as Hfloor0.
  { rewrite <- (Qfloor_Z 0). by apply Qfloor_resp_le. }
  assert (Qfloor (random k * N) < Z.of_nat n)%Z as Hfloor1.
  { rewrite Zlt_Qlt. fold N. pose proof (Qfloor_le (random k * N)). lra. }
  lia.
Qed.

(** ** The particle loop *)

Lemma spawnLoop_S fuel i x y plan pool k :
  spawnLoop (S fuel) i x y plan pool k =
    if Qltb (inject_Z i) (plan_particleCount plan) then
      spawnLoop fuel (i + 1)%Z x y plan
        (pool ++ [(spawnParticle x y plan k).1]) (spawnParticle x y plan k).2
    else (pool, k).
Proof.
  cbn [spawnLoop]. destruct (Qltb _ _); [|reflexivity].
  unfold mbind, Rand_bind. by destruct (spawnParticle x y plan k).
Qed.

Lemma loop_test_true (i : Z) (c : Q) :
  Qltb (inject_Z i) c = true -> (i < Qceiling c)%Z.
Proof.
  rewrite Qltb_lt. intros Hlt. pose proof (Qle_ceiling c) as Hc.
  rewrite Zlt_Qlt. lra.
Qed.

Lemma loop_test_false (i : Z) (c : Q) :
  Qltb (inject_Z i) c = false -> (Qceiling c <= i)%Z.
Proof.
  rewrite Qltb_ge. intros Hle.
  rewrite <- (Qceiling_Z i). by apply Qceiling_resp_le.
Qed.

(** The pool only grows at its end, and what is added does not depend on
    what was there. *)
Lemma spawnLoop_app fuel i x y plan pool k :
  spawnLoop fuel i x y plan pool k =
    (pool ++ (spawnLoop fuel i x y plan [] k).1,
     (spawnLoop fuel i x y plan [] k).2).
Proof.
  revert i pool k. induction fuel as [|fuel IH]; intros i pool k.
  - cbn. by rewrite app_nil_r.
  - rewrite !spawnLoop_S. destruct (Qltb _ _).
    + rewrite IH. rewrite (IH _ ([] ++ _)). cbn [fst snd].
      by rewrite <- app_assoc.
    + cbn. by rewrite app_nil_r.
Qed.

(** The loop runs until its condition fails: the number of particles
    pushed is the number of integers [j] with [i <= j < particleCount]. *)
Lemma spawnLoop_length fuel i x y plan pool k :
  (Qceiling (plan_particleCount plan) - i <= Z.of_nat fuel)%Z ->
  length (spawnLoop fuel i x y plan pool k).1 =
    (length pool + Z.to_nat (Qceiling (plan_particleCount plan) - i))%nat.
Proof.
  revert i pool k. induction fuel as [|fuel IH]; intros i pool k Hfuel.
  - cbn [spawnLoop]. cbn. lia.
  - rewrite spawnLoop_S.
    destruct (Qltb _ _) eqn:Htest.
    + apply loop_test_true in Htest.
      rewrite IH by lia. rewrite length_app. cbn [length]. lia.
    + apply loop_test_false in Htest. cbn [fst]. lia.
Qed.

(** More fuel than [spawnAll] passes changes nothing. *)
Lemma spawnLoop_fuel fuel extra i x y plan pool k :
  (Qceiling (plan_particleCount plan) - i <= Z.of_nat fuel)%Z ->
  spawnLoop (fuel + extra) i x y plan pool k = spawnLoop fuel i x y plan pool k.
Proof.
  revert i pool k. induction fuel as [|fuel IH]; intros i pool k Hfuel.
  - destruct extra as [|extra]; [reflexivity|].
    cbn [Nat.add]. rewrite spawnLoop_S.
    destruct (Qltb _ _) eqn:Htest; [|reflexivity].
    apply loop_test_true in Htest. lia.
  - cbn [Nat.add]. rewrite !spawnLoop_S.
    destruct (Qltb _ _) eqn:Htest; [|reflexivity].
    apply IH. lia.
Qed.

(** A property every freshly rolled particle has holds of the whole
    batch. *)
Lemma spawnLoop_Forall (P : Particle.t -> Prop) fuel i x y plan pool k :
  (forall k', P (spawnParticle x y plan k').1) ->
  Forall P pool ->
  Forall P (spawnLoop fuel i x y plan pool k).1.
Proof.
  intros Hnew. revert i pool k.
  induction fuel as [|fuel IH]; intros i pool k Hpool; [done|].
  rewrite spawnLoop_S. destruct (Qltb _ _); [|done].
  apply IH. apply Forall_app. split; [done|]. by apply Forall_singleton.
Qed.

Lemma spawnAll_length x y plan pool k :
  length (spawnAll x y plan pool k).1 =
    (length pool + Z.to_nat (Qceiling (plan_particleCount plan)))%nat.
Proof.
  unfold spawnAll. rewrite spawnLoop_length by lia.
  by rewrite Z.sub_0_r.
Qed.

(** Reduces reads of fields of a world that was just written. *)
Ltac world_simpl :=
  cbn [canvas audio particles handState prevHandState handPos
       lastTriggerTime grandFinale cursor explosionCues triggerLog
       set_canvas set_particles set_handState set_prevHandState
       set_handPos set_lastTriggerTime set_grandFinale set_cursor
       set_explosionCues set_triggerLog active lastSpawn
       lane_get lane_set atLeft atRight fst snd] in *.

(** ** What one call of [triggerFirework] does *)

Lemma triggerFirework_rejected who x y w :
  (MAX_PARTICLES < length (particles w))%nat ->
  triggerFirework who x y w =
    set_triggerLog (triggerLog w ++ [mkCall who x y]) w.
Proof.
  intros Hfull. unfold triggerFirework. cbn [canvas set_triggerLog particles].
  apply Nat.ltb_lt in Hfull. rewrite Hfull. by destruct (canvas w).
Qed.

Lemma triggerFirework_no_canvas who x y w :
  canvas w = None ->
  triggerFirework who x y w =
    set_triggerLog (triggerLog w ++ [mkCall who x y]) w.
Proof.
  intros Hc. unfold triggerFirework. cbn [canvas set_triggerLog]. by rewrite Hc.
Qed.

Lemma triggerFirework_accepted who x y w c :
  canvas w = Some c ->
  (length (particles w) <= MAX_PARTICLES)%nat ->
  triggerFirework who x y w =
    let batch := spawnAll x y (planOf w) [] (planExplosion (cursor w)).2 in
    mkWorld (canvas w) (audio w) (particles w ++ batch.1)
      (handState w) (prevHandState w) (handPos w) (lastTriggerTime w)
      (grandFinale w) batch.2
      (if audio w then S (explosionCues w) else explosionCues w)
      (triggerLog w ++ [mkCall who x y]).
Proof.
  intros Hc Hroom. unfold triggerFirework, planOf.
  cbn [canvas set_triggerLog particles]. rewrite Hc.
  apply Nat.ltb_ge in Hroom. rewrite Hroom.
  destruct w as [cv au ps hs phs hp lt gf cu ec tl].
  destruct au; world_simpl;
    destruct (planExplosion cu) as [plan k1]; cbn [fst snd];
    unfold spawnAll; rewrite spawnLoop_app; by subst cv.
Qed.

Lemma appended_accepted who x y w c :
  canvas w = Some c ->
  (length (particles w) <= MAX_PARTICLES)%nat ->
  particles (triggerFirework who x y w) = particles w ++ appended who x y w
  /\ appended who x y w =
       (spawnAll x y (planOf w) [] (planExplosion (cursor w)).2).1.
Proof.
  intros Hc Hroom. unfold appended.
  rewrite (triggerFirework_accepted _ _ _ _ _ Hc Hroom). cbn [particles].
  by rewrite drop_app_length.
Qed.

(** Brings the range of every random value of the goal into the
    context. *)
Ltac random_bounds :=
  repeat match goal with
    | |- context [random ?n] =>
        lazymatch goal with
        | _ : 0 <= random n < 1 |- _ => fail
        | _ => pose proof (random_range n)
        end
    end.

Ltac particle_simpl :=
  cbn [Particle.x Particle.y Particle.vx Particle.vy Particle.hue
       Particle.lightness Particle.alpha Particle.decay Particle.friction
       Particle.gravity Particle.size Particle.set_decay
       Particle.set_gravity fst snd].

(** What every particle of every style has when it enters the pool. *)
Lemma spawnParticle_common x y plan k :
  let p := (spawnParticle x y plan k).1 in
  Particle.x p = x /\ Particle.y p = y
  /\ Particle.alpha p = 1 /\ Particle.friction p = 0.98
  /\ 0.008 <= Particle.decay p < 0.025
  /\ (Particle.gravity p = 0.04 \/ Particle.gravity p = 0.08)
  /\ plan_baseSize plan <= Particle.size p < plan_baseSize plan + 2.
Proof using random_range.
  run_rand. destruct plan as [pal style r cnt pow base].
  destruct style; run_rand;
    repeat match goal with
      | |- context [if Qltb ?a ?b then _ else _] => destruct (Qltb a b)
      end;
    run_rand; particle_simpl; random_bounds;
    repeat split; try reflexivity; try lra; auto.
Qed.

Lemma spawnParticle_fresh x y plan k : fresh (spawnParticle x y plan k).1.
Proof using random_range.
  destruct (spawnParticle_common x y plan k) as (_ & _ & Ha & _ & Hd & _).
  by split.
Qed.

(** ** C6: the size class decides count, power and base radius *)

Lemma planExplosion_cases (k : nat) :
  let plan := (planExplosion k).1 in
  let r := plan_sizeClass plan in
  r = random (k + 2)
  /\ (r < 0.3 ->
      drawnWithin 70 110 (random (k + 3)) (plan_particleCount plan)
      /\ drawnWithin 5 8 (random (k + 4)) (plan_explosionPower plan)
      /\ drawnWithin 3.5 5 (random (k + 5)) (plan_baseSize plan))
  /\ (0.3 <= r < 0.7 ->
      drawnWithin 120 180 (random (k + 3)) (plan_particleCount plan)
      /\ drawnWithin 8 11 (random (k + 4)) (plan_explosionPower plan)
      /\ drawnWithin 4.5 6 (random (k + 5)) (plan_baseSize plan))
  /\ (0.7 <= r ->
      drawnWithin 200 300 (random (k + 3)) (plan_particleCount plan)
      /\ drawnWithin 10 14 (random (k + 4)) (plan_explosionPower plan)
      /\ drawnWithin 5.5 7.5 (random (k + 5)) (plan_baseSize plan)).
Proof using random_range.
  replace (k + 2)%nat with (S (S k)) by lia.
  replace (k + 3)%nat with (S (S (S k))) by lia.
  replace (k + 4)%nat with (S (S (S (S k)))) by lia.
  replace (k + 5)%nat with (S (S (S (S (S k))))) by lia.
  unfold drawnWithin. run_rand.
  destruct (Qltb (random (S (S k))) 0.3) eqn:Hsmall;
    [apply Qltb_lt in Hsmall | apply Qltb_ge in Hsmall;
     destruct (Qltb (random (S (S k))) 0.7) eqn:Hmedium;
     [apply Qltb_lt in Hmedium | apply Qltb_ge in Hmedium]];
    run_rand; random_bounds;
    (split; [reflexivity|]);
    repeat split; intros; try reflexivity; lra.
Qed.

Lemma planExplosion_ranges (k : nat) :
  let plan := (planExplosion k).1 in
  70 <= plan_particleCount plan < 300
  /\ 5 <= plan_explosionPower plan < 14
  /\ 3.5 <= plan_baseSize plan < 7.5.
Proof using random_range.
  cbv zeta. pose proof (planExplosion_cases k) as (Hr & Hs & Hm & Hl).
  cbv zeta in *. unfold drawnWithin in *.
  pose proof (random_range (k + 2)) as Hrange. rewrite <- Hr in Hrange.
  destruct (Qlt_le_dec (plan_sizeClass (planExplosion k).1) 0.3) as [H3|H3];
    [specialize (Hs H3); lra|].
  destruct (Qlt_le_dec (plan_sizeClass (planExplosion k).1) 0.7) as [H7|H7];
    [specialize (Hm (conj H3 H7)); lra|].
  specialize (Hl H7). lra.
Qed.

Lemma batch_length_bounds (c : Q) :
  70 <= c < 300 -> (70 <= Z.to_nat (Qceiling c) <= 300)%nat.
Proof.
  intros [Hlo Hhi].
  assert (70 <= Qceiling c)%Z.
  { rewrite <- (Qceiling_Z 70). by apply Qceiling_resp_le. }
  assert (Qceiling c <= 300)%Z.
  { rewrite <- (Qceiling_Z 300). apply Qceiling_resp_le.
    unfold inject_Z. lra. }
  lia.
Qed.

(** C6.  An accepted explosion rolls its size class [r] in [[0,1)] and
    then its three parameters, each from a draw of its own: for [r < 0.3]
    the count in [[70,110)], the power in [[5,8)] and the base radius in
    [[3.5,5)]; for [0.3 <= r < 0.7] in [[120,180)], [[8,11)] and
    [[4.5,6)]; for [0.7 <= r] in [[200,300)], [[10,14)] and [[5.5,7.5)].
    The loop then pushes one particle for every integer below the count,
    and every particle gets the base radius plus less than 2 as size. *)
Theorem size_class_decides_batch_parameters who x y w c :
  canvas w = Some c ->
  (length (particles w) <= MAX_PARTICLES)%nat ->
  let plan := planOf w in
  let r := plan_sizeClass plan in
  let k := cursor w in
  (r = random (k + 2) /\ 0 <= r < 1)
  /\ (r < 0.3 ->
      drawnWithin 70 110 (random (k + 3)) (plan_particleCount plan)
      /\ drawnWithin 5 8 (random (k + 4)) (plan_explosionPower plan)
      /\ drawnWithin 3.5 5 (random (k + 5)) (plan_baseSize plan))
  /\ (0.3 <= r < 0.7 ->
      drawnWithin 120 180 (random (k + 3)) (plan_particleCount plan)
      /\ drawnWithin 8 11 (random (k + 4)) (plan_explosionPower plan)
      /\ drawnWithin 4.5 6 (random (k + 5)) (plan_baseSize plan))
  /\ (0.7 <= r ->
      drawnWithin 200 300 (random (k + 3)) (plan_particleCount plan)
      /\ drawnWithin 10 14 (random (k + 4)) (plan_explosionPower plan)
      /\ drawnWithin 5.5 7.5 (random (k + 5)) (plan_baseSize plan))
  /\ length (appended who x y w) =
       Z.to_nat (Qceiling (plan_particleCount plan))
  /\ Forall (fun p => plan_baseSize plan <= Particle.size p
                      /\ Particle.size p < plan_baseSize plan + 2)
       (appended who x y w).
Proof using random_range.
  intros Hc Hroom. cbv zeta.
  pose proof (planExplosion_cases (cursor w)) as (Hr & Hs & Hm & Hl).
  cbv zeta in *. fold (planOf w) in *.
  destruct (appended_accepted who x y w c Hc Hroom) as [_ Hbatch].
  split; [split; [exact Hr | rewrite Hr; apply random_range]|].
  do 3 (split; [assumption|]).
  rewrite Hbatch. split.
  - by rewrite spawnAll_length.
  - unfold spawnAll. apply spawnLoop_Forall; [|constructor].
    intros k'. apply (spawnParticle_common x y (planOf w) k').
Qed.

(** ** C7 and C8: what the style does to the particles *)

Lemma spawnParticle_ring x y plan k :
  plan_style plan = ring ->
  0 <= plan_explosionPower plan ->
  let p := (spawnParticle x y plan k).1 in
  exists angle speed : Q,
    Particle.vx p = cos angle * speed
    /\ Particle.vy p = sin angle * speed
    /\ plan_explosionPower plan * 0.85 <= speed
    /\ speed <= plan_explosionPower plan * 1.15
    /\ 0.015 <= Particle.decay p <= 0.025.
Proof using random_range.
  destruct plan as [pal style r cnt pow base]. cbn [plan_style plan_explosionPower].
  intros -> Hpow. run_rand. particle_simpl.
  eexists _, _. split; [reflexivity|]. split; [reflexivity|].
  random_bounds.
  match goal with
  | |- context [0.85 + random ?n * 0.3] =>
      assert (0 <= pow * (random n * 0.3))
        by (apply Qmult_le_0_compat; lra);
      assert (pow * (random n * 0.3) <= pow * 0.3)
        by (apply Qmult_le_compat_nonneg; split; lra)
  end.
  repeat split; lra.
Qed.

(** C7.  In a ring-style batch every particle's velocity is a direction
    [(cos a, sin a)] times a speed between 0.85 and 1.15 times the rolled
    explosion power, and its decay lies in [[0.015, 0.025]]. *)
Theorem ring_batch_speed_and_decay who x y w c :
  canvas w = Some c ->
  (length (particles w) <= MAX_PARTICLES)%nat ->
  plan_style (planOf w) = ring ->
  Forall (fun p =>
            exists angle speed : Q,
              Particle.vx p = cos angle * speed
              /\ Particle.vy p = sin angle * speed
              /\ plan_explosionPower (planOf w) * 0.85 <= speed
              /\ speed <= plan_explosionPower (planOf w) * 1.15
              /\ 0.015 <= Particle.decay p <= 0.025)
    (appended who x y w).
Proof using random_range.
  intros Hc Hroom Hring.
  destruct (appended_accepted who x y w c Hc Hroom) as [_ ->].
  unfold spawnAll. apply spawnLoop_Forall; [|constructor].
  intros k'. apply (spawnParticle_ring x y (planOf w) k' Hring).
  pose proof (planExplosion_ranges (cursor w)) as (_ & Hpow & _).
  cbv zeta in Hpow. fold (planOf w) in Hpow. lra.
Qed.

Lemma spawnParticle_circle x y plan k :
  plan_style plan = circle ->
  let p := (spawnParticle x y plan k).1 in
  let paletteHue := inject_Z (palette_hue (plan_palette plan)) in
  (exists rolled extra : Q,
      45 <= rolled < 55 /\ 0 <= extra < 10
      /\ Particle.lightness p = rolled + extra)
  /\ 45 <= Particle.lightness p < 65
  /\ paletteHue - 15 <= Particle.hue p <= paletteHue + 15
  /\ 0.01 <= Particle.decay p <= 0.02
  /\ Particle.gravity p = 0.04.
Proof using random_range.
  destruct plan as [pal style r cnt pow base]. cbn [plan_style plan_palette].
  intros ->. run_rand. particle_simpl. random_bounds.
  split; [eexists _, _; split; [|split; [|reflexivity]]; lra|].
  repeat split; try reflexivity; lra.
Qed.

(** C8, as amended.  In a circle-style batch the composer rolls the
    lightness in [[45,55)] and the constructor adds a further value in
    [[0,10)], so that the particle's lightness lies in [[45,65)]; the hue
    is within 15 degrees of the palette hue, the decay lies in
    [[0.01,0.02]] and the gravity is 0.04. *)
Theorem circle_batch_colour_decay_gravity who x y w c :
  canvas w = Some c ->
  (length (particles w) <= MAX_PARTICLES)%nat ->
  plan_style (planOf w) = circle ->
  Forall (fun p =>
            (exists rolled extra : Q,
                45 <= rolled < 55 /\ 0 <= extra < 10
                /\ Particle.lightness p = rolled + extra)
            /\ 45 <= Particle.lightness p < 65
            /\ inject_Z (palette_hue (plan_palette (planOf w))) - 15
                 <= Particle.hue p
                 <= inject_Z (palette_hue (plan_palette (planOf w))) + 15
            /\ 0.01 <= Particle.decay p <= 0.02
            /\ Particle.gravity p = 0.04)
    (appended who x y w).
Proof using random_range.
  intros Hc Hroom Hcircle.
  destruct (appended_accepted who x y w c Hc Hroom) as [_ ->].
  unfold spawnAll. apply spawnLoop_Forall; [|constructor].
  intros k'. apply (spawnParticle_circle x y (planOf w) k' Hcircle).
Qed.

(** ** The batch of an accepted request *)

Lemma accepted_batch_fresh who x y w c :
  canvas w = Some c ->
  (length (particles w) <= MAX_PARTICLES)%nat ->
  particles (triggerFirework who x y w) = particles w ++ appended who x y w
  /\ (length (appended who x y w) <= 300)%nat
  /\ Forall fresh (appended who x y w).
Proof using random_range.
  intros Hc Hroom.
  destruct (appended_accepted who x y w c Hc Hroom) as [Hpool Hbatch].
  split; [exact Hpool|]. rewrite Hbatch. split.
  - rewrite spawnAll_length. cbn [length Nat.add].
    apply batch_length_bounds. apply (planExplosion_ranges (cursor w)).
  - unfold spawnAll. apply spawnLoop_Forall; [|constructor].
    intros k'. apply spawnParticle_fresh.
Qed.

(** ** Frame conditions of [triggerFirework] *)

Lemma handsKept_refl w : handsKept w w.
Proof. by repeat split. Qed.

Lemma handsKept_trans w1 w2 w3 :
  handsKept w1 w2 -> handsKept w2 w3 -> handsKept w1 w3.
Proof.
  unfold handsKept. intros (?&?&?&?&?&?&?) (?&?&?&?&?&?&?).
  repeat split; congruence.
Qed.

Lemma poolGrows_refl w : poolGrows w w.
Proof.
  split; [|done]. exists []. by rewrite app_nil_r.
Qed.

Lemma poolGrows_same w w' : particles w' = particles w -> poolGrows w w'.
Proof.
  intros E. split; [|by rewrite E]. exists []. by rewrite app_nil_r.
Qed.

Lemma poolGrows_trans w1 w2 w3 :
  poolGrows w1 w2 -> poolGrows w2 w3 -> poolGrows w1 w3.
Proof.
  intros [(b1 & E1 & F1) C1] [(b2 & E2 & F2) C2]. split; [|auto].
  exists (b1 ++ b2). rewrite E2, E1, <- app_assoc. split; [done|].
  by apply Forall_app.
Qed.

Lemma finaleCallsOnly_refl w : finaleCallsOnly w w.
Proof. exists []. by rewrite app_nil_r. Qed.

Lemma finaleCallsOnly_trans w1 w2 w3 :
  finaleCallsOnly w1 w2 -> finaleCallsOnly w2 w3 -> finaleCallsOnly w1 w3.
Proof.
  intros (l1 & E1 & F1) (l2 & E2 & F2).
  exists (l1 ++ l2). rewrite E2, E1, <- app_assoc. split; [done|].
  by apply Forall_app.
Qed.

Lemma triggerFirework_cases who x y w :
  triggerFirework who x y w =
    set_triggerLog (triggerLog w ++ [mkCall who x y]) w
  \/ exists c, canvas w = Some c
               /\ (length (particles w) <= MAX_PARTICLES)%nat.
Proof.
  destruct (canvas w) as [c|] eqn:Hc.
  - destruct (decide (length (particles w) <= MAX_PARTICLES)%nat).
    + right. by exists c.
    + left. apply triggerFirework_rejected. lia.
  - left. by apply triggerFirework_no_canvas.
Qed.

Lemma triggerFirework_handsKept who x y w :
  handsKept w (triggerFirework who x y w).
Proof.
  destruct (triggerFirework_cases who x y w) as [->|(c & Hc & Hroom)].
  - by repeat split.
  - rewrite (triggerFirework_accepted _ _ _ _ _ Hc Hroom). by repeat split.
Qed.

Lemma triggerFirework_log who x y w :
  triggerLog (triggerFirework who x y w) = triggerLog w ++ [mkCall who x y].
Proof.
  destruct (triggerFirework_cases who x y w) as [->|(c & Hc & Hroom)].
  - reflexivity.
  - by rewrite (triggerFirework_accepted _ _ _ _ _ Hc Hroom).
Qed.

Lemma triggerFirework_poolGrows who x y w :
  poolGrows w (triggerFirework who x y w).
Proof using random_range.
  destruct (triggerFirework_cases who x y w) as [->|(c & Hc & Hroom)].
  - apply (poolGrows_refl w).
  - destruct (accepted_batch_fresh who x y w c Hc Hroom)
      as (Hpool & Hlen & Hfresh).
    split.
    + by exists (appended who x y w).
    + intros _. rewrite Hpool, length_app. unfold MAX_PARTICLES in Hroom. lia.
Qed.

(** ** The finale choreography *)

(** Any relation between worlds that composes and that a finale call of
    [triggerFirework] and a call of [Math.random()] establish holds across
    each of the six patterns. *)
Section Chain.

Variable R : World -> World -> Prop.
Hypothesis R_refl : forall w, R w w.
Hypothesis R_trans : forall w1 w2 w3, R w1 w2 -> R w2 w3 -> R w1 w3.
Hypothesis R_trigger : forall x y w, R w (triggerFirework None x y w).
Hypothesis R_random : forall w, R w (nextRandom w).2.

(** Splits a chain of calls at its last call. *)
Ltac chain :=
  repeat first
    [ apply R_refl
    | apply R_random
    | eapply R_trans; [|apply R_trigger]
    | eapply R_trans; [|apply R_random] ].

(** Names the world after a call of [Math.random()]. *)
Ltac draw_random w :=
  change (nextRandom w) with (random (cursor w), (nextRandom w).2);
  cbv beta iota zeta.

Lemma patternSides_chain W H w : R w (patternSides W H w).
Proof using R_random R_trans R_trigger. unfold patternSides. draw_random w. chain. Qed.

Lemma patternCascade_chain W H w : R w (patternCascade W H w).
Proof using R_random R_trans R_trigger.
  unfold patternCascade. draw_random w.
  set (w1 := (nextRandom w).2). draw_random w1. subst w1. chain.
Qed.

Lemma patternCross_chain W H w : R w (patternCross W H w).
Proof using R_refl R_trans R_trigger. unfold patternCross. cbv zeta. chain. Qed.

Lemma foldl_chain {A : Type} (body : World -> A -> World) (l : list A) w :
  (forall w a, R w (body w a)) -> R w (foldl body w l).
Proof using R_refl R_trans.
  intros Hbody. revert w. induction l as [|a l IH]; intros w.
  - apply R_refl.
  - cbn [foldl]. eapply R_trans; [apply Hbody | apply IH].
Qed.

Lemma patternWave_chain W H w : R w (patternWave W H w).
Proof using R_random R_refl R_trans R_trigger.
  unfold patternWave. apply foldl_chain. clear w. intros w _.
  draw_random w. set (w1 := (nextRandom w).2). draw_random w1.
  subst w1. chain.
Qed.

Lemma patternCircle_chain W H w : R w (patternCircle W H w).
Proof using R_refl R_trans R_trigger.
  unfold patternCircle. cbv zeta. apply foldl_chain. clear w.
  intros w i. apply R_trigger.
Qed.

Lemma patternChaos_chain W H w : R w (patternChaos W H w).
Proof using R_random R_refl R_trans R_trigger.
  unfold patternChaos. apply foldl_chain. clear w. intros w _.
  draw_random w. set (w1 := (nextRandom w).2). draw_random w1.
  subst w1. chain.
Qed.

Lemma choreography_chain phase W H w : R w (choreography phase W H w).
Proof using R_random R_refl R_trans R_trigger.
  unfold choreography.
  repeat match goal with
    | |- context [if ?b then _ else _] => destruct b
    end;
    auto using patternSides_chain, patternWave_chain,
      patternCascade_chain, patternCross_chain, patternCircle_chain,
      patternChaos_chain.
Qed.

End Chain.

Lemma finaleStep_refl w : finaleStep w w.
Proof. split; [apply handsKept_refl | apply finaleCallsOnly_refl]. Qed.

Lemma finaleStep_trans w1 w2 w3 :
  finaleStep w1 w2 -> finaleStep w2 w3 -> finaleStep w1 w3.
Proof.
  intros (H1 & L1) (H2 & L2).
  split; [by eapply handsKept_trans | by eapply finaleCallsOnly_trans].
Qed.

Lemma finaleStep_trigger x y w : finaleStep w (triggerFirework None x y w).
Proof.
  split; [apply triggerFirework_handsKept|].
  exists [mkCall None x y]. split; [apply triggerFirework_log|].
  by apply Forall_singleton.
Qed.

Lemma finaleStep_random w : finaleStep w (nextRandom w).2.
Proof.
  unfold nextRandom. cbn [snd].
  split; [by repeat split | apply (finaleCallsOnly_refl w)].
Qed.

Lemma choreography_step phase W H w : finaleStep w (choreography phase W H w).
Proof.
  apply choreography_chain.
  - apply finaleStep_refl.
  - apply finaleStep_trans.
  - apply finaleStep_trigger.
  - apply finaleStep_random.
Qed.

Lemma choreography_poolGrows phase W H w :
  poolGrows w (choreography phase W H w).
Proof using random_range.
  apply choreography_chain.
  - apply poolGrows_refl.
  - apply poolGrows_trans.
  - intros x y w0. apply triggerFirework_poolGrows.
  - intros w0. by apply poolGrows_same.
Qed.

(** The finale block sets the active flag to the condition it is given;
    it touches nothing else of the hands, and outside the finale it does
    nothing more. *)
Lemma finaleBlock_spec now c both w :
  let w' := finaleBlock now c both w in
  active (grandFinale w') = both
  /\ canvas w' = canvas w /\ handState w' = handState w
  /\ prevHandState w' = prevHandState w /\ handPos w' = handPos w
  /\ lastTriggerTime w' = lastTriggerTime w
  /\ finaleCallsOnly w w'
  /\ (both = false ->
      particles w' = particles w /\ triggerLog w' = triggerLog w
      /\ cursor w' = cursor w).
Proof.
  cbv zeta. unfold finaleBlock.
  set (w1 := set_grandFinale _ w).
  pose proof (choreography_step (Z.rem (now / 400) 6)
                (inject_Z (width c)) (inject_Z (height c)) w1) as Hstep.
  destruct both; cbn [andb].
  - destruct (15 <? now - lastSpawn (grandFinale w1))%Z.
    + cbv zeta.
      destruct Hstep as ((Hcv & Hau & Hhs & Hps & Hpos & Hlt & Hgf) & Hlog).
      world_simpl. rewrite Hgf. subst w1. world_simpl.
      split_and!; done.
    + subst w1. world_simpl. split_and!; try done.
      apply (finaleCallsOnly_refl w).
  - subst w1. world_simpl. split_and!; try done.
    apply (finaleCallsOnly_refl w).
Qed.

Lemma finaleBlock_poolGrows now c both w :
  poolGrows w (finaleBlock now c both w).
Proof using random_range.
  unfold finaleBlock. cbv zeta.
  set (w1 := set_grandFinale _ w).
  assert (poolGrows w w1) as H1 by (by apply poolGrows_same).
  destruct (both && _); [|done].
  eapply poolGrows_trans; [exact H1|].
  eapply poolGrows_trans; [apply choreography_poolGrows|].
  by apply poolGrows_same.
Qed.

(** ** The normal trigger of one lane *)

(** The test of the source is the rising-edge condition. *)
Lemma edge_test now w hand :
  bool_decide (lane_get hand (handState w) = OPEN)
  && negb (bool_decide (lane_get hand (prevHandState w) = OPEN))
  && (250 <? now - lane_get hand (lastTriggerTime w))%Z = true
  <-> risingEdge now w hand.
Proof.
  unfold risingEdge.
  rewrite !andb_true_iff, negb_true_iff, bool_decide_eq_true,
    bool_decide_eq_false, Z.ltb_lt.
  split; [intros [[? ?] ?] | intros (? & ? & ?)]; split_and!; done.
Qed.

Lemma laneBody_spec now c both w hand :
  let w' := laneBody now c both w hand in
  canvas w' = canvas w /\ handState w' = handState w
  /\ handPos w' = handPos w /\ grandFinale w' = grandFinale w
  /\ prevHandState w' =
       lane_set hand (lane_get hand (handState w)) (prevHandState w)
  /\ (both = false -> risingEdge now w hand ->
      triggerLog w' = triggerLog w ++ [mirroredCall c w hand]
      /\ lastTriggerTime w' = lane_set hand now (lastTriggerTime w))
  /\ (both = true \/ ~ risingEdge now w hand ->
      triggerLog w' = triggerLog w
      /\ lastTriggerTime w' = lastTriggerTime w
      /\ particles w' = particles w /\ cursor w' = cursor w).
Proof.
  cbv zeta. unfold laneBody. cbv zeta.
  destruct (bool_decide (lane_get hand (handState w) = OPEN)
            && negb (bool_decide (lane_get hand (prevHandState w) = OPEN))
            && (250 <? now - lane_get hand (lastTriggerTime w))%Z) eqn:Htest.
  - apply edge_test in Htest. destruct both; cbn [negb].
    + world_simpl. split_and!; done.
    + pose proof (triggerFirework_handsKept (Some hand)
                    ((1 - Point.x (lane_get hand (handPos w))) * inject_Z (width c))
                    (Point.y (lane_get hand (handPos w)) * inject_Z (height c)) w)
        as (Hcv & Hau & Hhs & Hps & Hpos & Hlt & Hgf).
      world_simpl. rewrite ?Hcv, ?Hhs, ?Hps, ?Hpos, ?Hlt, ?Hgf.
      split_and!; try done.
      * intros _ _. by rewrite triggerFirework_log.
      * intros [|Hno]; done.
  - assert (~ risingEdge now w hand) as Hno.
    { rewrite <- edge_test, Htest. done. }
    destruct both; cbn [negb]; world_simpl; split_and!; done.
Qed.

Lemma laneBody_poolGrows now c both w hand :
  poolGrows w (laneBody now c both w hand).
Proof using random_range.
  unfold laneBody. cbv zeta.
  match goal with
  | |- poolGrows _ (set_prevHandState _ ?inner) =>
      apply (poolGrows_trans w inner); [|by apply poolGrows_same]
  end.
  destruct (negb both); [|apply poolGrows_refl].
  destruct (_ && _); [|apply poolGrows_refl].
  eapply poolGrows_trans; [apply triggerFirework_poolGrows|].
  by apply poolGrows_same.
Qed.

(** ** The particle pass *)

(** The in-place compaction leaves, in the first [writeIdx] slots, the
    updated particles that are not dead, in their order. *)
Lemma cullLoop_spec (arr0 : list Particle.t) fuel i writeIdx arr :
  length arr = length arr0 ->
  (writeIdx <= i <= length arr0)%nat ->
  (length arr0 - i <= fuel)%nat ->
  take writeIdx arr = filter alive (Particle.update <$> take i arr0) ->
  drop i arr = drop i arr0 ->
  take (cullLoop fuel i writeIdx arr).1 (cullLoop fuel i writeIdx arr).2
  = filter alive (Particle.update <$> arr0).
Proof.
  revert i writeIdx arr.
  induction fuel as [|fuel IH]; intros i wi arr Hlen Hidx Hfuel Htake Hdrop.
  - cbn [cullLoop fst snd]. rewrite Htake.
    rewrite take_ge by lia. done.
  - cbn [cullLoop].
    destruct (arr !! i) as [p|] eqn:Hp.
    + assert (i < length arr0)%nat as Hi.
      { apply lookup_lt_Some in Hp. lia. }
      assert (arr0 !! i = Some p) as Hp0.
      { rewrite <- (Nat.add_0_r i), <- lookup_drop, <- Hdrop, lookup_drop.
        by rewrite Nat.add_0_r. }
      assert (take (S i) arr0 = take i arr0 ++ [p]) as Hnext
        by (by apply take_S_r).
      cbv zeta.
      destruct (Particle.isDead (Particle.update p)) eqn:Hdead; cbn [negb].
      * apply IH.
        -- by rewrite length_insert.
        -- lia.
        -- lia.
        -- rewrite take_insert_ge by lia. rewrite Htake, Hnext.
           rewrite fmap_app, filter_app. cbn [fmap list_fmap].
           rewrite (filter_cons_False alive); [|unfold alive; congruence].
           by rewrite filter_nil, app_nil_r.
        -- rewrite drop_insert_lt by lia.
           replace (S i) with (i + 1)%nat by lia.
           rewrite <- !drop_drop. by rewrite Hdrop.
      * apply IH.
        -- by rewrite !length_insert.
        -- lia.
        -- lia.
        -- rewrite (take_S_r _ _ (Particle.update p)).
           ++ rewrite !take_insert_ge by lia. rewrite Htake, Hnext.
              rewrite fmap_app, filter_app. cbn [fmap list_fmap].
              rewrite (filter_cons_True alive); [|done].
              by rewrite filter_nil.
           ++ apply list_lookup_insert_eq. rewrite length_insert. lia.
        -- rewrite !drop_insert_lt by lia.
           replace (S i) with (i + 1)%nat by lia.
           rewrite <- !drop_drop. by rewrite Hdrop.
    + cbn [fst snd]. apply lookup_ge_None in Hp.
      rewrite Htake. rewrite take_ge by lia. done.
Qed.

Lemma integrate_particles w :
  particles (integrate w) =
    filter alive (Particle.update <$> particles w).
Proof.
  unfold integrate.
  pose proof (cullLoop_spec (particles w) (length (particles w)) 0 0
                (particles w)) as Hspec.
  destruct (cullLoop _ _ _ _) as [writeIdx arr]. world_simpl.
  apply Hspec; try done; lia.
Qed.

Lemma integrate_rest w :
  integrate w = set_particles (particles (integrate w)) w.
Proof.
  unfold integrate. by destruct (cullLoop _ _ _ _).
Qed.

(** ** One frame *)

Lemma bothOpen_test w :
  bool_decide (lane_get Left (handState w) = OPEN)
  && bool_decide (lane_get Right (handState w) = OPEN) = true
  <-> bothOpen w.
Proof.
  unfold bothOpen. by rewrite andb_true_iff, !bool_decide_eq_true.
Qed.

Lemma perLane_eta {A : Type} (o o' : PerLane A) :
  lane_set Right (lane_get Right o) (lane_set Left (lane_get Left o) o') = o.
Proof. by destruct o. Qed.

Lemma perLane_ext {A : Type} (o o' : PerLane A) :
  (forall hand, lane_get hand o = lane_get hand o') -> o = o'.
Proof.
  intros H. pose proof (H Left). pose proof (H Right).
  destruct o, o'. cbn in *. congruence.
Qed.

Lemma lane_get_set {A : Type} (hand hand' : Lane) (v : A) (o : PerLane A) :
  lane_get hand' (lane_set hand v o) =
    if decide (hand' = hand) then v else lane_get hand' o.
Proof. by destruct hand, hand', o. Qed.

Lemma draw_mounted now w c :
  canvas w = Some c -> has2d c = true ->
  draw now w = integrate (inputLogic now c w).
Proof. intros Hc H2d. unfold draw. by rewrite Hc, H2d. Qed.

Lemma inputLogic_poolGrows now c w : poolGrows w (inputLogic now c w).
Proof using random_range.
  unfold inputLogic. cbv zeta. cbn [foldl].
  eapply poolGrows_trans; [|apply laneBody_poolGrows].
  eapply poolGrows_trans; [|apply laneBody_poolGrows].
  apply finaleBlock_poolGrows.
Qed.

(** What the two lanes and the finale block leave of a frame, in either
    mode: the previous-state slots hold the states of this frame. *)
Lemma inputLogic_hands now c w :
  let w' := inputLogic now c w in
  canvas w' = canvas w /\ handState w' = handState w
  /\ handPos w' = handPos w /\ prevHandState w' = handState w
  /\ (active (grandFinale w') = true <-> bothOpen w).
Proof.
  cbv zeta. unfold inputLogic. cbv zeta. cbn [foldl].
  set (both := bool_decide _ && bool_decide _).
  pose proof (finaleBlock_spec now c both w) as
    (Ha & Hcv & Hhs & Hps & Hpos & Hlt & _). cbv zeta in *.
  set (w1 := finaleBlock now c both w) in *.
  pose proof (laneBody_spec now c both w1 Left) as
    (Hcv1 & Hhs1 & Hpos1 & Hgf1 & Hps1 & _). cbv zeta in *.
  set (w2 := laneBody now c both w1 Left) in *.
  pose proof (laneBody_spec now c both w2 Right) as
    (Hcv2 & Hhs2 & Hpos2 & Hgf2 & Hps2 & _). cbv zeta in *.
  split_and!; try congruence.
  - rewrite Hps2, Hps1, Hhs1, Hhs. apply perLane_eta.
  - rewrite Hgf2, Hgf1, Ha. apply bothOpen_test.
Qed.

(** In a normal frame the calls are those of the lanes on a rising edge,
    Left before Right, and their timestamps are set. *)
Lemma inputLogic_normal now c w :
  ~ bothOpen w ->
  let w' := inputLogic now c w in
  triggerLog w' =
    triggerLog w ++ (mirroredCall c w <$> filter (risingEdge now w) [Left; Right])
  /\ forall hand,
       lane_get hand (lastTriggerTime w') =
         if decide (risingEdge now w hand) then now
         else lane_get hand (lastTriggerTime w).
Proof.
  intros Hnormal. cbv zeta. unfold inputLogic. cbv zeta. cbn [foldl].
  rewrite <- bothOpen_test, not_true_iff_false in Hnormal. rewrite Hnormal.
  pose proof (finaleBlock_spec now c false w) as
    (_ & Hcv & Hhs & Hps & Hpos & Hlt & _ & Hquiet). cbv zeta in *.
  destruct (Hquiet eq_refl) as (_ & Hlog & _). clear Hquiet.
  set (w1 := finaleBlock now c false w) in *.
  pose proof (laneBody_spec now c false w1 Left) as
    (Hcv1 & Hhs1 & Hpos1 & _ & Hps1 & Hfire1 & Hquiet1). cbv zeta in *.
  set (w2 := laneBody now c false w1 Left) in *.
  pose proof (laneBody_spec now c false w2 Right) as
    (Hcv2 & Hhs2 & Hpos2 & _ & Hps2 & Hfire2 & Hquiet2). cbv zeta in *.
  set (w3 := laneBody now c false w2 Right) in *.
  assert (risingEdge now w1 Left <-> risingEdge now w Left) as HedgeL
    by (unfold risingEdge; by rewrite Hhs, Hps, Hlt).
  assert (mirroredCall c w1 Left = mirroredCall c w Left) as HcallL
    by (unfold mirroredCall; by rewrite Hpos).
  assert (mirroredCall c w2 Right = mirroredCall c w Right) as HcallR
    by (unfold mirroredCall; by rewrite Hpos1, Hpos).
  rewrite !filter_cons, filter_nil.
  destruct (decide (risingEdge now w Left)) as [HL|HL].
  - destruct (Hfire1 eq_refl (proj2 HedgeL HL)) as [Hlog1 Hlt1].
    assert (risingEdge now w2 Right <-> risingEdge now w Right) as HedgeR
      by (unfold risingEdge; by rewrite Hhs1, Hhs, Hps1, Hps, Hlt1, Hlt).
    destruct (decide (risingEdge now w Right)) as [HR|HR].
    + destruct (Hfire2 eq_refl (proj2 HedgeR HR)) as [Hlog2 Hlt2].
      split.
      * rewrite Hlog2, Hlog1, Hlog, HcallL, HcallR, <- app_assoc. done.
      * intros hand. rewrite Hlt2, Hlt1, Hlt. by destruct hand; repeat case_decide.
    + destruct (Hquiet2 (or_intror (fun H => HR (proj1 HedgeR H))))
        as (Hlog2 & Hlt2 & _).
      split.
      * rewrite Hlog2, Hlog1, Hlog, HcallL. done.
      * intros hand. rewrite Hlt2, Hlt1, Hlt. by destruct hand; repeat case_decide.
  - destruct (Hquiet1 (or_intror (fun H => HL (proj1 HedgeL H))))
      as (Hlog1 & Hlt1 & _).
    assert (risingEdge now w2 Right <-> risingEdge now w Right) as HedgeR
      by (unfold risingEdge; by rewrite Hhs1, Hhs, Hps1, Hps, Hlt1, Hlt).
    destruct (decide (risingEdge now w Right)) as [HR|HR].
    + destruct (Hfire2 eq_refl (proj2 HedgeR HR)) as [Hlog2 Hlt2].
      split.
      * rewrite Hlog2, Hlog1, Hlog, HcallR. done.
      * intros hand. rewrite Hlt2, Hlt1, Hlt. by destruct hand; repeat case_decide.
    + destruct (Hquiet2 (or_intror (fun H => HR (proj1 HedgeR H))))
        as (Hlog2 & Hlt2 & _).
      split.
      * rewrite Hlog2, Hlog1, Hlog. cbn. by rewrite app_nil_r.
      * intros hand. rewrite Hlt2, Hlt1, Hlt. by destruct hand; repeat case_decide.
Qed.

Lemma integrate_log w : triggerLog (integrate w) = triggerLog w.
Proof. by rewrite integrate_rest. Qed.

Lemma integrate_lastTriggerTime w :
  lastTriggerTime (integrate w) = lastTriggerTime w.
Proof. by rewrite integrate_rest. Qed.

Lemma newCalls_app w w' calls :
  triggerLog w' = triggerLog w ++ calls -> newCalls w w' = calls.
Proof. intros E. unfold newCalls. by rewrite E, drop_app_length. Qed.

Lemma normal_frame_calls now w c :
  canvas w = Some c -> has2d c = true ->
  ~ bothOpen w ->
  newCalls w (draw now w) =
    (mirroredCall c w <$> filter (risingEdge now w) [Left; Right])
  /\ forall hand,
       lane_get hand (lastTriggerTime (inputLogic now c w)) =
         if decide (risingEdge now w hand) then now
         else lane_get hand (lastTriggerTime w).
Proof.
  intros Hc H2d Hnormal.
  rewrite (draw_mounted now w c Hc H2d).
  destruct (inputLogic_normal now c w Hnormal) as [Hlog Hlast].
  split; [|exact Hlast]. apply newCalls_app. by rewrite integrate_log.
Qed.

(** ** C1: the normal trigger *)

(** C1.  In a frame in which the two lanes are not both OPEN, the calls
    of [triggerFirework] are exactly those of the lanes that are OPEN,
    were not OPEN in the previous frame and triggered more than 250 ms
    ago; the call of such a lane is made at the mirrored wrist position
    [((1 - x) * width, y * height)] and sets the lane's last-trigger time
    to the current time; the time of any other lane is left alone. *)
Theorem normal_mode_rising_edge_trigger now w c :
  canvas w = Some c -> has2d c = true ->
  ~ bothOpen w ->
  newCalls w (draw now w) =
    (mirroredCall c w <$> filter (risingEdge now w) [Left; Right])
  /\ forall hand,
      (risingEdge now w hand <->
         exists x y, mkCall (Some hand) x y ∈ newCalls w (draw now w))
      /\ (forall x y, mkCall (Some hand) x y ∈ newCalls w (draw now w) ->
          x = (1 - Point.x (lane_get hand (handPos w))) * inject_Z (width c)
          /\ y = Point.y (lane_get hand (handPos w)) * inject_Z (height c)
          /\ lane_get hand (lastTriggerTime (draw now w)) = now)
      /\ (~ risingEdge now w hand ->
          lane_get hand (lastTriggerTime (draw now w)) =
            lane_get hand (lastTriggerTime w)).
Proof.
  intros Hc H2d Hnormal.
  rewrite (draw_mounted now w c Hc H2d).
  destruct (inputLogic_normal now c w Hnormal) as [Hlog Hlast].
  assert (newCalls w (integrate (inputLogic now c w)) =
            (mirroredCall c w <$> filter (risingEdge now w) [Left; Right]))
    as Hcalls.
  { apply newCalls_app. by rewrite integrate_log. }
  split; [exact Hcalls|]. intros hand.
  rewrite Hcalls, integrate_lastTriggerTime, Hlast.
  assert (forall x y,
            mkCall (Some hand) x y
              ∈ (mirroredCall c w <$> filter (risingEdge now w) [Left; Right]) ->
            risingEdge now w hand
            /\ mkCall (Some hand) x y = mirroredCall c w hand) as Hin.
  { intros x y Hel. apply list_elem_of_fmap in Hel as (hand' & Heq & Hel).
    apply list_elem_of_filter in Hel as [Hedge _].
    assert (hand = hand') as <-
      by (unfold mirroredCall in Heq; by injection Heq).
    done. }
  split_and!.
  - split.
    + intros Hedge. eexists _, _. apply list_elem_of_fmap.
      exists hand. split; [reflexivity|].
      apply list_elem_of_filter. split; [done|].
      destruct hand; repeat constructor.
    + intros (x & y & Hel). by apply Hin in Hel as [Hedge _].
  - intros x y Hel. apply Hin in Hel as [Hedge Heq].
    unfold mirroredCall in Heq. injection Heq as -> ->.
    split_and!; try done. by rewrite decide_True.
  - intros Hno. by rewrite decide_False.
Qed.

(** ** The tracker callback *)

Lemma trackerKept_refl w : trackerKept w w.
Proof. by repeat split. Qed.

Lemma trackerKept_trans w1 w2 w3 :
  trackerKept w1 w2 -> trackerKept w2 w3 -> trackerKept w1 w3.
Proof.
  unfold trackerKept. intros (?&?&?&?&?&?&?&?&?) (?&?&?&?&?&?&?&?&?).
  split_and!; congruence.
Qed.

Lemma scanHands_kept hands : forall i handedness foundHands w,
  trackerKept w (outcome_state (scanHands i hands handedness foundHands w)).2.
Proof.
  induction hands as [|landmarks rest IH]; intros i handedness foundHands w.
  - apply trackerKept_refl.
  - cbn [scanHands]. destruct (handedness !! i) as [label|];
      [|apply trackerKept_refl].
    cbv zeta. destruct (readHand landmarks) as [[wrist newState]|];
      [|apply trackerKept_refl].
    eapply trackerKept_trans; [|apply IH]. by repeat split.
Qed.

Lemma clearMissing_kept foundHands w hand :
  trackerKept w (clearMissing foundHands w hand).
Proof.
  unfold clearMissing. destruct (bool_decide _); by repeat split.
Qed.

Lemma onResults_kept results w :
  trackerKept w (outcome_state (onResults results w)).
Proof.
  unfold onResults.
  destruct (multiHandLandmarks results) as [hands|];
    [|apply trackerKept_refl].
  destruct (multiHandedness results) as [handedness|];
    [|apply trackerKept_refl].
  pose proof (scanHands_kept hands 0 handedness ∅ w) as Hscan.
  destruct (scanHands 0 hands handedness ∅ w) as [[found w']|[found w']];
    cbn [outcome_state snd] in *; [|done].
  cbn [foldl].
  eapply trackerKept_trans; [|apply clearMissing_kept].
  eapply trackerKept_trans; [|apply clearMissing_kept]. done.
Qed.

Lemma Callbacks_kept w w' : Callbacks w w' -> trackerKept w w'.
Proof.
  induction 1 as [|results w' _ IH]; [apply trackerKept_refl|].
  eapply trackerKept_trans; [exact IH | apply onResults_kept].
Qed.

(** ** C4: the finale *)

(** In a finale frame the lanes make no call and keep their timestamps. *)
Lemma inputLogic_finale now c w :
  bothOpen w ->
  let w' := inputLogic now c w in
  finaleCallsOnly w w' /\ lastTriggerTime w' = lastTriggerTime w.
Proof.
  intros Hboth. cbv zeta. unfold inputLogic. cbv zeta. cbn [foldl].
  apply bothOpen_test in Hboth. rewrite Hboth.
  pose proof (finaleBlock_spec now c true w) as
    (_ & _ & _ & _ & _ & Hlt & Hlog & _). cbv zeta in *.
  set (w1 := finaleBlock now c true w) in *.
  pose proof (laneBody_spec now c true w1 Left) as
    (_ & _ & _ & _ & _ & _ & Hquiet1). cbv zeta in *.
  destruct (Hquiet1 (or_introl eq_refl)) as (Hlog1 & Hlt1 & _).
  set (w2 := laneBody now c true w1 Left) in *.
  pose proof (laneBody_spec now c true w2 Right) as
    (_ & _ & _ & _ & _ & _ & Hquiet2). cbv zeta in *.
  destruct (Hquiet2 (or_introl eq_refl)) as (Hlog2 & Hlt2 & _).
  split; [|congruence].
  destruct Hlog as (calls & Hcalls & Hnone). exists calls.
  split; [congruence | done].
Qed.

(** C4.  The finale flag of a frame is set exactly when both lanes are
    OPEN in that frame; in such a frame only the choreography calls
    [triggerFirework] and no lane's last-trigger time changes; every frame,
    in either mode, stores the current states in the previous-state
    slots; hence, after a finale frame and any tracker callbacks, a frame
    in which the lanes are no longer both OPEN makes no call at all. *)
Theorem finale_mode_and_exit now w c :
  canvas w = Some c -> has2d c = true ->
  (active (grandFinale (draw now w)) = true <-> bothOpen w)
  /\ prevHandState (draw now w) = handState w
  /\ (bothOpen w ->
      Forall (fun call => call_lane call = None) (newCalls w (draw now w))
      /\ lastTriggerTime (draw now w) = lastTriggerTime w)
  /\ (bothOpen w ->
      forall w2 now2,
        Callbacks (draw now w) w2 -> ~ bothOpen w2 ->
        newCalls w2 (draw now2 w2) = []
        /\ lastTriggerTime (draw now2 w2) = lastTriggerTime w2).
Proof.
  intros Hc H2d.
  rewrite (draw_mounted now w c Hc H2d).
  pose proof (inputLogic_hands now c w) as (Hcv & Hhs & _ & Hps & Hact).
  cbv zeta in *.
  assert (prevHandState (integrate (inputLogic now c w)) = handState w)
    as Hprev by (by rewrite integrate_rest).
  assert (canvas (integrate (inputLogic now c w)) = Some c)
    as Hcanvas by (rewrite integrate_rest; world_simpl; congruence).
  split_and!.
  - by rewrite integrate_rest.
  - exact Hprev.
  - intros Hboth.
    destruct (inputLogic_finale now c w Hboth) as [(calls & Hlog & Hnone) Hlt].
    split; [|by rewrite integrate_lastTriggerTime].
    rewrite (newCalls_app w _ calls); [done|]. by rewrite integrate_log.
  - intros [HL HR] w2 now2 Hcb Hnormal.
    apply Callbacks_kept in Hcb as (Hcv2 & _ & _ & Hps2 & _).
    rewrite Hcanvas in Hcv2. rewrite Hprev in Hps2.
    destruct (normal_frame_calls now2 w2 c Hcv2 H2d Hnormal) as [Hcalls Hlast].
    assert (forall hand, ~ risingEdge now2 w2 hand) as Hno.
    { intros hand (_ & Hedge & _). apply Hedge. rewrite Hps2.
      by destruct hand. }
    split.
    + rewrite Hcalls. rewrite !filter_cons, filter_nil.
      rewrite !decide_False by apply Hno. done.
    + rewrite (draw_mounted now2 w2 c Hcv2 H2d), integrate_lastTriggerTime.
      apply perLane_ext. intros hand.
      rewrite Hlast. by rewrite decide_False by apply Hno.
Qed.

(** ** C9 and C10: the pool over the life of the component *)

Lemma update_keeps p :
  Particle.decay (Particle.update p) = Particle.decay p
  /\ Particle.friction (Particle.update p) = Particle.friction p
  /\ Particle.gravity (Particle.update p) = Particle.gravity p
  /\ Particle.size (Particle.update p) = Particle.size p
  /\ Particle.alpha (Particle.update p) = Particle.alpha p - Particle.decay p.
Proof. by repeat split. Qed.

Lemma alive_alpha p : alive p <-> 0 < Particle.alpha p.
Proof.
  unfold alive, Particle.isDead.
  rewrite <- not_true_iff_false, Qle_bool_iff.
  split; [apply Qnot_le_lt | apply Qlt_not_le].
Qed.

Lemma fresh_pooled p : fresh p -> pooled p.
Proof. unfold fresh, pooled. intros [-> ?]. split; [lra | done]. Qed.

Lemma survivor_pooled p :
  pooled p -> alive (Particle.update p) -> pooled (Particle.update p).
Proof.
  intros [Halpha Hdecay] Halive.
  destruct (update_keeps p) as (Hd & _ & _ & _ & Ha).
  apply alive_alpha in Halive. split; [|by rewrite Hd].
  split; [done|]. rewrite Ha. lra.
Qed.

Lemma integrate_pool w :
  Forall pooled (particles w) ->
  Forall pooled (particles (integrate w))
  /\ (length (particles (integrate w)) <= length (particles w))%nat.
Proof.
  intros Hpool. rewrite integrate_particles. split.
  - apply Forall_forall. intros p' Hel.
    apply list_elem_of_filter in Hel as [Halive Hel].
    apply list_elem_of_fmap in Hel as (p & -> & Hel).
    rewrite Forall_forall in Hpool. by apply survivor_pooled; [apply Hpool|].
  - etransitivity; [apply length_filter|]. by rewrite length_fmap.
Qed.

Lemma draw_pool now w :
  Forall pooled (particles w) /\ (length (particles w) <= 2300)%nat ->
  Forall pooled (particles (draw now w))
  /\ (length (particles (draw now w)) <= 2300)%nat.
Proof using random_range.
  intros [Hpool Hlen]. unfold draw.
  destruct (canvas w) as [c|]; [|done].
  destruct (has2d c); [|done].
  destruct (inputLogic_poolGrows now c w) as [(batch & Hbatch & Hfresh) Hcap].
  assert (Forall pooled (particles (inputLogic now c w))) as Hpool'.
  { rewrite Hbatch. apply Forall_app. split; [done|].
    eapply Forall_impl; [exact Hfresh | apply fresh_pooled]. }
  destruct (integrate_pool _ Hpool') as [Hp Hl].
  split; [done|]. specialize (Hcap Hlen). lia.
Qed.

Lemma reachable_pool w :
  Reachable w ->
  Forall pooled (particles w) /\ (length (particles w) <= 2300)%nat.
Proof using random_range.
  induction 1 as [c a k|results w _ IH|now w _ IH|iw ih w _ IH].
  - cbn. split; [constructor | lia].
  - destruct (onResults_kept results w) as (_ & _ & -> & _). exact IH.
  - by apply draw_pool.
  - unfold onResize. by destruct (canvas w).
Qed.

(** C9.  In every frame of a running component the pool is first extended
    at its end by the new batches (no particle already in it is touched),
    then every particle is updated once, which keeps its decay, friction,
    gravity and size and strictly lowers its alpha, and exactly the
    particles whose alpha is then at most zero are dropped, the others
    staying in their order; so every particle in the pool has a positive
    alpha. *)
Theorem pool_fields_fixed_alpha_falls_dead_culled now w c :
  Reachable w ->
  canvas w = Some c -> has2d c = true ->
  let before := particles (inputLogic now c w) in
  (exists batch, before = particles w ++ batch /\ Forall fresh batch)
  /\ particles (draw now w) = filter alive (Particle.update <$> before)
  /\ Forall (fun p =>
               Particle.decay (Particle.update p) = Particle.decay p
               /\ Particle.friction (Particle.update p) = Particle.friction p
               /\ Particle.gravity (Particle.update p) = Particle.gravity p
               /\ Particle.size (Particle.update p) = Particle.size p
               /\ Particle.alpha (Particle.update p) < Particle.alpha p
               /\ (Particle.update p ∈ particles (draw now w)
                   <-> ~ Particle.alpha (Particle.update p) <= 0))
       before
  /\ Forall (fun p => 0 < Particle.alpha p) (particles (draw now w)).
Proof using random_range.
  intros Hreach Hc H2d. cbv zeta.
  destruct (reachable_pool w Hreach) as [Hpool Hlen].
  destruct (inputLogic_poolGrows now c w) as [(batch & Hbatch & Hfresh) _].
  assert (Forall pooled (particles (inputLogic now c w))) as Hpool'.
  { rewrite Hbatch. apply Forall_app. split; [done|].
    eapply Forall_impl; [exact Hfresh | apply fresh_pooled]. }
  assert (particles (draw now w) =
            filter alive (Particle.update <$> particles (inputLogic now c w)))
    as Hdraw.
  { by rewrite (draw_mounted now w c Hc H2d), integrate_particles. }
  split_and!.
  - by exists batch.
  - exact Hdraw.
  - apply Forall_forall. intros p Hel.
    rewrite Forall_forall in Hpool'.
    destruct (Hpool' p Hel) as [[Halpha _] Hdecay].
    destruct (update_keeps p) as (Hd & Hf & Hg & Hs & Ha).
    split_and!; try done.
    + rewrite Ha. lra.
    + rewrite Hdraw, list_elem_of_filter, alive_alpha. split.
      * intros [Hpos _]. by apply Qlt_not_le.
      * intros Hpos. split; [by apply Qnot_le_lt|].
        apply list_elem_of_fmap. by exists p.
  - rewrite Hdraw. apply Forall_forall. intros p' Hel.
    apply list_elem_of_filter in Hel as [Halive _]. by apply alive_alpha.
Qed.

(** C10.  The pool of a running component never holds more than 2300
    particles: a call of [triggerFirework] leaves the pool alone when it
    holds more than 2000 and adds at most 300 otherwise (at least 70 when
    it holds at most 2000, so that the pool can pass 2000), and the
    particle pass, the only other operation on the pool, never makes it
    longer. *)
Theorem pool_never_exceeds_2300 w :
  Reachable w ->
  (length (particles w) <= 2300)%nat
  /\ (forall who x y,
        (length (particles (triggerFirework who x y w))
           <= length (particles w) + 300)%nat
        /\ ((2000 < length (particles w))%nat ->
            particles (triggerFirework who x y w) = particles w)
        /\ (length (particles (triggerFirework who x y w)) <= 2300)%nat)
  /\ (forall who x y c,
        canvas w = Some c -> (length (particles w) <= 2000)%nat ->
        (length (particles w) + 70
           <= length (particles (triggerFirework who x y w)))%nat)
  /\ (length (particles (integrate w)) <= length (particles w))%nat.
Proof using random_range.
  intros Hreach. destruct (reachable_pool w Hreach) as [Hpool Hlen].
  split_and!.
  - exact Hlen.
  - intros who x y.
    destruct (triggerFirework_poolGrows who x y w) as [_ Hcap].
    destruct (triggerFirework_cases who x y w) as [E|(c & Hc & Hroom)].
    + rewrite E. world_simpl. split_and!; [lia | done | done].
    + destruct (accepted_batch_fresh who x y w c Hc Hroom) as (E & Hadd & _).
      split_and!.
      * rewrite E, length_app. lia.
      * intros Hfull. unfold MAX_PARTICLES in Hroom. lia.
      * by apply Hcap.
  - intros who x y c Hc Hroom.
    destruct (appended_accepted who x y w c Hc Hroom) as [E Hbatch].
    rewrite E, length_app, Hbatch, spawnAll_length. cbn [length Nat.add].
    pose proof (batch_length_bounds _
                  (proj1 (planExplosion_ranges (cursor w)))) as Hb.
    fold (planOf w) in Hb. lia.
  - by apply integrate_pool.
Qed.

(** ** C2: the cap refuses, decay brings the pool back, the cap accepts *)

Lemma overCapKept_refl w : overCapKept w w.
Proof. by intros _. Qed.

Lemma overCapKept_trans w1 w2 w3 :
  overCapKept w1 w2 -> overCapKept w2 w3 -> overCapKept w1 w3.
Proof.
  intros H12 H23 Hfull. specialize (H12 Hfull).
  rewrite H23; [done|]. by rewrite H12.
Qed.

Lemma overCapKept_same w w' : particles w' = particles w -> overCapKept w w'.
Proof. by intros E _. Qed.

Lemma triggerFirework_overCapKept who x y w :
  overCapKept w (triggerFirework who x y w).
Proof.
  intros Hfull. by rewrite (triggerFirework_rejected who x y w Hfull).
Qed.

Lemma inputLogic_overCapKept now c w : overCapKept w (inputLogic now c w).
Proof.
  assert (forall both w0, overCapKept w0 (finaleBlock now c both w0)) as Hfinale.
  { intros both w0. unfold finaleBlock. cbv zeta.
    set (w1 := set_grandFinale _ w0).
    destruct (both && _); [|by apply overCapKept_same].
    apply (overCapKept_trans w0 w1); [by apply overCapKept_same|].
    eapply overCapKept_trans; [|by apply overCapKept_same].
    apply choreography_chain.
    - apply overCapKept_refl.
    - apply overCapKept_trans.
    - intros x y w2. apply triggerFirework_overCapKept.
    - intros w2. by apply overCapKept_same. }
  assert (forall both w0 hand, overCapKept w0 (laneBody now c both w0 hand))
    as Hlane.
  { intros both w0 hand. unfold laneBody. cbv zeta.
    match goal with
    | |- overCapKept _ (set_prevHandState _ ?inner) =>
        apply (overCapKept_trans w0 inner); [|by apply overCapKept_same]
    end.
    destruct (negb both); [|apply overCapKept_refl].
    destruct (_ && _); [|apply overCapKept_refl].
    eapply overCapKept_trans; [apply triggerFirework_overCapKept|].
    by apply overCapKept_same. }
  unfold inputLogic. cbv zeta. cbn [foldl].
  eapply overCapKept_trans; [|apply Hlane].
  eapply overCapKept_trans; [|apply Hlane].
  apply Hfinale.
Qed.

Lemma Run_reachable w sizes w' : Reachable w -> Run w sizes w' -> Reachable w'.
Proof.
  intros Hreach. induction 1; [done | | |].
  - by apply reach_results.
  - by apply reach_resize.
  - by apply reach_draw.
Qed.

(** The last entry of the sizes is the size of the pool reached. *)
Lemma Run_last w sizes w' :
  Run w sizes w' -> last sizes = Some (length (particles w')).
Proof.
  induction 1 as [|sizes w' results _ IH|sizes w' iw ih _ IH|sizes w' now c _ _ _ _].
  - reflexivity.
  - by destruct (onResults_kept results w') as (_ & _ & -> & _).
  - unfold onResize. by destruct (canvas w').
  - by rewrite last_snoc.
Qed.

(** While the pool stays above the cap nothing is added to it, and every
    frame takes at least 0.008 from the alpha of each of its particles. *)
Lemma Run_decay w sizes w' :
  Reachable w -> Run w sizes w' ->
  Forall (fun size => (MAX_PARTICLES < size)%nat) sizes ->
  Forall (fun p => Particle.alpha p
                   <= 1.008 - 0.008 * inject_Z (Z.of_nat (length sizes)))
    (particles w').
Proof using random_range.
  intros Hreach Hrun.
  induction Hrun as [|sizes w' results _ IH|sizes w' iw ih _ IH
                     |sizes w' now c Hrun IH Hc H2d]; intros Hover.
  - destruct (reachable_pool w Hreach) as [Hpool _].
    eapply Forall_impl; [exact Hpool|]. intros p [[_ Hone] _].
    cbn [length]. change (inject_Z (Z.of_nat 1)) with 1. lra.
  - destruct (onResults_kept results w') as (_ & _ & -> & _). by apply IH.
  - unfold onResize. destruct (canvas w'); by apply IH.
  - apply Forall_app in Hover as [Hover Hnow]. specialize (IH Hover).
    assert (MAX_PARTICLES < length (particles w'))%nat as Hfull.
    { pose proof (Run_last _ _ _ Hrun) as Hlast.
      rewrite Forall_forall in Hover. apply Hover.
      destruct sizes as [|size0 sizes] using rev_ind; [done|].
      rewrite last_snoc in Hlast. injection Hlast as ->.
      apply elem_of_app. right. by left. }
    destruct (reachable_pool w' (Run_reachable _ _ _ Hreach Hrun)) as [Hpool _].
    rewrite (draw_mounted now w' c Hc H2d), integrate_particles.
    rewrite (inputLogic_overCapKept now c w' Hfull).
    apply Forall_forall. intros p' Hel.
    apply list_elem_of_filter in Hel as [_ Hel].
    apply list_elem_of_fmap in Hel as (p & -> & Hel).
    rewrite Forall_forall in IH, Hpool.
    specialize (IH p Hel). destruct (Hpool p Hel) as [_ Hdecay].
    destruct (update_keeps p) as (_ & _ & _ & _ & ->).
    rewrite length_app. cbn [length].
    replace (length sizes + 1)%nat with (S (length sizes)) by lia.
    rewrite Nat2Z.inj_succ, <- Z.add_1_r, inject_Z_plus.
    change (inject_Z 1) with 1. lra.
Qed.

(** Within 125 frames a pool above the cap is back at or below it. *)
Lemma Run_leaves_cap w sizes w' :
  Reachable w -> Run w sizes w' ->
  (126 <= length sizes)%nat ->
  Exists (fun size => (size <= MAX_PARTICLES)%nat) sizes.
Proof using random_range.
  intros Hreach Hrun Hlong.
  destruct (decide (Exists (fun size => (size <= MAX_PARTICLES)%nat) sizes))
    as [|Hnone]; [done|].
  exfalso. apply not_Exists_Forall in Hnone; [|apply _].
  assert (Forall (fun size => (MAX_PARTICLES < size)%nat) sizes) as Hover.
  { eapply Forall_impl; [exact Hnone|]. cbn. intros size Hsize. lia. }
  pose proof (Run_decay w sizes w' Hreach Hrun Hover) as Hdecay.
  destruct (reachable_pool w' (Run_reachable _ _ _ Hreach Hrun)) as [Hpool _].
  pose proof (Run_last _ _ _ Hrun) as Hlast.
  destruct (particles w') as [|p pool] eqn:Hparticles.
  - destruct sizes as [|size0 sizes] using rev_ind; [done|].
    rewrite last_snoc in Hlast. injection Hlast as ->.
    apply Forall_app in Hover as [_ Hzero].
    rewrite Forall_singleton in Hzero.
    unfold MAX_PARTICLES in Hzero. lia.
  - apply Forall_cons in Hdecay as [Hdecay _].
    apply Forall_cons in Hpool as [[[Hpos _] _] _].
    assert (inject_Z 126 <= inject_Z (Z.of_nat (length sizes))) as Hn
      by (rewrite <- Zle_Qle; lia).
    change (inject_Z 126) with 126 in Hn. lra.
Qed.

(** C2.  A request made while the pool holds more than 2000 particles adds
    none: it rolls nothing and plays no cue, and the call returns.  A pool
    of a running component that is above the cap is back at or below it
    within 125 frames, by the decay of its particles alone.  A request made
    while the pool holds at most 2000 particles (on a mounted canvas)
    appends its whole batch, one particle for every integer below the
    rolled count, between 70 and 300 of them. *)
Theorem pool_cap_drops_then_accepts who x y w :
  ((MAX_PARTICLES < length (particles w))%nat ->
     particles (triggerFirework who x y w) = particles w
     /\ appended who x y w = []
     /\ cursor (triggerFirework who x y w) = cursor w
     /\ explosionCues (triggerFirework who x y w) = explosionCues w)
  /\ (forall sizes w',
      Reachable w -> Run w sizes w' -> (126 <= length sizes)%nat ->
      Exists (fun size => (size <= MAX_PARTICLES)%nat) sizes)
  /\ (forall c, canvas w = Some c ->
      (length (particles w) <= MAX_PARTICLES)%nat ->
      particles (triggerFirework who x y w) =
        particles w ++ appended who x y w
      /\ length (appended who x y w) =
           Z.to_nat (Qceiling (plan_particleCount (planOf w)))
      /\ (70 <= length (appended who x y w) <= 300)%nat).
Proof using random_range.
  split_and!.
  - intros Hfull. unfold appended.
    rewrite (triggerFirework_rejected who x y w Hfull). world_simpl.
    by rewrite drop_all.
  - intros sizes w'. apply Run_leaves_cap.
  - intros c Hc Hroom.
    destruct (appended_accepted who x y w c Hc Hroom) as [Hpool Hbatch].
    split; [exact Hpool|].
    assert (length (appended who x y w) =
              Z.to_nat (Qceiling (plan_particleCount (planOf w)))) as Hlen.
    { rewrite Hbatch. by rewrite spawnAll_length. }
    split; [exact Hlen|]. rewrite Hlen.
    apply batch_length_bounds.
    apply (planExplosion_ranges (cursor w)).
Qed.

(** ** C5: the gesture classifier *)

(** The state [readHand] computes is the one the average tip distance
    gives. *)
Lemma readHand_spec landmarks :
  (21 <= length landmarks)%nat ->
  exists wrist d newState,
    readHand landmarks = Some (wrist, newState)
    /\ averageTipDistance landmarks = Some d
    /\ (d < 0.25 -> newState = FIST)
    /\ (0.25 <= d -> newState = OPEN).
Proof.
  intros Hlen.
  destruct (lookup_lt_is_Some_2 landmarks 0) as [wrist Hw]; [lia|].
  destruct (lookup_lt_is_Some_2 landmarks 8) as [t1 H1]; [lia|].
  destruct (lookup_lt_is_Some_2 landmarks 12) as [t2 H2]; [lia|].
  destruct (lookup_lt_is_Some_2 landmarks 16) as [t3 H3]; [lia|].
  destruct (lookup_lt_is_Some_2 landmarks 20) as [t4 H4]; [lia|].
  unfold readHand, averageTipDistance, tips, addTipDistance.
  cbn [foldl]. rewrite Hw, H1, H2, H3, H4. cbn [mbind option_bind].
  eexists _, _, _. split; [reflexivity|]. split; [reflexivity|].
  fold (tipDistance wrist t1) (tipDistance wrist t2)
       (tipDistance wrist t3) (tipDistance wrist t4).
  set (total := tipDistance wrist t1 + tipDistance wrist t2
                + tipDistance wrist t3 + tipDistance wrist t4).
  match goal with
  | |- context [Qltb ?avg 0.25] =>
      assert (avg == total / 4) as Havg
        by (subst total; unfold Qdiv; ring);
      destruct (Qltb avg 0.25) eqn:Htest;
        [apply Qltb_lt in Htest | apply Qltb_ge in Htest];
        rewrite Havg in Htest
  end;
    clearbody total; split; intros Hd; try reflexivity; exfalso; lra.
Qed.

Lemma scanHands_spec hands : forall i handedness foundHands w,
  (i + length hands <= length handedness)%nat ->
  Forall (fun landmarks => (21 <= length landmarks)%nat) hands ->
  exists foundHands' w',
    scanHands i hands handedness foundHands w = Returned (foundHands', w')
    /\ forall hand,
        (hand ∈ foundHands' <->
           hand ∈ foundHands
           \/ lastObservation hand (zip (drop i handedness) hands) <> None)
        /\ lane_get hand (handState w') =
             scanned hand (zip (drop i handedness) hands) w.
Proof.
  induction hands as [|landmarks rest IH];
    intros i handedness foundHands w Hlen Hwf.
  - exists foundHands, w. split; [reflexivity|]. intros hand.
    rewrite zip_with_nil_r. unfold scanned. cbn. split; [|done].
    split; [by left | by intros [?|?]].
  - cbn [length] in Hlen. apply Forall_cons in Hwf as [Hwf1 Hwf].
    destruct (lookup_lt_is_Some_2 handedness i) as [label Hlabel]; [lia|].
    destruct (readHand_spec landmarks Hwf1) as (wrist & d & st & Hread & _).
    cbn [scanHands]. rewrite Hlabel. cbv zeta. rewrite Hread.
    set (w1 := set_handState _ _).
    destruct (IH (S i) handedness ({[label]} ∪ foundHands) w1) as
      (found' & w' & Hscan & Hspec); [lia | done |].
    exists found', w'. split; [exact Hscan|]. intros hand.
    destruct (Hspec hand) as [Hfound Hstate].
    rewrite (drop_S _ _ _ Hlabel). cbn [zip zip_with].
    unfold scanned in *. cbn [lastObservation].
    destruct (lastObservation hand (zip (drop (S i) handedness) rest))
      as [later|] eqn:Hlater.
    + split; [|exact Hstate]. rewrite Hfound. split; [|by right]. by right.
    + rewrite Hfound, Hstate. subst w1. world_simpl.
      rewrite lane_get_set. rewrite elem_of_union, elem_of_singleton.
      destruct (decide (label = hand)) as [->|Hne].
      * rewrite decide_True by done. rewrite Hread. split; [|done].
        split; [by right | by left; left].
      * rewrite decide_False by done. split; [|done].
        split; [intros [[?|?]|?]; [done | by left | done] | ].
        intros [?|?]; [by left; right | done].
Qed.

Lemma lastObservation_None hand obs :
  lastObservation hand obs = None <-> forall landmarks, (hand, landmarks) ∉ obs.
Proof.
  induction obs as [|[label lm] rest IH]; cbn [lastObservation].
  - split; [|done]. intros _ landmarks Hel. by apply elem_of_nil in Hel.
  - destruct (lastObservation hand rest) as [later|].
    + split; [done|]. intros Hno. exfalso.
      assert (Some later = None) as Habs; [|done].
      apply IH. intros landmarks Hel. apply (Hno landmarks). by right.
    + destruct (decide (label = hand)) as [->|Hne].
      * split; [done|]. intros Hno. exfalso. apply (Hno lm). by left.
      * split; [|done]. intros _ landmarks Hel.
        apply elem_of_cons in Hel as [Heq|Hel]; [congruence|].
        revert Hel. by apply IH.
Qed.

Lemma lastObservation_Some hand obs landmarks :
  lastObservation hand obs = Some landmarks -> (hand, landmarks) ∈ obs.
Proof.
  induction obs as [|[label lm] rest IH]; cbn [lastObservation]; [done|].
  destruct (lastObservation hand rest) as [later|].
  - intros [= ->]. right. by apply IH.
  - destruct (decide (label = hand)) as [->|]; [|done].
    intros [= ->]. by left.
Qed.

(** C5, as amended.  When the payload carries both lists, a label for
    every hand and all 21 landmarks of every hand, the callback returns
    and leaves every lane as follows: UNKNOWN if no observation of the
    frame bears its label, whatever its state was; otherwise, with [d] the
    average distance from the wrist to the four fingertips in the last
    observation that bears its label, FIST if [d < 0.25] and OPEN if
    not.  A payload that lacks either list, whatever else it carries and
    whatever the state of the component, leaves everything as it was: the
    callback returns, and the states and the positions of both lanes are
    those it found. *)
Theorem classifier_sets_lane_states hands handedness w :
  ((length hands <= length handedness)%nat ->
   Forall (fun landmarks => (21 <= length landmarks)%nat) hands ->
   exists w',
     onResults (mkResults (Some hands) (Some handedness)) w = Returned w'
     /\ forall hand,
         ((forall landmarks,
              (hand, landmarks) ∉ observations hands handedness) ->
          lane_get hand (handState w') = UNKNOWN)
         /\ (forall landmarks,
               lastObservation hand (observations hands handedness)
                 = Some landmarks ->
               exists d,
                 averageTipDistance landmarks = Some d
                 /\ (d < 0.25 -> lane_get hand (handState w') = FIST)
                 /\ (0.25 <= d -> lane_get hand (handState w') = OPEN)))
  /\ (forall results,
        multiHandLandmarks results = None
        \/ multiHandedness results = None ->
        onResults results w = Returned w
        /\ forall hand,
            lane_get hand (handState (outcome_state (onResults results w)))
              = lane_get hand (handState w)
            /\ lane_get hand (handPos (outcome_state (onResults results w)))
                = lane_get hand (handPos w)).
Proof.
  split; [|
    intros results Hnone;
    assert (onResults results w = Returned w) as ->;
    [unfold onResults; destruct Hnone as [-> | ->];
       [done | by destruct (multiHandLandmarks results)]
    |done]].
  intros Hlen Hwf.
  destruct (scanHands_spec hands 0 handedness ∅ w) as
    (found & w1 & Hscan & Hspec); [lia | done |].
  unfold onResults. cbn [multiHandLandmarks multiHandedness].
  rewrite Hscan. eexists. split; [reflexivity|].
  intros hand. destruct (Hspec hand) as [Hfound Hstate].
  rewrite drop_0 in Hfound, Hstate. fold (observations hands handedness) in *.
  assert (lane_get hand
            (handState (foldl (clearMissing found) w1 [Left; Right])) =
          if decide (hand ∈ found) then lane_get hand (handState w1)
          else UNKNOWN) as Hclear.
  { cbn [foldl]. unfold clearMissing.
    destruct hand;
      repeat (case_bool_decide; world_simpl);
      repeat case_decide; try done. }
  rewrite Hclear, Hstate. unfold scanned. split.
  - intros Hnone. apply lastObservation_None in Hnone.
    rewrite decide_False; [done|]. rewrite Hfound, Hnone.
    intros [Hel|?]; [by apply elem_of_empty in Hel | done].
  - intros landmarks Hlast. rewrite Hlast.
    rewrite decide_True by (apply Hfound; right; by rewrite Hlast).
    assert (21 <= length landmarks)%nat as Hlm.
    { apply lastObservation_Some in Hlast.
      unfold observations in Hlast.
      apply elem_of_zip_r in Hlast.
      rewrite Forall_forall in Hwf. by apply Hwf. }
    destruct (readHand_spec landmarks Hlm) as
      (wrist & d & st & Hread & Havg & Hfist & Hopen).
    rewrite Hread. by exists d.
Qed.

(** * Further properties of the composer *)

(** X1.  The palette and the style of an accepted explosion are entries of
    the two tables: the random index never reads outside of them. *)
Theorem plan_choices_come_from_tables who x y w c :
  canvas w = Some c ->
  (length (particles w) <= MAX_PARTICLES)%nat ->
  particles (triggerFirework who x y w) = particles w ++ appended who x y w
  /\ plan_palette (planOf w) ∈ COLOR_PALETTES
  /\ plan_style (planOf w) ∈ EXPLOSION_STYLES.
Proof using random_range.
  intros Hc Hroom.
  split; [apply (appended_accepted who x y w c Hc Hroom)|].
  pose proof (randomChoice_index (length COLOR_PALETTES) (cursor w)) as Hpal.
  pose proof (randomChoice_index (length EXPLOSION_STYLES) (S (cursor w)))
    as Hsty.
  assert (plan_palette (planOf w) =
            nth (Z.to_nat (Qfloor (random (cursor w)
                                   * inject_Z (Z.of_nat (length COLOR_PALETTES)))))
              COLOR_PALETTES {| palette_hue := 0; palette_name := "" |})
    as ->.
  { unfold planOf. run_rand.
    destruct (Qltb _ 0.3); [reflexivity|]. destruct (Qltb _ 0.7); reflexivity. }
  assert (plan_style (planOf w) =
            nth (Z.to_nat (Qfloor (random (S (cursor w))
                                   * inject_Z (Z.of_nat (length EXPLOSION_STYLES)))))
              EXPLOSION_STYLES circle)
    as ->.
  { unfold planOf. run_rand.
    destruct (Qltb _ 0.3); [reflexivity|]. destruct (Qltb _ 0.7); reflexivity. }
  split; apply list_elem_of_In, nth_In.
  - apply Hpal. cbn. lia.
  - apply Hsty. cbn. lia.
Qed.

(** The alpha of a particle after [k] updates. *)
Lemma iter_update_alpha (k : nat) (p : Particle.t) :
  Particle.decay (Nat.iter k Particle.update p) = Particle.decay p
  /\ Particle.alpha (Nat.iter k Particle.update p)
     == Particle.alpha p - inject_Z (Z.of_nat k) * Particle.decay p.
Proof.
  induction k as [|k [IHd IHa]].
  - unfold Nat.iter. cbn [nat_rect]. split; [reflexivity|].
    change (inject_Z (Z.of_nat 0)) with 0. ring.
  - change (Nat.iter (S k) Particle.update p)
      with (Particle.update (Nat.iter k Particle.update p)).
    destruct (update_keeps (Nat.iter k Particle.update p)) as (Hd & _ & _ & _ & Ha).
    split; [congruence|]. rewrite Ha, IHa, IHd.
    rewrite Nat2Z.inj_succ, <- Z.add_1_r, inject_Z_plus.
    change (inject_Z 1) with 1. ring.
Qed.

Lemma fresh_lifetime (p : Particle.t) (k : nat) :
  fresh p ->
  ((k <= 39)%nat -> alive (Nat.iter k Particle.update p))
  /\ ((125 <= k)%nat -> ~ alive (Nat.iter k Particle.update p)).
Proof.
  intros [Halpha [Hlo Hhi]].
  destruct (iter_update_alpha k p) as [_ Ha].
  set (K := inject_Z (Z.of_nat k)) in *.
  assert (0 <= K) as HK0.
  { unfold K. change 0 with (inject_Z 0). rewrite <- Zle_Qle. lia. }
  rewrite !alive_alpha, Ha, Halpha. split.
  - intros Hk.
    assert (K <= 39) as HK.
    { unfold K. change 39 with (inject_Z 39). rewrite <- Zle_Qle. lia. }
    assert (K * Particle.decay p <= 39 * Particle.decay p)
      by (apply Qmult_le_compat_r; lra).
    lra.
  - intros Hk.
    assert (125 <= K) as HK.
    { unfold K. change 125 with (inject_Z 125). rewrite <- Zle_Qle. lia. }
    assert (125 * Particle.decay p <= K * Particle.decay p)
      by (apply Qmult_le_compat_r; lra).
    apply Qle_not_lt. lra.
Qed.

(** X2.  Whatever the style, every particle of an accepted explosion starts
    at the requested point with alpha 1 and friction 0.98. *)
Theorem batch_starts_at_spawn_point who x y w c :
  canvas w = Some c ->
  (length (particles w) <= MAX_PARTICLES)%nat ->
  Forall (fun p =>
            Particle.x p = x /\ Particle.y p = y
            /\ Particle.alpha p = 1 /\ Particle.friction p = 0.98)
    (appended who x y w).
Proof using random_range.
  intros Hc Hroom.
  destruct (appended_accepted who x y w c Hc Hroom) as [_ ->].
  unfold spawnAll. apply spawnLoop_Forall; [|constructor].
  intros k'.
  destruct (spawnParticle_common x y (planOf w) k') as (Hx & Hy & Ha & Hf & _).
  done.
Qed.

(** X3.  A particle of an accepted explosion is still alive after each of
    its first 39 updates, whatever its style, and dead after 125 updates or
    more.  (The decay is below 0.025 and at least 0.008; 39 updates leave
    an alpha of more than 1 - 39 * 0.025.) *)
Theorem batch_particles_live_39_to_125_frames who x y w c :
  canvas w = Some c ->
  (length (particles w) <= MAX_PARTICLES)%nat ->
  Forall (fun p =>
            forall k : nat,
              ((k <= 39)%nat -> alive (Nat.iter k Particle.update p))
              /\ ((125 <= k)%nat ->
                  Particle.isDead (Nat.iter k Particle.update p) = true))
    (appended who x y w).
Proof using random_range.
  intros Hc Hroom.
  destruct (accepted_batch_fresh who x y w c Hc Hroom) as (_ & _ & Hfresh).
  eapply Forall_impl; [exact Hfresh|]. intros p Hp k.
  destruct (fresh_lifetime p k Hp) as [Hlive Hdead].
  split; [exact Hlive|]. intros Hk. specialize (Hdead Hk).
  unfold alive in Hdead. by destruct (Particle.isDead _).
Qed.

(** Lifts a property of every fresh particle of a plan to the batch of an
    accepted call. *)
Lemma appended_Forall (P : Particle.t -> Prop) who x y w c :
  canvas w = Some c ->
  (length (particles w) <= MAX_PARTICLES)%nat ->
  (forall k, P (spawnParticle x y (planOf w) k).1) ->
  Forall P (appended who x y w).
Proof.
  intros Hc Hroom HP.
  destruct (appended_accepted who x y w c Hc Hroom) as [_ ->].
  unfold spawnAll. by apply spawnLoop_Forall; [|constructor].
Qed.

Lemma planOf_power (w : World) : 5 <= plan_explosionPower (planOf w) < 14.
Proof using random_range. apply (planExplosion_ranges (cursor w)). Qed.

Lemma spawnParticle_willow x y plan k :
  plan_style plan = willow ->
  0 <= plan_explosionPower plan ->
  let p := (spawnParticle x y plan k).1 in
  let paletteHue := palette_hue (plan_palette plan) in
  (exists angle speed : Q,
      Particle.vx p = cos angle * speed
      /\ Particle.vy p = sin angle * speed
      /\ plan_explosionPower plan * 0.3 <= speed
      /\ speed <= plan_explosionPower plan * 0.7)
  /\ Particle.gravity p = 0.08
  /\ 0.008 <= Particle.decay p < 0.015
  /\ (inject_Z paletteHue - 15 <= Particle.hue p <= inject_Z paletteHue + 15
      \/ Particle.hue p = inject_Z (Z.rem (paletteHue + 180) 360))
  /\ 45 <= Particle.lightness p < 65.
Proof using random_range.
  destruct plan as [pal style r cnt pow base].
  cbn [plan_style plan_explosionPower plan_palette].
  intros -> Hpow. run_rand. particle_simpl.
  match goal with
  | |- context [if Qltb 0.7 (random ?n) then _ else _] =>
      destruct (Qltb 0.7 (random n))
  end;
    particle_simpl; random_bounds;
    (split; [eexists _, _; split; [reflexivity|]; split; [reflexivity|];
             match goal with
             | |- context [pow * (random ?n * (0.7 - 0.3) + 0.3)] =>
                 assert (0 <= pow * (random n * (0.7 - 0.3)))
                   by (apply Qmult_le_0_compat; lra);
                 assert (pow * (random n * (0.7 - 0.3)) <= pow * (0.7 - 0.3))
                   by (apply Qmult_le_compat_nonneg; split; lra)
             end; split; lra|]);
    (split; [reflexivity|]); (split; [lra|]);
    (split; [first [by right | left; lra] | lra]).
Qed.

(** X4.  In a willow-style batch every particle moves at a speed between
    0.3 and 0.7 times the rolled power, falls with gravity 0.08, decays by a
    value in [0.008, 0.015), and its hue is either within 15 degrees of the
    palette hue or exactly the complementary hue [(hue + 180) % 360]. *)
Theorem willow_batch_droops_and_flips_hue who x y w c :
  canvas w = Some c ->
  (length (particles w) <= MAX_PARTICLES)%nat ->
  plan_style (planOf w) = willow ->
  Forall (fun p =>
            (exists angle speed : Q,
                Particle.vx p = cos angle * speed
                /\ Particle.vy p = sin angle * speed
                /\ plan_explosionPower (planOf w) * 0.3 <= speed
                /\ speed <= plan_explosionPower (planOf w) * 0.7)
            /\ Particle.gravity p = 0.08
            /\ 0.008 <= Particle.decay p < 0.015
            /\ (inject_Z (palette_hue (plan_palette (planOf w))) - 15
                  <= Particle.hue p
                  <= inject_Z (palette_hue (plan_palette (planOf w))) + 15
                \/ Particle.hue p =
                     inject_Z (Z.rem (palette_hue (plan_palette (planOf w)) + 180)
                                 360))
            /\ 45 <= Particle.lightness p < 65)
    (appended who x y w).
Proof using random_range.
  intros Hc Hroom Hstyle.
  apply (appended_Forall _ who x y w c Hc Hroom). intros k.
  apply (spawnParticle_willow x y (planOf w) k Hstyle).
  pose proof (planOf_power w). lra.
Qed.

Lemma spawnParticle_burst x y plan k :
  plan_style plan = burst ->
  0 <= plan_explosionPower plan ->
  let p := (spawnParticle x y plan k).1 in
  (exists angle speed : Q,
      Particle.vx p = cos angle * speed
      /\ Particle.vy p = sin angle * speed
      /\ 0 <= speed
      /\ speed <= plan_explosionPower plan * 1.8)
  /\ Particle.gravity p = 0.04
  /\ 0.01 <= Particle.decay p < 0.02
  /\ 45 <= Particle.lightness p < 68.
Proof using random_range.
  destruct plan as [pal style r cnt pow base].
  cbn [plan_style plan_explosionPower plan_palette].
  intros -> Hpow. run_rand. particle_simpl.
  match goal with
  | |- context [if Qltb 0.7 (random ?n) then _ else _] =>
      destruct (Qltb 0.7 (random n))
  end;
    particle_simpl; random_bounds;
    (split; [eexists _, _; split; [reflexivity|]; split; [reflexivity|];
             match goal with
             | |- context [random ?n * pow] =>
                 assert (0 <= random n * pow)
                   by (apply Qmult_le_0_compat; lra);
                 assert (random n * pow <= 1 * pow)
                   by (apply Qmult_le_compat_r; lra)
             end; split; lra|]);
    (split; [reflexivity|]); split; lra.
Qed.

(** X5.  In a burst-style batch the speed of a particle is at most 1.8
    times the rolled power (the base speed, below the power, is multiplied
    by 1.8 for some particles); gravity and decay are the defaults and the
    lightness lies in [45, 68). *)
Theorem burst_batch_speed_and_lightness who x y w c :
  canvas w = Some c ->
  (length (particles w) <= MAX_PARTICLES)%nat ->
  plan_style (planOf w) = burst ->
  Forall (fun p =>
            (exists angle speed : Q,
                Particle.vx p = cos angle * speed
                /\ Particle.vy p = sin angle * speed
                /\ 0 <= speed
                /\ speed <= plan_explosionPower (planOf w) * 1.8)
            /\ Particle.gravity p = 0.04
            /\ 0.01 <= Particle.decay p < 0.02
            /\ 45 <= Particle.lightness p < 68)
    (appended who x y w).
Proof using random_range.
  intros Hc Hroom Hstyle.
  apply (appended_Forall _ who x y w c Hc Hroom). intros k.
  apply (spawnParticle_burst x y (planOf w) k Hstyle).
  pose proof (planOf_power w). lra.
Qed.

Lemma spawnParticle_chrysanthemum x y plan k :
  plan_style plan = chrysanthemum ->
  0 <= plan_explosionPower plan ->
  let p := (spawnParticle x y plan k).1 in
  (exists angle speed : Q,
      Particle.vx p = cos angle * speed
      /\ Particle.vy p = sin angle * speed
      /\ plan_explosionPower plan * 0.5 <= speed
      /\ speed <= plan_explosionPower plan * 1.0)
  /\ Particle.gravity p = 0.04
  /\ 0.01 <= Particle.decay p < 0.02
  /\ 45 <= Particle.lightness p < 70.
Proof using random_range.
  destruct plan as [pal style r cnt pow base].
  cbn [plan_style plan_explosionPower plan_palette].
  intros -> Hpow. run_rand. particle_simpl.
  match goal with
  | |- context [if Qltb 0.7 (random ?n) then _ else _] =>
      destruct (Qltb 0.7 (random n))
  end;
    run_rand; particle_simpl; random_bounds;
    (split; [eexists _, _; split; [reflexivity|]; split; [reflexivity|];
             match goal with
             | |- context [pow * (random ?n * (1.0 - 0.5) + 0.5)] =>
                 assert (0 <= pow * (random n * (1.0 - 0.5)))
                   by (apply Qmult_le_0_compat; lra);
                 assert (pow * (random n * (1.0 - 0.5)) <= pow * (1.0 - 0.5))
                   by (apply Qmult_le_compat_nonneg; split; lra)
             end; split; lra|]);
    (split; [reflexivity|]); split; lra.
Qed.

(** X6.  In a chrysanthemum-style batch every particle moves at a speed
    between 0.5 and 1.0 times the rolled power, with the default gravity
    and decay, and its lightness lies in [45, 70). *)
Theorem chrysanthemum_batch_speed_and_lightness who x y w c :
  canvas w = Some c ->
  (length (particles w) <= MAX_PARTICLES)%nat ->
  plan_style (planOf w) = chrysanthemum ->
  Forall (fun p =>
            (exists angle speed : Q,
                Particle.vx p = cos angle * speed
                /\ Particle.vy p = sin angle * speed
                /\ plan_explosionPower (planOf w) * 0.5 <= speed
                /\ speed <= plan_explosionPower (planOf w) * 1.0)
            /\ Particle.gravity p = 0.04
            /\ 0.01 <= Particle.decay p < 0.02
            /\ 45 <= Particle.lightness p < 70)
    (appended who x y w).
Proof using random_range.
  intros Hc Hroom Hstyle.
  apply (appended_Forall _ who x y w c Hc Hroom). intros k.
  apply (spawnParticle_chrysanthemum x y (planOf w) k Hstyle).
  pose proof (planOf_power w). lra.
Qed.

(** * Further properties of the finale *)

Lemma nextRandom_log w : triggerLog (nextRandom w).2 = triggerLog w.
Proof. reflexivity. Qed.

Lemma foldl_log_length {A : Type} (body : World -> A -> World) (l : list A) w :
  (forall w a, length (triggerLog (body w a)) = S (length (triggerLog w))) ->
  length (triggerLog (foldl body w l)) = (length (triggerLog w) + length l)%nat.
Proof.
  intros Hbody. revert w. induction l as [|a l IH]; intros w.
  - cbn. lia.
  - cbn [foldl length]. rewrite IH, Hbody. lia.
Qed.

(** Names the world after a call of [Math.random()] in a pattern. *)
Ltac step_random w :=
  change (nextRandom w) with (random (cursor w), (nextRandom w).2);
  cbv beta iota zeta.

Lemma choreography_log_length phase W H w :
  length (triggerLog (choreography phase W H w)) =
    (length (triggerLog w) + patternCalls phase)%nat.
Proof.
  unfold choreography, patternCalls.
  destruct (phase =? 0)%Z; [|destruct (phase =? 1)%Z;
    [|destruct (phase =? 2)%Z; [|destruct (phase =? 3)%Z;
      [|destruct (phase =? 4)%Z]]]].
  - unfold patternSides. step_random w.
    rewrite !triggerFirework_log, !length_app, nextRandom_log. cbn [length]. lia.
  - unfold patternWave. rewrite foldl_log_length; [reflexivity|].
    intros w0 _. step_random w0.
    set (w1 := (nextRandom w0).2). step_random w1. subst w1.
    rewrite triggerFirework_log, length_app, !nextRandom_log. cbn [length]. lia.
  - unfold patternCascade. step_random w.
    set (w1 := (nextRandom w).2). step_random w1. subst w1.
    rewrite !triggerFirework_log, !length_app, !nextRandom_log. cbn [length]. lia.
  - unfold patternCross. cbv zeta.
    rewrite !triggerFirework_log, !length_app. cbn [length]. lia.
  - unfold patternCircle. cbv zeta. rewrite foldl_log_length; [reflexivity|].
    intros w0 i. rewrite triggerFirework_log, length_app. cbn [length]. lia.
  - unfold patternChaos. rewrite foldl_log_length; [reflexivity|].
    intros w0 _. step_random w0.
    set (w1 := (nextRandom w0).2). step_random w1. subst w1.
    rewrite triggerFirework_log, length_app, !nextRandom_log. cbn [length]. lia.
Qed.

(** What the input logic of a finale frame does to the trace, the spawn
    time and the pool, by the time since the last choreography. *)
Lemma inputLogic_finale_cadence now c w :
  bothOpen w ->
  let w' := inputLogic now c w in
  ((now - lastSpawn (grandFinale w) <= 15)%Z ->
     triggerLog w' = triggerLog w
     /\ lastSpawn (grandFinale w') = lastSpawn (grandFinale w)
     /\ cursor w' = cursor w /\ particles w' = particles w)
  /\ ((15 < now - lastSpawn (grandFinale w))%Z ->
      length (triggerLog w') =
        (length (triggerLog w) + patternCalls (Z.rem (now / 400) 6))%nat
      /\ lastSpawn (grandFinale w') = now).
Proof.
  intros Hboth. cbv zeta. unfold inputLogic. cbv zeta. cbn [foldl].
  apply bothOpen_test in Hboth. rewrite Hboth.
  set (w1 := finaleBlock now c true w).
  pose proof (laneBody_spec now c true w1 Left) as
    (_ & _ & _ & Hgf1 & _ & _ & Hquiet1). cbv zeta in *.
  destruct (Hquiet1 (or_introl eq_refl)) as (Hlog1 & _ & Hpool1 & Hcur1).
  set (w2 := laneBody now c true w1 Left) in *.
  pose proof (laneBody_spec now c true w2 Right) as
    (_ & _ & _ & Hgf2 & _ & _ & Hquiet2). cbv zeta in *.
  destruct (Hquiet2 (or_introl eq_refl)) as (Hlog2 & _ & Hpool2 & Hcur2).
  rewrite Hlog2, Hlog1, Hgf2, Hgf1, Hcur2, Hcur1, Hpool2, Hpool1.
  subst w1. unfold finaleBlock. cbv zeta. world_simpl. cbn [andb].
  split.
  - intros Hsoon. apply Z.ltb_ge in Hsoon. rewrite Hsoon. by world_simpl.
  - intros Hlate. apply Z.ltb_lt in Hlate. rewrite Hlate. world_simpl.
    split; [|reflexivity]. by rewrite choreography_log_length.
Qed.

(** The trace after the input logic of a finale frame whose choreography
    runs is the trace after the choreography. *)
Lemma inputLogic_finale_log now c w :
  bothOpen w -> (15 < now - lastSpawn (grandFinale w))%Z ->
  triggerLog (inputLogic now c w) =
    triggerLog
      (choreography (Z.rem (now / 400) 6)
         (inject_Z (width c)) (inject_Z (height c))
         (set_grandFinale (mkFinale true (lastSpawn (grandFinale w))) w)).
Proof.
  intros Hboth Hlate. unfold inputLogic. cbv zeta. cbn [foldl].
  apply bothOpen_test in Hboth. rewrite Hboth.
  set (w1 := finaleBlock now c true w).
  pose proof (laneBody_spec now c true w1 Left) as
    (_ & _ & _ & _ & _ & _ & Hquiet1). cbv zeta in *.
  destruct (Hquiet1 (or_introl eq_refl)) as (Hlog1 & _).
  set (w2 := laneBody now c true w1 Left) in *.
  pose proof (laneBody_spec now c true w2 Right) as
    (_ & _ & _ & _ & _ & _ & Hquiet2). cbv zeta in *.
  destruct (Hquiet2 (or_introl eq_refl)) as (Hlog2 & _).
  rewrite Hlog2, Hlog1.
  subst w1. unfold finaleBlock. cbv zeta. world_simpl. cbn [andb].
  apply Z.ltb_lt in Hlate. rewrite Hlate. by world_simpl.
Qed.

Lemma foldl_log_fmap {A : Type} (f : A -> TriggerCall)
    (body : World -> A -> World) (l : list A) w :
  (forall w a, triggerLog (body w a) = triggerLog w ++ [f a]) ->
  triggerLog (foldl body w l) = triggerLog w ++ (f <$> l).
Proof.
  intros Hbody. revert w. induction l as [|a l IH]; intros w.
  - cbn. by rewrite app_nil_r.
  - cbn [foldl]. rewrite IH, Hbody, <- app_assoc. reflexivity.
Qed.

(** A loop whose body makes one call, which depends on the number of draws
    made before the iteration. *)
Lemma foldl_log_cursors {A : Type} (f : nat -> TriggerCall)
    (body : World -> A -> World) (l : list A) w :
  (forall w a, triggerLog (body w a) = triggerLog w ++ [f (cursor w)]) ->
  exists ks,
    length ks = length l
    /\ head ks = match l with [] => None | _ :: _ => Some (cursor w) end
    /\ triggerLog (foldl body w l) = triggerLog w ++ (f <$> ks).
Proof.
  intros Hbody. revert w. induction l as [|a l IH]; intros w.
  - exists []. cbn. by rewrite app_nil_r.
  - destruct (IH (body w a)) as (ks & Hlen & _ & Hlog).
    exists (cursor w :: ks). cbn [foldl length head fmap list_fmap].
    rewrite Hlen, Hlog, Hbody, <- app_assoc. done.
Qed.

Lemma patternSides_log W H w :
  triggerLog (patternSides W H w)
  = triggerLog w ++ sidesCalls W H (random (cursor w)).
Proof.
  unfold patternSides, sidesCalls. step_random w.
  rewrite !triggerFirework_log, nextRandom_log, <- !app_assoc. reflexivity.
Qed.

Lemma patternCascade_log W H w :
  triggerLog (patternCascade W H w)
  = triggerLog w
    ++ cascadeCalls W H (random (cursor w)) (random (S (cursor w))).
Proof.
  unfold patternCascade, cascadeCalls. step_random w.
  set (w1 := (nextRandom w).2). step_random w1. subst w1.
  rewrite !triggerFirework_log, !nextRandom_log, <- !app_assoc. reflexivity.
Qed.

Lemma patternCross_log W H w :
  triggerLog (patternCross W H w) = triggerLog w ++ crossCalls W H.
Proof.
  unfold patternCross, crossCalls. cbv zeta.
  rewrite !triggerFirework_log, <- !app_assoc. reflexivity.
Qed.

Lemma patternWave_log W H w :
  exists ks,
    length ks = 6%nat /\ head ks = Some (cursor w)
    /\ triggerLog (patternWave W H w) = triggerLog w ++ (waveCall W H <$> ks).
Proof.
  unfold patternWave.
  apply (foldl_log_cursors (waveCall W H) _ (seq 0 6) w).
  intros w0 _. step_random w0.
  set (w1 := (nextRandom w0).2). step_random w1. subst w1.
  by rewrite triggerFirework_log, !nextRandom_log.
Qed.

Lemma patternChaos_log W H w :
  exists ks,
    length ks = 8%nat /\ head ks = Some (cursor w)
    /\ triggerLog (patternChaos W H w) = triggerLog w ++ (chaosCall W H <$> ks).
Proof.
  unfold patternChaos.
  apply (foldl_log_cursors (chaosCall W H) _ (seq 0 8) w).
  intros w0 _. step_random w0.
  set (w1 := (nextRandom w0).2). step_random w1. subst w1.
  by rewrite triggerFirework_log, !nextRandom_log.
Qed.

(** The calls the choreography adds to the trace are those of the pattern
    of the phase. *)
Lemma choreography_trace phase W H w :
  exists calls,
    triggerLog (choreography phase W H w) = triggerLog w ++ calls
    /\ phaseCalls phase W H (cursor w) calls.
Proof.
  unfold choreography, phaseCalls.
  destruct (phase =? 0)%Z; [|destruct (phase =? 1)%Z;
    [|destruct (phase =? 2)%Z; [|destruct (phase =? 3)%Z;
      [|destruct (phase =? 4)%Z]]]].
  - eexists. split; [apply patternSides_log | reflexivity].
  - destruct (patternWave_log W H w) as (ks & Hlen & Hhead & Hlog).
    exists (waveCall W H <$> ks). split; [exact Hlog|by exists ks].
  - eexists. split; [apply patternCascade_log | reflexivity].
  - eexists. split; [apply patternCross_log | reflexivity].
  - eexists. split; [|reflexivity].
    unfold patternCircle. cbv zeta. apply foldl_log_fmap.
    intros w0 i. by rewrite triggerFirework_log.
  - destruct (patternChaos_log W H w) as (ks & Hlen & Hhead & Hlog).
    exists (chaosCall W H <$> ks). split; [exact Hlog|by exists ks].
Qed.

(** X7.  In a finale frame the choreography runs only when more than 15 ms
    have passed since it last ran: if not, the frame makes no call, draws no
    random number and only ages the pool; if so, the calls of the frame are
    exactly those of the pattern of the phase [floor(now / 400) % 6], in
    order and with the coordinates of the source (the sides for 0, the wave
    for 1, the cascade for 2, the cross for 3, the circle for 4, chaos
    otherwise), between 5 and 8 of them, and the time is recorded. *)
Theorem finale_choreography_cadence now w c :
  canvas w = Some c -> has2d c = true ->
  bothOpen w ->
  ((now - lastSpawn (grandFinale w) <= 15)%Z ->
     newCalls w (draw now w) = []
     /\ lastSpawn (grandFinale (draw now w)) = lastSpawn (grandFinale w)
     /\ cursor (draw now w) = cursor w
     /\ particles (draw now w) =
          filter alive (Particle.update <$> particles w))
  /\ ((15 < now - lastSpawn (grandFinale w))%Z ->
      length (newCalls w (draw now w)) = patternCalls (Z.rem (now / 400) 6)
      /\ (5 <= length (newCalls w (draw now w)) <= 8)%nat
      /\ lastSpawn (grandFinale (draw now w)) = now
      /\ phaseCalls (Z.rem (now / 400) 6)
           (inject_Z (width c)) (inject_Z (height c)) (cursor w)
           (newCalls w (draw now w))).
Proof.
  intros Hc H2d Hboth. rewrite (draw_mounted now w c Hc H2d).
  destruct (inputLogic_finale_cadence now c w Hboth) as [Hsoon Hlate].
  cbv zeta in *. split.
  - intros Hs. destruct (Hsoon Hs) as (Hlog & Hspawn & Hcur & Hpool).
    rewrite integrate_particles, Hpool.
    rewrite (integrate_rest (inputLogic now c w)). world_simpl.
    split_and!; try done.
    unfold newCalls. world_simpl. by rewrite Hlog, drop_all.
  - intros Hl. destruct (Hlate Hl) as (Hlen & Hspawn).
    assert (length (newCalls w (integrate (inputLogic now c w))) =
              patternCalls (Z.rem (now / 400) 6)) as Hcount.
    { unfold newCalls. rewrite integrate_log, length_drop, Hlen. lia. }
    assert (phaseCalls (Z.rem (now / 400) 6)
              (inject_Z (width c)) (inject_Z (height c)) (cursor w)
              (newCalls w (integrate (inputLogic now c w)))) as Htrace.
    { unfold newCalls.
      rewrite integrate_log, (inputLogic_finale_log now c w Hboth Hl).
      set (w0 := set_grandFinale _ w).
      destruct (choreography_trace (Z.rem (now / 400) 6)
                  (inject_Z (width c)) (inject_Z (height c)) w0)
        as (calls & -> & Hcalls).
      change (triggerLog w0) with (triggerLog w).
      by rewrite drop_app_length. }
    split; [exact Hcount|]. split; [|split; [|exact Htrace]].
    + rewrite Hcount. unfold patternCalls. repeat destruct (_ =? _)%Z; lia.
    + rewrite (integrate_rest (inputLogic now c w)). by world_simpl.
Qed.

(** * Further properties of the trigger *)

(** Whatever the mode, a call made for a lane in a frame comes from a rising
    edge of that lane in a frame that is not a finale frame. *)
Lemma lane_call_needs_edge now w c hand x y :
  canvas w = Some c -> has2d c = true ->
  mkCall (Some hand) x y ∈ newCalls w (draw now w) ->
  ~ bothOpen w /\ risingEdge now w hand.
Proof.
  intros Hc H2d Hel.
  destruct (decide (bothOpen w)) as [Hboth|Hnormal].
  - exfalso. rewrite (draw_mounted now w c Hc H2d) in Hel.
    destruct (inputLogic_finale now c w Hboth) as [(calls & Hlog & Hnone) _].
    rewrite (newCalls_app w _ calls) in Hel by (by rewrite integrate_log).
    rewrite Forall_forall in Hnone. by specialize (Hnone _ Hel).
  - split; [done|].
    destruct (normal_frame_calls now w c Hc H2d Hnormal) as [Hcalls _].
    rewrite Hcalls in Hel.
    apply list_elem_of_fmap in Hel as (hand' & Heq & Hel).
    apply list_elem_of_filter in Hel as [Hedge _].
    assert (hand = hand') as <-
      by (unfold mirroredCall in Heq; by injection Heq).
    done.
Qed.

(** The trace only grows, and a frame's effect on a lane's timestamp. *)
Lemma draw_log_grows now w :
  exists calls, triggerLog (draw now w) = triggerLog w ++ calls.
Proof.
  unfold draw. destruct (canvas w) as [c|] eqn:Hc;
    [|exists []; by rewrite app_nil_r].
  destruct (has2d c) eqn:H2d; [|exists []; by rewrite app_nil_r].
  rewrite integrate_log.
  destruct (decide (bothOpen w)) as [Hboth|Hnormal].
  - destruct (inputLogic_finale now c w Hboth) as [(calls & Hlog & _) _].
    by exists calls.
  - destruct (inputLogic_normal now c w Hnormal) as [Hlog _]. eauto.
Qed.

Lemma newCalls_split w w1 w2 calls1 calls2 :
  triggerLog w1 = triggerLog w ++ calls1 ->
  triggerLog w2 = triggerLog w1 ++ calls2 ->
  triggerLog w2 = triggerLog w ++ (calls1 ++ newCalls w1 w2)
  /\ newCalls w1 w2 = calls2.
Proof.
  intros E1 E2. rewrite (newCalls_app w1 w2 calls2 E2).
  by rewrite E2, E1, <- app_assoc.
Qed.

(** X8.  Debounce: from a world in which a lane last triggered at time [t],
    through any tracker callbacks, resizes and frames up to time [t + 250],
    that lane makes no call and its last-trigger time stays [t]. *)
Theorem lane_silent_within_250ms t hand w w' :
  lane_get hand (lastTriggerTime w) = t ->
  Within (t + 250) w w' ->
  lane_get hand (lastTriggerTime w') = t
  /\ Forall (fun call => call_lane call <> Some hand) (newCalls w w').
Proof.
  intros Ht Hrun.
  assert (lane_get hand (lastTriggerTime w') = t
          /\ exists calls, triggerLog w' = triggerLog w ++ calls
                           /\ Forall (fun call => call_lane call <> Some hand) calls)
    as (Hlast & calls & Hlog & Hcalls).
  { induction Hrun as [|results w' _ IH|iw ih w' _ IH|now w' _ IH Hnow].
    - split; [done|]. exists []. by rewrite app_nil_r.
    - destruct (onResults_kept results w') as (_ & _ & _ & _ & -> & _ & _ & _ & ->).
      exact IH.
    - unfold onResize. by destruct (canvas w').
    - destruct IH as (Hlast & calls & Hlog & Hcalls).
      unfold draw. destruct (canvas w') as [c|] eqn:Hc; [|eauto].
      destruct (has2d c) eqn:H2d; [|eauto].
      rewrite integrate_log, integrate_lastTriggerTime.
      destruct (decide (bothOpen w')) as [Hboth|Hnormal].
      + destruct (inputLogic_finale now c w' Hboth) as
          [(calls' & Hlog' & Hnone) ->].
        split; [done|]. exists (calls ++ calls').
        rewrite Hlog', Hlog, <- app_assoc. split; [done|].
        apply Forall_app. split; [done|].
        eapply Forall_impl; [exact Hnone|]. cbn. by intros call ->.
      + destruct (inputLogic_normal now c w' Hnormal) as [Hlog' Hlast'].
        assert (~ risingEdge now w' hand) as Hno.
        { intros (_ & _ & Hlate). rewrite Hlast in Hlate. lia. }
        split; [by rewrite Hlast', decide_False|].
        eexists. rewrite Hlog', Hlog, <- app_assoc. split; [reflexivity|].
        apply Forall_app. split; [done|].
        apply Forall_forall. intros call Hel.
        apply list_elem_of_fmap in Hel as (hand' & -> & Hel).
        apply list_elem_of_filter in Hel as [Hedge _].
        unfold mirroredCall. cbn [call_lane]. intros [= ->]. done. }
  split; [done|]. by rewrite (newCalls_app w w' calls Hlog).
Qed.

(** X9.  Edges are taken frame by frame: a lane that was OPEN in a frame
    makes no call in the next frame, whatever the tracker reported in
    between (a hand held open does not fire again, and a hand closed and
    reopened between two frames is missed). *)
Theorem lane_open_in_last_frame_does_not_fire now w c hand w2 now2 :
  canvas w = Some c -> has2d c = true ->
  lane_get hand (handState w) = OPEN ->
  Callbacks (draw now w) w2 ->
  Forall (fun call => call_lane call <> Some hand)
    (newCalls w2 (draw now2 w2)).
Proof.
  intros Hc H2d Hopen Hcb.
  assert (prevHandState w2 = handState w /\ canvas w2 = Some c) as [Hprev Hc2].
  { apply Callbacks_kept in Hcb as (Hcv & _ & _ & Hps & _).
    rewrite Hps, Hcv, (draw_mounted now w c Hc H2d), integrate_rest.
    world_simpl.
    destruct (inputLogic_hands now c w) as (Hcv' & _ & _ & Hps' & _).
    cbv zeta in *. split; congruence. }
  apply Forall_forall. intros [who x y] Hel. cbn [call_lane]. intros ->.
  destruct (lane_call_needs_edge now2 w2 c hand x y Hc2 H2d Hel)
    as [_ (_ & Hedge & _)].
  apply Hedge. by rewrite Hprev.
Qed.

(** X10.  A frame without any trigger (the lanes not both OPEN, no lane on a
    rising edge) only ages the pool: it draws no random number, plays no
    cue, makes no call, clears the finale flag and stores the lane states
    as previous states. *)
Theorem idle_frame_only_ages_pool now w c :
  canvas w = Some c -> has2d c = true ->
  ~ bothOpen w ->
  (forall hand, ~ risingEdge now w hand) ->
  draw now w =
    set_particles (filter alive (Particle.update <$> particles w))
      (set_prevHandState (handState w)
         (set_grandFinale (mkFinale false (lastSpawn (grandFinale w))) w)).
Proof.
  intros Hc H2d Hnormal Hidle.
  rewrite (draw_mounted now w c Hc H2d).
  assert (inputLogic now c w =
            set_prevHandState (handState w)
              (set_grandFinale (mkFinale false (lastSpawn (grandFinale w))) w))
    as ->.
  { unfold inputLogic. cbv zeta. cbn [foldl].
    rewrite <- bothOpen_test, not_true_iff_false in Hnormal. rewrite Hnormal.
    unfold finaleBlock. cbv zeta. cbn [andb].
    unfold laneBody. cbv zeta. cbn [negb]. world_simpl.
    pose proof (Hidle Left) as HL. pose proof (Hidle Right) as HR.
    rewrite <- edge_test, not_true_iff_false in HL, HR.
    world_simpl. rewrite HL. world_simpl. rewrite HR.
    destruct w as [cv au ps [sl sr] [pl pr] hp lt gf cu ec tl]. reflexivity. }
  rewrite integrate_rest, integrate_particles. reflexivity.
Qed.

(** * Further properties of the tracker callback *)

Lemma readHand_wrist landmarks wrist newState :
  readHand landmarks = Some (wrist, newState) -> landmarks !! 0%nat = Some wrist.
Proof.
  unfold readHand. destruct (landmarks !! 0%nat) as [wrist0|]; [|done].
  cbn [mbind option_bind].
  destruct (foldl _ _ _); cbn [mbind option_bind]; [|done].
  by intros [= -> _].
Qed.

Lemma readHand_Some landmarks r :
  readHand landmarks = Some r -> (21 <= length landmarks)%nat.
Proof.
  unfold readHand, tips, addTipDistance. cbn [foldl].
  destruct (landmarks !! 0%nat) as [wrist|]; [|done]. cbn [mbind option_bind].
  destruct (landmarks !! 8%nat); [|done]. cbn [mbind option_bind].
  destruct (landmarks !! 12%nat); [|done]. cbn [mbind option_bind].
  destruct (landmarks !! 16%nat); [|done]. cbn [mbind option_bind].
  destruct (landmarks !! 20%nat) eqn:H20; [|done].
  intros _. apply lookup_lt_Some in H20. lia.
Qed.

(** The scan, for positions, and for lanes it does not come across. *)
Lemma scanHands_pos hands : forall i handedness foundHands w,
  (i + length hands <= length handedness)%nat ->
  Forall (fun landmarks => (21 <= length landmarks)%nat) hands ->
  forall hand,
    lane_get hand
      (handPos (outcome_state (scanHands i hands handedness foundHands w)).2)
    = scannedPos hand (zip (drop i handedness) hands) w.
Proof.
  induction hands as [|landmarks rest IH];
    intros i handedness foundHands w Hlen Hwf hand.
  - rewrite zip_with_nil_r. reflexivity.
  - cbn [length] in Hlen. apply Forall_cons in Hwf as [Hwf1 Hwf].
    destruct (lookup_lt_is_Some_2 handedness i) as [label Hlabel]; [lia|].
    destruct (readHand_spec landmarks Hwf1) as (wrist & d & st & Hread & _).
    cbn [scanHands]. rewrite Hlabel. cbv zeta. rewrite Hread.
    rewrite IH by (done || lia).
    rewrite (drop_S _ _ _ Hlabel). cbn [zip zip_with].
    unfold scannedPos. cbn [lastObservation].
    destruct (lastObservation hand (zip (drop (S i) handedness) rest))
      as [later|] eqn:Hlater.
    { apply lastObservation_Some, elem_of_zip_r in Hlater.
      rewrite Forall_forall in Hwf. specialize (Hwf later Hlater).
      destruct (lookup_lt_is_Some_2 later 0) as [wrist' ->]; [lia | done]. }
    world_simpl. rewrite lane_get_set.
    destruct (decide (label = hand)) as [->|Hne].
    + rewrite decide_True by done. by rewrite (readHand_wrist _ _ _ Hread).
    + by rewrite decide_False.
Qed.

Lemma scanHands_untouched hands : forall i handedness foundHands w hand,
  (forall landmarks, (hand, landmarks) ∉ zip (drop i handedness) hands) ->
  let w' := (outcome_state (scanHands i hands handedness foundHands w)).2 in
  lane_get hand (handState w') = lane_get hand (handState w)
  /\ lane_get hand (handPos w') = lane_get hand (handPos w).
Proof.
  induction hands as [|landmarks rest IH];
    intros i handedness foundHands w hand Hno; cbv zeta; [done|].
  cbn [scanHands]. destruct (handedness !! i) as [label|] eqn:Hlabel; [|done].
  cbv zeta. destruct (readHand landmarks) as [[wrist newState]|]; [|done].
  rewrite (drop_S _ _ _ Hlabel) in Hno. cbn [zip zip_with] in Hno.
  assert (label <> hand) as Hne.
  { intros ->. apply (Hno landmarks). by left. }
  match goal with
  | |- context [scanHands (S i) rest handedness ?f ?w1] =>
      destruct (IH (S i) handedness f w1 hand) as [Hs Hp]
  end.
  { intros lm Hel. apply (Hno lm). by right. }
  rewrite Hs, Hp. world_simpl. rewrite !lane_get_set.
  by rewrite !decide_False.
Qed.

Lemma scanHands_returns hands : forall i handedness foundHands w r,
  scanHands i hands handedness foundHands w = Returned r ->
  (length hands <= length handedness - i)%nat
  /\ Forall (fun landmarks => (21 <= length landmarks)%nat) hands.
Proof.
  induction hands as [|landmarks rest IH]; intros i handedness foundHands w r.
  - intros _. cbn [length]. split; [lia | constructor].
  - cbn [scanHands].
    destruct (handedness !! i) as [label|] eqn:Hlabel; [|done].
    cbv zeta. destruct (readHand landmarks) as [[wrist newState]|] eqn:Hread;
      [|done].
    intros Hrest. apply IH in Hrest as [Hlen Hwf].
    apply lookup_lt_Some in Hlabel.
    cbn [length]. split; [lia|].
    constructor; [by eapply readHand_Some | done].
Qed.

Lemma clearMissing_pos foundHands w hand :
  handPos (clearMissing foundHands w hand) = handPos w.
Proof. unfold clearMissing. by destruct (bool_decide _). Qed.

(** The lane states and positions after a well-formed payload. *)
Lemma onResults_wellFormed hands handedness w :
  wellFormed hands handedness ->
  exists w',
    onResults (mkResults (Some hands) (Some handedness)) w = Returned w'
    /\ forall hand,
        lane_get hand (handState w') =
          match lastObservation hand (observations hands handedness) with
          | Some landmarks =>
              match readHand landmarks with
              | Some (_, newState) => newState
              | None => UNKNOWN
              end
          | None => UNKNOWN
          end
        /\ lane_get hand (handPos w') =
             scannedPos hand (observations hands handedness) w.
Proof.
  intros [Hlen Hwf].
  destruct (scanHands_spec hands 0 handedness ∅ w) as
    (found & w1 & Hscan & Hspec); [lia | done |].
  pose proof (scanHands_pos hands 0 handedness ∅ w) as Hpos.
  rewrite Hscan in Hpos. cbn [outcome_state snd] in Hpos.
  unfold onResults. cbn [multiHandLandmarks multiHandedness].
  rewrite Hscan. eexists. split; [reflexivity|].
  intros hand. destruct (Hspec hand) as [Hfound Hstate].
  rewrite drop_0 in Hfound, Hstate. fold (observations hands handedness) in *.
  split.
  - assert (lane_get hand
              (handState (foldl (clearMissing found) w1 [Left; Right])) =
            if decide (hand ∈ found) then lane_get hand (handState w1)
            else UNKNOWN) as ->.
    { cbn [foldl]. unfold clearMissing.
      destruct hand;
        repeat (case_bool_decide; world_simpl);
        repeat case_decide; try done. }
    rewrite Hstate. unfold scanned.
    destruct (lastObservation hand (observations hands handedness)) as [lm|].
    + rewrite decide_True; [done|]. apply Hfound. by right.
    + rewrite decide_False; [done|]. rewrite Hfound.
      intros [Hel|?]; [by apply elem_of_empty in Hel | done].
  - cbn [foldl]. rewrite !clearMissing_pos.
    rewrite (Hpos ltac:(lia) Hwf hand), drop_0. reflexivity.
Qed.

(** X11.  After a well-formed payload the position of a lane is the wrist
    of its last observation in the payload; a lane without an observation
    keeps the position it had, although its state is cleared. *)
Theorem tracker_positions_follow_wrist hands handedness w :
  wellFormed hands handedness ->
  exists w',
    onResults (mkResults (Some hands) (Some handedness)) w = Returned w'
    /\ forall hand,
        (forall landmarks wrist,
            lastObservation hand (observations hands handedness)
              = Some landmarks ->
            landmarks !! 0%nat = Some wrist ->
            lane_get hand (handPos w') =
              Point.mk (Point.x wrist) (Point.y wrist))
        /\ ((forall landmarks,
                (hand, landmarks) ∉ observations hands handedness) ->
            lane_get hand (handPos w') = lane_get hand (handPos w)
            /\ lane_get hand (handState w') = UNKNOWN).
Proof.
  intros Hwf.
  destruct (onResults_wellFormed hands handedness w Hwf) as (w' & Hrun & Hspec).
  exists w'. split; [exact Hrun|]. intros hand.
  destruct (Hspec hand) as [Hstate Hpos]. unfold scannedPos in Hpos. split.
  - intros landmarks wrist Hlast Hwrist. by rewrite Hpos, Hlast, Hwrist.
  - intros Hnone. apply lastObservation_None in Hnone.
    by rewrite Hpos, Hstate, Hnone.
Qed.

(** X12.  Only the latest payload counts for the lane states: after a
    well-formed payload they are the same whatever the world was before. *)
Theorem tracker_states_depend_on_latest_payload hands handedness w1 w2 :
  wellFormed hands handedness ->
  handState
    (outcome_state (onResults (mkResults (Some hands) (Some handedness)) w1))
  = handState
      (outcome_state (onResults (mkResults (Some hands) (Some handedness)) w2)).
Proof.
  intros Hwf.
  destruct (onResults_wellFormed hands handedness w1 Hwf) as (w1' & -> & Hspec1).
  destruct (onResults_wellFormed hands handedness w2 Hwf) as (w2' & -> & Hspec2).
  apply perLane_ext. intros hand. cbn [outcome_state].
  destruct (Hspec1 hand) as [-> _]. by destruct (Hspec2 hand) as [-> _].
Qed.

(** X13.  The callback runs to its end exactly on well-formed payloads; on
    any other payload that carries the two lists a [TypeError] leaves it
    before the missing hands are cleared, so that a lane without an
    observation keeps its state and its position. *)
Theorem tracker_throws_on_malformed_payload hands handedness w :
  ((exists w', onResults (mkResults (Some hands) (Some handedness)) w
               = Returned w')
   <-> wellFormed hands handedness)
  /\ forall w',
      onResults (mkResults (Some hands) (Some handedness)) w = Threw w' ->
      forall hand,
        (forall landmarks, (hand, landmarks) ∉ observations hands handedness) ->
        lane_get hand (handState w') = lane_get hand (handState w)
        /\ lane_get hand (handPos w') = lane_get hand (handPos w).
Proof.
  split.
  - split.
    + intros [w' Hrun]. unfold onResults in Hrun.
      cbn [multiHandLandmarks multiHandedness] in Hrun.
      destruct (scanHands 0 hands handedness ∅ w) as [r|[? ?]] eqn:Hscan;
        [|done].
      apply scanHands_returns in Hscan as [Hlen Hwf]. split; [lia | done].
    + intros Hwf.
      destruct (onResults_wellFormed hands handedness w Hwf) as (w' & Hrun & _).
      by exists w'.
  - intros w' Hrun hand Hnone.
    pose proof (scanHands_untouched hands 0 handedness ∅ w hand) as Hkeep.
    rewrite drop_0 in Hkeep. specialize (Hkeep Hnone). cbv zeta in Hkeep.
    unfold onResults in Hrun.
    cbn [multiHandLandmarks multiHandedness] in Hrun.
    destruct (scanHands 0 hands handedness ∅ w) as [[? ?]|[found w1]];
      [done|].
    injection Hrun as <-. exact Hkeep.
Qed.

(** * Rendering *)

(** The loop with the drawing in it computes what [cullLoop] computes, and
    draws the updated particles that are not dead. *)
Lemma renderLoop_spec fuel : forall i writeIdx arr drawn,
  (writeIdx <= i)%nat ->
  renderLoop fuel i writeIdx arr drawn =
    (cullLoop fuel i writeIdx arr,
     drawn ++ omap Particle_draw
                (Particle.update <$> take fuel (drop i arr))).
Proof.
  induction fuel as [|fuel IH]; intros i wi arr drawn Hidx.
  - cbn. by rewrite app_nil_r.
  - cbn [renderLoop cullLoop].
    destruct (arr !! i) as [p|] eqn:Hp.
    + assert (drop i arr = p :: drop (S i) arr) as Hdrop
        by (by apply drop_S).
      rewrite Hdrop. cbn [take fmap list_fmap omap list_omap]. cbv zeta.
      destruct (Particle.isDead (Particle.update p)) eqn:Hdead; cbn [negb];
        rewrite IH by lia; rewrite ?drop_insert_lt by lia;
        destruct (Particle_draw (Particle.update p));
        by rewrite <- ?app_assoc.
    + apply lookup_ge_None in Hp. rewrite drop_ge by lia.
      rewrite take_nil. cbn. by rewrite app_nil_r.
Qed.

Lemma Particle_draw_alive (p : Particle.t) :
  (alive p -> exists disc, Particle_draw p = Some disc)
  /\ (~ alive p -> Particle_draw p = None).
Proof.
  unfold alive, Particle.isDead, Particle_draw.
  destruct (Qle_bool (Particle.alpha p) 0); split; eauto; done.
Qed.

Lemma omap_draw_filter (l : list Particle.t) :
  omap Particle_draw l = omap Particle_draw (filter alive l)
  /\ length (omap Particle_draw l) = length (filter alive l).
Proof.
  induction l as [|p l [IH1 IH2]]; [done|].
  cbn [omap list_omap]. rewrite filter_cons.
  destruct (Particle_draw_alive p) as [Hlive Hdead].
  destruct (decide (alive p)) as [Hp|Hp].
  - destruct (Hlive Hp) as [disc Hdisc]. cbn [omap list_omap].
    rewrite Hdisc. split; [by rewrite IH1 | cbn [length]; by rewrite IH2].
  - by rewrite (Hdead Hp).
Qed.

Lemma discs_of_live_particles (l : list Particle.t) :
  Forall alive l ->
  Forall2 (fun p disc =>
             disc_x disc = Particle.x p /\ disc_y disc = Particle.y p
             /\ disc_radius disc = Particle.size p * Particle.alpha p
             /\ colour_a (disc_fill disc) = Particle.alpha p)
    l (omap Particle_draw l).
Proof.
  induction 1 as [|p l Hp _ IH]; [constructor|].
  cbn [omap list_omap].
  unfold Particle_draw at 1. unfold alive, Particle.isDead in Hp. rewrite Hp.
  constructor; [by split_and! | exact IH].
Qed.

(** X14.  The particle pass with its drawing: the world it leaves is the one
    [integrate] gives, and the discs it draws are, one for one and in
    order, those of the particles that stay in the pool: at the particle's
    position, with radius size times alpha and the particle's alpha as
    opacity.  A particle that dies in the frame is not drawn. *)
Theorem frame_draws_exactly_the_survivors (w : World) :
  (renderPass w).1 = integrate w
  /\ (renderPass w).2 = omap Particle_draw (particles (integrate w))
  /\ length (renderPass w).2 = length (particles (integrate w))
  /\ Forall2 (fun p disc =>
                disc_x disc = Particle.x p /\ disc_y disc = Particle.y p
                /\ disc_radius disc = Particle.size p * Particle.alpha p
                /\ colour_a (disc_fill disc) = Particle.alpha p)
       (particles (integrate w)) (renderPass w).2.
Proof.
  unfold renderPass. rewrite renderLoop_spec by lia.
  rewrite drop_0, firstn_all.
  assert (integrate w =
            (let '(writeIdx, arr) :=
               cullLoop (length (particles w)) 0 0 (particles w) in
             set_particles (take writeIdx arr) w)) as Hint by reflexivity.
  destruct (cullLoop _ _ _ _) as [writeIdx arr] eqn:Hcull.
  cbn [fst snd app]. rewrite Hint. clear Hint.
  change (particles (set_particles (take writeIdx arr) w))
    with (take writeIdx arr).
  assert (take writeIdx arr = filter alive (Particle.update <$> particles w))
    as Hkept.
  { pose proof (integrate_particles w) as Hp. unfold integrate in Hp.
    rewrite Hcull in Hp. exact Hp. }
  rewrite Hkept.
  destruct (omap_draw_filter (Particle.update <$> particles w)) as [Hd Hl].
  split_and!; [done | exact Hd | exact Hl |].
  rewrite Hd.
  apply discs_of_live_particles.
  apply Forall_forall. intros p Hel. by apply list_elem_of_filter in Hel as [].
Qed.

Lemma jsRem_360 (h : Q) :
  jsRem h 360 == Z.rem (Qnum h) (Zpos (Qden h) * 360) # Qden h.
Proof.
  destruct h as [n d]. unfold jsRem, Qtrunc.
  change ((n # d) / 360) with ((n * 1) # (d * 360)).
  cbn [Qnum Qden].
  pose proof (Z.quot_rem' n (Zpos d * 360)) as Hqr.
  rewrite Z.mul_1_r, Pos2Z.inj_mul.
  set (q := Z.quot n (Zpos d * 360)) in *.
  set (r := Z.rem n (Zpos d * 360)) in *.
  unfold Qeq, Qminus, Qplus, Qopp, Qmult, inject_Z. cbn [Qnum Qden].
  rewrite !Pos2Z.inj_mul. nia.
Qed.

Lemma jsRem_360_small (h : Q) : -360 < h < 360 -> jsRem h 360 == h.
Proof.
  intros [Hlo Hhi]. rewrite jsRem_360. destruct h as [n d].
  cbn [Qnum Qden]. unfold Qlt in Hlo, Hhi. cbn [Qnum Qden] in Hlo, Hhi.
  assert (Z.rem n (Zpos d * 360) = n) as ->; [|reflexivity].
  destruct (Z.le_gt_cases 0 n) as [Hn|Hn].
  - apply Z.rem_small. lia.
  - rewrite <- (Z.opp_involutive n) at 1. rewrite Z.rem_opp_l by lia.
    rewrite Z.rem_small by lia. lia.
Qed.

(** X15.  The colour helper, for any numbers: saturation and lightness are
    brought into [0, 100] and left alone when they are there; the hue
    becomes a value strictly between -360 and 360 of the sign of the given
    hue (a negative hue stays negative), and is left alone when it is
    already in that range; the opacity is passed on. *)
Theorem hsl_clamps_and_wraps (h s l a : Q) :
  let colour := hsl h s l a in
  (0 <= colour_s colour <= 100 /\ 0 <= colour_l colour <= 100)
  /\ (0 <= s <= 100 -> colour_s colour == s)
  /\ (0 <= l <= 100 -> colour_l colour == l)
  /\ -360 < colour_h colour < 360
  /\ (0 <= h -> 0 <= colour_h colour)
  /\ (h <= 0 -> colour_h colour <= 0)
  /\ (-360 < h < 360 -> colour_h colour == h)
  /\ colour_a colour = a.
Proof.
  cbv zeta. unfold hsl. cbn [colour_h colour_s colour_l colour_a].
  assert (forall v, 0 <= Qmin 100 (Qmax 0 v) <= 100) as Hclamp.
  { intros v. split.
    - apply Q.min_glb; [lra | apply Q.le_max_l].
    - apply Q.le_min_l. }
  assert (forall v, 0 <= v <= 100 -> Qmin 100 (Qmax 0 v) == v) as Hid.
  { intros v [H0 H1]. rewrite (Q.max_r 0 v H0). by apply Q.min_r. }
  split; [split; apply Hclamp|].
  split; [apply Hid|]. split; [apply Hid|].
  split_and!; try reflexivity.
  - rewrite jsRem_360. destruct h as [n d]. cbn [Qnum Qden].
    pose proof (Z.rem_bound_abs n (Zpos d * 360) ltac:(lia)) as Habs.
    unfold Qlt. cbn [Qnum Qden]. lia.
  - rewrite jsRem_360. destruct h as [n d]. cbn [Qnum Qden].
    pose proof (Z.rem_bound_abs n (Zpos d * 360) ltac:(lia)) as Habs.
    unfold Qlt. cbn [Qnum Qden]. lia.
  - intros Hh. rewrite jsRem_360. destruct h as [n d]. cbn [Qnum Qden].
    unfold Qle in *. cbn [Qnum Qden] in *.
    pose proof (Z.rem_nonneg n (Zpos d * 360) ltac:(lia) ltac:(lia)). lia.
  - intros Hh. rewrite jsRem_360. destruct h as [n d]. cbn [Qnum Qden].
    unfold Qle in *. cbn [Qnum Qden] in *.
    pose proof (Z.rem_nonpos n (Zpos d * 360) ltac:(lia) ltac:(lia)). lia.
  - apply jsRem_360_small.
Qed.

(** The palette hues lie between 0 and 330. *)
Lemma palette_hue_range (palette : Palette) :
  palette ∈ COLOR_PALETTES -> (0 <= palette_hue palette <= 330)%Z.
Proof.
  unfold COLOR_PALETTES. rewrite !elem_of_cons, elem_of_nil.
  intros H. repeat (destruct H as [->|H]; [cbn; lia|]). done.
Qed.

(** Hue and lightness of a fresh particle, whatever the style. *)
Lemma spawnParticle_colour x y plan k :
  (0 <= palette_hue (plan_palette plan) <= 330)%Z ->
  let p := (spawnParticle x y plan k).1 in
  -15 <= Particle.hue p < 360 /\ 45 <= Particle.lightness p < 70.
Proof using random_range.
  intros Hhue. cbv zeta.
  assert (0 <= inject_Z (palette_hue (plan_palette plan)) <= 330) as HhueQ.
  { change 0 with (inject_Z 0). change 330 with (inject_Z 330).
    rewrite <- !Zle_Qle. lia. }
  assert (0 <= inject_Z (Z.rem (palette_hue (plan_palette plan) + 180) 360)
          < 360) as Hflip.
  { change 0 with (inject_Z 0). change 360 with (inject_Z 360).
    rewrite <- Zle_Qle, <- Zlt_Qlt.
    pose proof (Z.rem_bound_pos (palette_hue (plan_palette plan) + 180) 360).
    lia. }
  destruct plan as [pal style r cnt pow base].
  cbn [plan_palette] in *.
  set (H := inject_Z (palette_hue pal)) in *.
  set (F := inject_Z (Z.rem (palette_hue pal + 180) 360)) in *.
  run_rand. fold H F.
  destruct style; run_rand; fold H F;
    repeat match goal with
      | |- context [if Qltb ?a ?b then _ else _] => destruct (Qltb a b)
      end;
    run_rand; particle_simpl; random_bounds; split; lra.
Qed.

(** X16.  The colour of a particle of an accepted explosion is drawn as it
    is: its hue lies in [-15, 360) and its lightness in [45, 70), so the
    helper neither wraps the hue nor clips the lightness or the saturation
    of 100; and [update] changes neither hue nor lightness. *)
Theorem batch_colours_drawn_unclipped who x y w c :
  canvas w = Some c ->
  (length (particles w) <= MAX_PARTICLES)%nat ->
  Forall (fun p =>
            (-15 <= Particle.hue p < 360 /\ 45 <= Particle.lightness p < 70)
            /\ (forall a,
                  let colour :=
                    hsl (Particle.hue p) 100 (Particle.lightness p) a in
                  colour_h colour == Particle.hue p
                  /\ colour_s colour == 100
                  /\ colour_l colour == Particle.lightness p)
            /\ Particle.hue (Particle.update p) = Particle.hue p
            /\ Particle.lightness (Particle.update p) = Particle.lightness p)
    (appended who x y w).
Proof using random_range.
  intros Hc Hroom.
  assert ((0 <= palette_hue (plan_palette (planOf w)) <= 330)%Z) as Hhue.
  { apply palette_hue_range.
    pose proof (randomChoice_index (length COLOR_PALETTES) (cursor w)
                  ltac:(cbn; lia)) as Hpal.
    assert (plan_palette (planOf w) =
              nth (Z.to_nat (Qfloor (random (cursor w)
                                     * inject_Z (Z.of_nat (length COLOR_PALETTES)))))
                COLOR_PALETTES {| palette_hue := 0; palette_name := "" |})
      as ->.
    { unfold planOf. run_rand.
      destruct (Qltb _ 0.3); [reflexivity|].
      destruct (Qltb _ 0.7); reflexivity. }
    by apply list_elem_of_In, nth_In. }
  apply (appended_Forall _ who x y w c Hc Hroom). intros k.
  destruct (spawnParticle_colour x y (planOf w) k Hhue) as [Hh Hl].
  split; [done|]. split; [|by split].
  intros a. unfold hsl. cbn [colour_h colour_s colour_l].
  split_and!.
  - apply jsRem_360_small. lra.
  - rewrite (Q.max_r 0 100) by lra. apply Q.min_l. lra.
  - rewrite (Q.max_r 0 _) by lra. apply Q.min_r. lra.
Qed.

(** * An invariant of the pool *)

(** A property that every particle has when it is pushed, and that a
    surviving particle keeps across [update], holds of the whole pool of a
    running component. *)
Section PoolInvariant.

Variable F : Particle.t -> Prop.
Hypothesis F_spawn : forall x y k0 k,
  F (spawnParticle x y (planExplosion k0).1 k).1.
Hypothesis F_update : forall p,
  F p -> alive (Particle.update p) -> F (Particle.update p).

Lemma grows_same w w' : particles w' = particles w -> grows F w w'.
Proof. intros E. exists []. by rewrite app_nil_r. Qed.

Lemma grows_trans w1 w2 w3 : grows F w1 w2 -> grows F w2 w3 -> grows F w1 w3.
Proof.
  intros (b1 & E1 & F1) (b2 & E2 & F2).
  exists (b1 ++ b2). rewrite E2, E1, <- app_assoc. split; [done|].
  by apply Forall_app.
Qed.

Lemma triggerFirework_grows who x y w : grows F w (triggerFirework who x y w).
Proof using F_spawn.
  destruct (triggerFirework_cases who x y w) as [->|(c & Hc & Hroom)].
  - by apply grows_same.
  - destruct (appended_accepted who x y w c Hc Hroom) as [E Hbatch].
    exists (appended who x y w). split; [exact E|].
    rewrite Hbatch. unfold spawnAll. apply spawnLoop_Forall; [|constructor].
    intros k. apply F_spawn.
Qed.

Lemma inputLogic_grows now c w : grows F w (inputLogic now c w).
Proof using F_spawn.
  assert (forall both w0, grows F w0 (finaleBlock now c both w0)) as Hfinale.
  { intros both w0. unfold finaleBlock. cbv zeta.
    set (w1 := set_grandFinale _ w0).
    destruct (both && _); [|by apply grows_same].
    apply (grows_trans w0 w1); [by apply grows_same|].
    eapply grows_trans; [|by apply grows_same].
    apply choreography_chain.
    - intros w2. by apply grows_same.
    - apply grows_trans.
    - intros x y w2. apply triggerFirework_grows.
    - intros w2. by apply grows_same. }
  assert (forall both w0 hand, grows F w0 (laneBody now c both w0 hand))
    as Hlane.
  { intros both w0 hand. unfold laneBody. cbv zeta.
    match goal with
    | |- grows _ _ (set_prevHandState _ ?inner) =>
        apply (grows_trans w0 inner); [|by apply grows_same]
    end.
    destruct (negb both); [|by apply grows_same].
    destruct (_ && _); [|by apply grows_same].
    eapply grows_trans; [apply triggerFirework_grows|].
    by apply grows_same. }
  unfold inputLogic. cbv zeta. cbn [foldl].
  eapply grows_trans; [|apply Hlane].
  eapply grows_trans; [|apply Hlane].
  apply Hfinale.
Qed.

Lemma reachable_Forall w : Reachable w -> Forall F (particles w).
Proof using F_spawn F_update.
  induction 1 as [c a k|results w _ IH|now w _ IH|iw ih w _ IH].
  - constructor.
  - by destruct (onResults_kept results w) as (_ & _ & -> & _).
  - unfold draw. destruct (canvas w) as [c|]; [|done].
    destruct (has2d c); [|done].
    rewrite integrate_particles.
    destruct (inputLogic_grows now c w) as (batch & -> & Hbatch).
    apply Forall_forall. intros p' Hel.
    apply list_elem_of_filter in Hel as [Halive Hel].
    apply list_elem_of_fmap in Hel as (p & -> & Hel).
    apply F_update; [|done].
    assert (Forall F (particles w ++ batch)) as Hall by (by apply Forall_app).
    rewrite Forall_forall in Hall. by apply Hall.
  - unfold onResize. by destruct (canvas w).
Qed.

End PoolInvariant.

Lemma planExplosion_palette k :
  (0 <= palette_hue (plan_palette (planExplosion k).1) <= 330)%Z.
Proof using random_range.
  apply palette_hue_range.
  pose proof (randomChoice_index (length COLOR_PALETTES) k ltac:(cbn; lia))
    as Hpal.
  assert (plan_palette (planExplosion k).1 =
            nth (Z.to_nat (Qfloor (random k
                                   * inject_Z (Z.of_nat (length COLOR_PALETTES)))))
              COLOR_PALETTES {| palette_hue := 0; palette_name := "" |})
    as ->.
  { run_rand. destruct (Qltb _ 0.3); [reflexivity|].
    destruct (Qltb _ 0.7); reflexivity. }
  by apply list_elem_of_In, nth_In.
Qed.

Lemma wellMade_spawn x y k0 k :
  wellMade (spawnParticle x y (planExplosion k0).1 k).1.
Proof using random_range.
  destruct (spawnParticle_common x y (planExplosion k0).1 k)
    as (_ & _ & Ha & Hf & Hd & Hg & Hs).
  destruct (spawnParticle_colour x y (planExplosion k0).1 k
              (planExplosion_palette k0)) as [Hh Hl].
  destruct (planExplosion_ranges k0) as (_ & _ & Hbase).
  cbv zeta in *. unfold wellMade. rewrite Ha.
  split_and!; try done; lra.
Qed.

Lemma wellMade_update p :
  wellMade p -> alive (Particle.update p) -> wellMade (Particle.update p).
Proof.
  intros ([Ha0 Ha1] & Hd & Hf & Hg & Hs & Hh & Hl) Halive.
  apply alive_alpha in Halive.
  destruct (update_keeps p) as (Ed & Ef & Eg & Es & Ea).
  unfold wellMade. rewrite Ed, Ef, Eg, Es.
  change (Particle.hue (Particle.update p)) with (Particle.hue p).
  change (Particle.lightness (Particle.update p)) with (Particle.lightness p).
  split_and!; try done; try lra. rewrite Ea. lra.
Qed.

(** X17.  Every particle in the pool of a running component, at any time and
    whatever its style and age: alpha in (0, 1], decay in [0.008, 0.025),
    friction 0.98, gravity 0.04 or 0.08, size in [3.5, 9.5), hue in
    [-15, 360) and lightness in [45, 70). *)
Theorem pool_particles_are_well_made w :
  Reachable w -> Forall wellMade (particles w).
Proof using random_range.
  apply reachable_Forall.
  - apply wellMade_spawn.
  - apply wellMade_update.
Qed.

(** * The start screen *)

(** X18.  A click on the start button, from the start screen: the button
    is enabled again afterwards whatever happened; the game is shown exactly
    when the camera was granted and the audio context was built (and
    resumed, where it was suspended), whether or not fullscreen was granted;
    otherwise the start screen shows the camera message, also when the
    camera was granted and only the audio context failed. *)
Theorem start_needs_camera_and_audio_only (b : App.Browser) (s : App.State) :
  App.started s = false ->
  App.loading (App.handleStart b s).1 = false
  /\ App.render (App.handleStart b s).1 =
       (if App.ready b then App.Game (negb (App.cameraActive s))
        else App.StartScreen (Some App.cameraDenied) false)
  /\ (App.ready b = true -> App.error (App.handleStart b s).1 = None).
Proof.
  intros Hs. destruct s as [st ld ca er]. cbn in Hs. subst st.
  destruct b as [[] [] [] [] []]; by cbn.
Qed.

(** X19.  A click when the game is already shown never leaves the game,
    and a failed attempt followed by a successful one leaves no error
    message. *)
Theorem start_is_kept_and_retry_clears_error
  (b1 b2 : App.Browser) (s : App.State) :
  (App.started s = true -> App.started (App.handleStart b1 s).1 = true)
  /\ (App.ready b2 = true ->
      App.started s = false ->
      let s1 := (App.handleStart b1 s).1 in
      let s2 := (App.handleStart b2 s1).1 in
      App.started s2 = true /\ App.error s2 = None /\ App.loading s2 = false).
Proof.
  destruct s as [st ld ca er]. split.
  - cbn. intros ->. by destruct b1 as [[] [] [] [] []].
  - intros Hready Hs. cbn in Hs. subst st.
    destruct b2 as [[] [] [] [] []]; try discriminate Hready;
      by destruct b1 as [[] [] [] [] []].
Qed.

Lemma trackerPayload_started s results :
  App.started (trackerPayload s results) = App.started s
  /\ App.error (trackerPayload s results) = App.error s
  /\ App.loading (trackerPayload s results) = App.loading s.
Proof. unfold trackerPayload. by destruct (handsDetected results). Qed.

(** X20.  The "waiting for hand" overlay after any sequence of tracker
    payloads: it follows the last payload that carried both lists, and is
    shown exactly when that payload had no hand; payloads without the lists
    leave it as it was. *)
Theorem waiting_overlay_follows_last_payload
  (s : App.State) (payloads : list Results) :
  App.started s = true ->
  App.render (foldl trackerPayload s payloads) =
    App.Game (negb (default (App.cameraActive s)
                      (last (omap handsDetected payloads)))).
Proof.
  intros Hs. induction payloads as [|results payloads IH] using rev_ind.
  - cbn. unfold App.render. by rewrite Hs.
  - rewrite foldl_snoc, omap_app. cbn [omap list_omap].
    unfold App.render in *.
    destruct (trackerPayload_started (foldl trackerPayload s payloads) results)
      as (-> & _).
    destruct (negb (App.started (foldl trackerPayload s payloads)));
      [done|].
    injection IH as IH. f_equal. unfold trackerPayload at 1.
    destruct (handsDetected results) as [b|]; cbn.
    + by rewrite last_snoc.
    + by rewrite app_nil_r.
Qed.

(** * The motion of a particle *)

Lemma Qpower_succ (a : Q) (k : nat) :
  a ^ Z.of_nat (S k) == a * a ^ Z.of_nat k.
Proof.
  rewrite Nat2Z.inj_succ, <- Z.add_1_l.
  rewrite Qpower_plus'; [|lia]. reflexivity.
Qed.

Lemma Qpower_98_range (k : nat) : 0 < 0.98 ^ Z.of_nat k <= 1.
Proof.
  induction k as [|k IH].
  - change (0 < 1 <= 1). lra.
  - rewrite Qpower_succ. lra.
Qed.

(** X21.  The motion of a particle with friction 0.98 over [k] frames, in
    closed form, with [d = 0.98^k] and [vt = 50 * gravity]: the horizontal
    velocity is [vx * d], the vertical velocity is [vt + (vy - vt) * d] (it
    tends to the terminal velocity [vt]), the particle has moved
    horizontally by [49 * vx * (1 - d)], so by less than 49 times its first
    horizontal speed, and vertically by
    [vt * k + 49 * (vy - vt) * (1 - d)]. *)
Theorem particle_motion_closed_form (p : Particle.t) (k : nat) :
  Particle.friction p = 0.98 ->
  let q := Nat.iter k Particle.update p in
  let d := 0.98 ^ Z.of_nat k in
  let vt := 50 * Particle.gravity p in
  0 < d <= 1
  /\ Particle.vx q == Particle.vx p * d
  /\ Particle.vy q == vt + (Particle.vy p - vt) * d
  /\ Particle.x q == Particle.x p + 49 * Particle.vx p * (1 - d)
  /\ Particle.y q ==
       Particle.y p + vt * inject_Z (Z.of_nat k)
       + 49 * (Particle.vy p - vt) * (1 - d).
Proof.
  intros Hf. cbv zeta. split; [apply Qpower_98_range|].
  assert (Particle.friction (Nat.iter k Particle.update p) = 0.98
          /\ Particle.gravity (Nat.iter k Particle.update p)
             = Particle.gravity p) as [Hfk Hgk].
  { clear -Hf. induction k as [|k [IHf IHg]]; [done|].
    change (Nat.iter (S k) Particle.update p)
      with (Particle.update (Nat.iter k Particle.update p)).
    destruct (update_keeps (Nat.iter k Particle.update p))
      as (_ & -> & -> & _).
    done. }
  revert Hfk Hgk. induction k as [|k IH].
  - intros _ _. change (0.98 ^ Z.of_nat 0) with 1.
    change (inject_Z (Z.of_nat 0)) with 0. cbn [Nat.iter nat_rect].
    split_and!; ring.
  - change (Nat.iter (S k) Particle.update p)
      with (Particle.update (Nat.iter k Particle.update p)).
    set (q := Nat.iter k Particle.update p) in *.
    destruct (update_keeps q) as (_ & Ef & Eg & _).
    rewrite Ef, Eg. intros Hfq Hgq.
    destruct (IH Hfq Hgq) as (Hvx & Hvy & Hx & Hy).
    change (Particle.vx (Particle.update q))
      with (Particle.vx q * Particle.friction q).
    change (Particle.vy (Particle.update q))
      with (Particle.vy q * Particle.friction q + Particle.gravity q).
    change (Particle.x (Particle.update q))
      with (Particle.x q + Particle.vx q * Particle.friction q).
    change (Particle.y (Particle.update q))
      with (Particle.y q
            + (Particle.vy q * Particle.friction q + Particle.gravity q)).
    rewrite Hfq, Hgq, Hvx, Hvy, Hx, Hy, Qpower_succ.
    rewrite Nat2Z.inj_succ, <- Z.add_1_r, inject_Z_plus.
    change (inject_Z 1) with 1.
    split_and!; ring.
Qed.

(** * Where the finale places its explosions *)

Lemma callsIn_same P w w' : triggerLog w' = triggerLog w -> callsIn P w w'.
Proof. intros E. exists []. by rewrite app_nil_r. Qed.

Lemma callsIn_trans P w1 w2 w3 :
  callsIn P w1 w2 -> callsIn P w2 w3 -> callsIn P w1 w3.
Proof.
  intros (c1 & E1 & F1) (c2 & E2 & F2).
  exists (c1 ++ c2). rewrite E2, E1, <- app_assoc. split; [done|].
  by apply Forall_app.
Qed.

Lemma callsIn_trigger (P : TriggerCall -> Prop) who x y w :
  P (mkCall who x y) -> callsIn P w (triggerFirework who x y w).
Proof.
  intros HP. exists [mkCall who x y]. rewrite triggerFirework_log.
  split; [done|]. by apply Forall_singleton.
Qed.

Lemma callsIn_newCalls P w w' :
  callsIn P w w' -> Forall P (newCalls w w').
Proof.
  intros (calls & E & Hall). unfold newCalls.
  by rewrite E, drop_app_length.
Qed.

(** A draw of [Math.random()] scaled by a side of the canvas. *)
Lemma random_scaled k (side : Q) :
  0 <= side -> 0 <= random k * side <= side.
Proof using random_range.
  intros Hside. destruct (random_range k) as [H0 H1]. split.
  - by apply Qmult_le_0_compat.
  - rewrite <- (Qmult_1_l side) at 2.
    apply Qmult_le_compat_r; [lra|done].
Qed.

Lemma patternWave_inUpperCanvas c w :
  (0 <= width c)%Z -> (0 <= height c)%Z ->
  callsIn (inUpperCanvas c) w
    (patternWave (inject_Z (width c)) (inject_Z (height c)) w).
Proof using random_range.
  intros HW HH. unfold patternWave.
  apply foldl_chain;
    [intros w0; by apply callsIn_same | apply callsIn_trans |].
  clear w. intros w _. step_random w.
  set (w1 := (nextRandom w).2). step_random w1.
  apply (callsIn_trans _ w w1); [by apply callsIn_same|].
  apply (callsIn_trans _ w1 (nextRandom w1).2); [by apply callsIn_same|].
  apply callsIn_trigger. unfold inUpperCanvas. cbn [call_lane call_x call_y].
  assert (0 <= inject_Z (width c)) as HWq
    by (change 0 with (inject_Z 0); by rewrite <- Zle_Qle).
  assert (0 <= inject_Z (height c)) as HHq
    by (change 0 with (inject_Z 0); by rewrite <- Zle_Qle).
  pose proof (random_scaled (cursor w) _ HWq).
  pose proof (random_scaled (cursor w1) _ HHq).
  split; [done|]. split; lra.
Qed.

Lemma patternChaos_inUpperCanvas c w :
  (0 <= width c)%Z -> (0 <= height c)%Z ->
  callsIn (inUpperCanvas c) w
    (patternChaos (inject_Z (width c)) (inject_Z (height c)) w).
Proof using random_range.
  intros HW HH. unfold patternChaos.
  apply foldl_chain;
    [intros w0; by apply callsIn_same | apply callsIn_trans |].
  clear w. intros w _. step_random w.
  set (w1 := (nextRandom w).2). step_random w1.
  apply (callsIn_trans _ w w1); [by apply callsIn_same|].
  apply (callsIn_trans _ w1 (nextRandom w1).2); [by apply callsIn_same|].
  apply callsIn_trigger. unfold inUpperCanvas. cbn [call_lane call_x call_y].
  assert (0 <= inject_Z (width c)) as HWq
    by (change 0 with (inject_Z 0); by rewrite <- Zle_Qle).
  assert (0 <= inject_Z (height c)) as HHq
    by (change 0 with (inject_Z 0); by rewrite <- Zle_Qle).
  pose proof (random_scaled (cursor w) _ HWq).
  pose proof (random_scaled (cursor w1) _ HHq).
  split; [done|]. split; lra.
Qed.

Lemma patternCross_inUpperCanvas c w :
  (0 <= width c)%Z -> (0 <= height c)%Z ->
  callsIn (inUpperCanvas c) w
    (patternCross (inject_Z (width c)) (inject_Z (height c)) w).
Proof.
  intros HW HH. unfold patternCross. cbv zeta.
  assert (0 <= inject_Z (width c)) as HWq
    by (change 0 with (inject_Z 0); by rewrite <- Zle_Qle).
  assert (0 <= inject_Z (height c)) as HHq
    by (change 0 with (inject_Z 0); by rewrite <- Zle_Qle).
  repeat (eapply callsIn_trans;
          [|apply callsIn_trigger; unfold inUpperCanvas;
            cbn [call_lane call_x call_y]; split; [done|split; lra]]).
  by apply callsIn_same.
Qed.

(** X22.  In a finale frame whose choreography runs the wave, the cross or
    the chaos pattern (the phase [floor(now / 400) % 6] is not 0, 2 or 4),
    every explosion is requested at a point of the canvas, between a tenth
    and eight tenths of its height, and none is attributed to a lane. *)
Theorem finale_wave_cross_chaos_stay_on_canvas now w c :
  canvas w = Some c -> has2d c = true ->
  (0 <= width c)%Z -> (0 <= height c)%Z ->
  bothOpen w ->
  (15 < now - lastSpawn (grandFinale w))%Z ->
  Z.rem (now / 400) 6 <> 0%Z ->
  Z.rem (now / 400) 6 <> 2%Z ->
  Z.rem (now / 400) 6 <> 4%Z ->
  Forall (inUpperCanvas c) (newCalls w (draw now w)).
Proof using random_range.
  intros Hc H2d HW HH Hboth Hlate H0 H2 H4.
  rewrite (draw_mounted now w c Hc H2d).
  unfold newCalls. rewrite (integrate_rest (inputLogic now c w)).
  world_simpl. rewrite (inputLogic_finale_log now c w Hboth Hlate).
  set (w0 := set_grandFinale _ w).
  change (triggerLog w) with (triggerLog w0).
  apply (callsIn_newCalls _ w0). unfold choreography.
  apply Z.eqb_neq in H0, H2, H4. rewrite H0, H2, H4.
  destruct (_ =? 1)%Z; [by apply patternWave_inUpperCanvas|].
  destruct (_ =? 3)%Z; [by apply patternCross_inUpperCanvas|].
  by apply patternChaos_inUpperCanvas.
Qed.

End Engine.

(** * The statements on sample inputs *)

Lemma sampleRandom_range (n : nat) : 0 <= sampleRandom n < 1.
Proof. unfold sampleRandom. lra. Qed.

Lemma ringRandom_range (n : nat) : 0 <= ringRandom n < 1.
Proof. unfold ringRandom. destruct (n =? 1)%nat; lra. Qed.

Lemma brightRandom_range (n : nat) : 0 <= brightRandom n < 1.
Proof. unfold brightRandom. destruct (n <? 4)%nat; lra. Qed.

(** The sample worlds are what the tracker callback makes of the fresh
    world. *)
Lemma leftOpenWorld_tracked :
  outcome_state
    (onResults sampleSqrt (mkResults (Some [openHand]) (Some [Left])) freshWorld)
  = leftOpenWorld.
Proof. vm_compute. reflexivity. Qed.

Lemma bothOpenWorld_tracked :
  outcome_state
    (onResults sampleSqrt
       (mkResults (Some [openHand; openHand]) (Some [Left; Right])) freshWorld)
  = bothOpenWorld.
Proof. vm_compute. reflexivity. Qed.

Lemma leftOpenWorld_reachable :
  Reachable sampleRandom sampleCos sampleSin samplePI sampleSqrt leftOpenWorld.
Proof. rewrite <- leftOpenWorld_tracked. apply reach_results, reach_initial. Qed.

(** The left hand opens: one call, at the mirrored wrist. *)
Lemma normal_mode_rising_edge_trigger_run :
  newCalls leftOpenWorld
    (draw sampleRandom sampleCos sampleSin samplePI 1000 leftOpenWorld)
  = [mirroredCall sampleCanvas leftOpenWorld Left].
Proof.
  refine (eq_trans
            (proj1 (normal_mode_rising_edge_trigger sampleRandom sampleCos
                      sampleSin samplePI 1000 leftOpenWorld sampleCanvas
                      _ _ _)) _).
  - reflexivity.
  - reflexivity.
  - intros [_ Hright]. discriminate Hright.
  - reflexivity.
Defined.

(** A request on a pool of 2001 particles adds nothing; one on the empty
    pool adds its batch. *)
Lemma pool_cap_drops_then_accepts_run :
  appended sampleRandom sampleCos sampleSin samplePI None 100 200 fullWorld = []
  /\ (70 <= length (appended sampleRandom sampleCos sampleSin samplePI
                      None 100 200 freshWorld) <= 300)%nat.
Proof.
  pose proof (pool_cap_drops_then_accepts sampleRandom sampleCos sampleSin
                samplePI sampleSqrt sampleRandom_range None 100 200 fullWorld)
    as (Hfull & _ & _).
  pose proof (pool_cap_drops_then_accepts sampleRandom sampleCos sampleSin
                samplePI sampleSqrt sampleRandom_range None 100 200 freshWorld)
    as (_ & _ & Hfresh).
  split.
  - apply Hfull. apply Nat.ltb_lt. vm_compute. reflexivity.
  - apply (Hfresh sampleCanvas).
    + reflexivity.
    + apply Nat.leb_le. vm_compute. reflexivity.
Defined.

(** Two open hands, then both hands leave the view: the first normal frame
    makes no call. *)
Lemma finale_mode_and_exit_run :
  let finaleFrame :=
    draw sampleRandom sampleCos sampleSin samplePI 1000 bothOpenWorld in
  let handsGone :=
    outcome_state
      (onResults sampleSqrt (mkResults (Some []) (Some [])) finaleFrame) in
  active (grandFinale finaleFrame) = true
  /\ newCalls handsGone
       (draw sampleRandom sampleCos sampleSin samplePI 1400 handsGone) = [].
Proof.
  cbv zeta.
  destruct (finale_mode_and_exit sampleRandom sampleCos sampleSin samplePI
              sampleSqrt 1000 bothOpenWorld sampleCanvas eq_refl eq_refl)
    as (Hactive & _ & _ & Hexit).
  assert (bothOpen bothOpenWorld) as Hboth by (split; reflexivity).
  split.
  - exact (proj2 Hactive Hboth).
  - refine (proj1 (Hexit Hboth _ 1400%Z
                     (callbacks_more sampleSqrt _ _ _ (callbacks_none _ _))
                     _)).
    intros [Hleft _]. discriminate Hleft.
Defined.

(** A frame with an open left hand and a closed right hand; and a payload
    with the handedness list only. *)
Lemma classifier_sets_lane_states_run :
  (exists w',
      onResults sampleSqrt
        (mkResults (Some [openHand; fistHand]) (Some [Left; Right])) freshWorld
      = Returned w'
      /\ lane_get Left (handState w') = OPEN
      /\ lane_get Right (handState w') = FIST)
  /\ onResults sampleSqrt (mkResults None (Some [Left])) leftOpenWorld
     = Returned leftOpenWorld.
Proof.
  split.
  - destruct (proj1 (classifier_sets_lane_states sampleSqrt
                       [openHand; fistHand] [Left; Right] freshWorld))
      as (w' & Hrun & Hstates).
    + vm_compute. lia.
    + repeat constructor; vm_compute; lia.
    + exists w'. split; [exact Hrun|]. split.
      * destruct (proj2 (Hstates Left) openHand eq_refl)
          as (d & Hd & _ & Hopen).
        apply Hopen. injection Hd as <-. vm_compute. discriminate.
      * destruct (proj2 (Hstates Right) fistHand eq_refl)
          as (d & Hd & Hfist & _).
        apply Hfist. injection Hd as <-. vm_compute. reflexivity.
  - exact (proj1 (proj2 (classifier_sets_lane_states sampleSqrt [] []
                           leftOpenWorld)
                     (mkResults None (Some [Left])) (or_introl eq_refl))).
Defined.

(** The small size class on the fresh world. *)
Lemma size_class_decides_batch_parameters_run :
  let plan := planOf sampleRandom freshWorld in
  plan_sizeClass plan < 0.3
  /\ 70 <= plan_particleCount plan < 110
  /\ length (appended sampleRandom sampleCos sampleSin samplePI
               None 100 200 freshWorld)
     = Z.to_nat (Qceiling (plan_particleCount plan)).
Proof.
  cbv zeta.
  destruct (size_class_decides_batch_parameters sampleRandom sampleCos
              sampleSin samplePI sampleRandom_range None 100 200 freshWorld
              sampleCanvas eq_refl)
    as (_ & Hsmall & _ & _ & Hlen & _).
  - apply Nat.leb_le. vm_compute. reflexivity.
  - assert (plan_sizeClass (planOf sampleRandom freshWorld) < 0.3) as Hr
      by (vm_compute; reflexivity).
    split; [exact Hr|]. split; [|exact Hlen].
    destruct (Hsmall Hr) as [[_ Hcount] _]. exact Hcount.
Defined.

(** A ring-style batch on the fresh world. *)
Lemma ring_batch_speed_and_decay_run :
  Forall (fun p =>
            exists angle speed : Q,
              Particle.vx p = sampleCos angle * speed
              /\ Particle.vy p = sampleSin angle * speed
              /\ plan_explosionPower (planOf ringRandom freshWorld) * 0.85
                   <= speed
              /\ speed
                   <= plan_explosionPower (planOf ringRandom freshWorld) * 1.15
              /\ 0.015 <= Particle.decay p <= 0.025)
    (appended ringRandom sampleCos sampleSin samplePI None 100 200 freshWorld).
Proof.
  apply (ring_batch_speed_and_decay ringRandom sampleCos sampleSin samplePI
           ringRandom_range None 100 200 freshWorld sampleCanvas).
  - reflexivity.
  - apply Nat.leb_le. vm_compute. reflexivity.
  - vm_compute. reflexivity.
Defined.

(** A circle-style batch on the fresh world. *)
Lemma circle_batch_colour_decay_gravity_run :
  Forall (fun p =>
            (exists rolled extra : Q,
                45 <= rolled < 55 /\ 0 <= extra < 10
                /\ Particle.lightness p = rolled + extra)
            /\ 45 <= Particle.lightness p < 65
            /\ inject_Z (palette_hue (plan_palette (planOf sampleRandom freshWorld)))
                 - 15
                 <= Particle.hue p
                 <= inject_Z (palette_hue (plan_palette (planOf sampleRandom freshWorld)))
                    + 15
            /\ 0.01 <= Particle.decay p <= 0.02
            /\ Particle.gravity p = 0.04)
    (appended sampleRandom sampleCos sampleSin samplePI None 100 200 freshWorld).
Proof.
  apply (circle_batch_colour_decay_gravity sampleRandom sampleCos sampleSin
           samplePI sampleRandom_range None 100 200 freshWorld sampleCanvas).
  - reflexivity.
  - apply Nat.leb_le. vm_compute. reflexivity.
  - vm_compute. reflexivity.
Defined.

(** The frame in which the left hand opens: the pool after it holds live
    particles only. *)
Lemma pool_fields_fixed_alpha_falls_dead_culled_run :
  Forall (fun p => 0 < Particle.alpha p)
    (particles
       (draw sampleRandom sampleCos sampleSin samplePI 1000 leftOpenWorld)).
Proof.
  destruct (pool_fields_fixed_alpha_falls_dead_culled sampleRandom sampleCos
              sampleSin samplePI sampleSqrt sampleRandom_range 1000
              leftOpenWorld sampleCanvas leftOpenWorld_reachable
              eq_refl eq_refl)
    as (_ & _ & _ & Hlive).
  exact Hlive.
Defined.

(** The same frame: the pool stays within the bound. *)
Lemma pool_never_exceeds_2300_run :
  (length
     (particles
        (draw sampleRandom sampleCos sampleSin samplePI 1000 leftOpenWorld))
   <= 2300)%nat.
Proof.
  exact (proj1 (pool_never_exceeds_2300 sampleRandom sampleCos sampleSin
                  samplePI sampleSqrt sampleRandom_range _
                  (reach_draw sampleRandom sampleCos sampleSin samplePI
                     sampleSqrt 1000 leftOpenWorld leftOpenWorld_reachable))).
Defined.

Lemma burstRandom_range (n : nat) : 0 <= burstRandom n < 1.
Proof. unfold burstRandom. destruct (n =? 1)%nat; lra. Qed.

Lemma willowRandom_range (n : nat) : 0 <= willowRandom n < 1.
Proof. unfold willowRandom. destruct (n =? 1)%nat; lra. Qed.

Lemma chrysanthemumRandom_range (n : nat) : 0 <= chrysanthemumRandom n < 1.
Proof. unfold chrysanthemumRandom. destruct (n =? 1)%nat; lra. Qed.

Lemma freshWorld_room : (length (particles freshWorld) <= MAX_PARTICLES)%nat.
Proof. apply Nat.leb_le. vm_compute. reflexivity. Qed.

Lemma bothOpenWorld_bothOpen : bothOpen bothOpenWorld.
Proof. split; reflexivity. Qed.

(** The plan of an explosion on the fresh world. *)
Lemma plan_choices_come_from_tables_run :
  plan_palette (planOf sampleRandom freshWorld) ∈ COLOR_PALETTES
  /\ plan_style (planOf sampleRandom freshWorld) ∈ EXPLOSION_STYLES.
Proof.
  exact (proj2 (plan_choices_come_from_tables sampleRandom sampleCos
                  sampleSin samplePI sampleRandom_range None 100 200
                  freshWorld sampleCanvas eq_refl freshWorld_room)).
Defined.

Lemma batch_starts_at_spawn_point_run :
  Forall (fun p =>
            Particle.x p = 100 /\ Particle.y p = 200
            /\ Particle.alpha p = 1 /\ Particle.friction p = 0.98)
    (appended sampleRandom sampleCos sampleSin samplePI None 100 200 freshWorld).
Proof.
  exact (batch_starts_at_spawn_point sampleRandom sampleCos sampleSin
           samplePI sampleRandom_range None 100 200 freshWorld sampleCanvas
           eq_refl freshWorld_room).
Defined.

Lemma batch_particles_live_39_to_125_frames_run :
  Forall (fun p => alive (Nat.iter 39 Particle.update p))
    (appended sampleRandom sampleCos sampleSin samplePI None 100 200 freshWorld).
Proof.
  refine (Forall_impl _ _ _
            (batch_particles_live_39_to_125_frames sampleRandom sampleCos
               sampleSin samplePI sampleRandom_range None 100 200 freshWorld
               sampleCanvas eq_refl freshWorld_room) _).
  intros p Hp. apply (Hp 39%nat). lia.
Defined.

Lemma willow_batch_droops_and_flips_hue_run :
  Forall (fun p =>
            Particle.gravity p = 0.08 /\ 0.008 <= Particle.decay p < 0.015)
    (appended willowRandom sampleCos sampleSin samplePI None 100 200 freshWorld).
Proof.
  assert (plan_style (planOf willowRandom freshWorld) = willow) as Hstyle
    by (vm_compute; reflexivity).
  refine (Forall_impl _ _ _
            (willow_batch_droops_and_flips_hue willowRandom sampleCos
               sampleSin samplePI willowRandom_range None 100 200 freshWorld
               sampleCanvas eq_refl freshWorld_room Hstyle) _).
  intros p (_ & Hg & Hd & _). split; [exact Hg | exact Hd].
Defined.

Lemma burst_batch_speed_and_lightness_run :
  Forall (fun p =>
            Particle.gravity p = 0.04 /\ 45 <= Particle.lightness p < 68)
    (appended burstRandom sampleCos sampleSin samplePI None 100 200 freshWorld).
Proof.
  assert (plan_style (planOf burstRandom freshWorld) = burst) as Hstyle
    by (vm_compute; reflexivity).
  refine (Forall_impl _ _ _
            (burst_batch_speed_and_lightness burstRandom sampleCos
               sampleSin samplePI burstRandom_range None 100 200 freshWorld
               sampleCanvas eq_refl freshWorld_room Hstyle) _).
  intros p (_ & Hg & _ & Hl). split; [exact Hg | exact Hl].
Defined.

Lemma chrysanthemum_batch_speed_and_lightness_run :
  Forall (fun p =>
            Particle.gravity p = 0.04 /\ 45 <= Particle.lightness p < 70)
    (appended chrysanthemumRandom sampleCos sampleSin samplePI
       None 100 200 freshWorld).
Proof.
  assert (plan_style (planOf chrysanthemumRandom freshWorld) = chrysanthemum)
    as Hstyle by (vm_compute; reflexivity).
  refine (Forall_impl _ _ _
            (chrysanthemum_batch_speed_and_lightness chrysanthemumRandom
               sampleCos sampleSin samplePI chrysanthemumRandom_range
               None 100 200 freshWorld sampleCanvas eq_refl freshWorld_room
               Hstyle) _).
  intros p (_ & Hg & _ & Hl). split; [exact Hg | exact Hl].
Defined.

(** Two open hands at time 1000: the cascade, five calls; at time 1200:
    the seven calls of the cross. *)
Lemma finale_choreography_cadence_run :
  length (newCalls bothOpenWorld
            (draw sampleRandom sampleCos sampleSin samplePI 1000 bothOpenWorld))
  = 5%nat
  /\ newCalls bothOpenWorld
       (draw sampleRandom sampleCos sampleSin samplePI 1200 bothOpenWorld)
     = crossCalls 1920 1080.
Proof.
  assert (15 < 1000 - lastSpawn (grandFinale bothOpenWorld))%Z as Hlate
    by reflexivity.
  assert (15 < 1200 - lastSpawn (grandFinale bothOpenWorld))%Z as Hlater
    by reflexivity.
  split.
  - exact (proj1 (proj2 (finale_choreography_cadence sampleRandom sampleCos
                           sampleSin samplePI 1000 bothOpenWorld sampleCanvas
                           eq_refl eq_refl bothOpenWorld_bothOpen) Hlate)).
  - exact (proj2 (proj2 (proj2
             (proj2 (finale_choreography_cadence sampleRandom sampleCos
                       sampleSin samplePI 1200 bothOpenWorld sampleCanvas
                       eq_refl eq_refl bothOpenWorld_bothOpen) Hlater)))).
Defined.

(** The left hand opens 200 ms after the start: too early. *)
Lemma lane_silent_within_250ms_run :
  lane_get Left
    (lastTriggerTime
       (draw sampleRandom sampleCos sampleSin samplePI 200 leftOpenWorld))
  = 0%Z.
Proof.
  assert (200 <= 0 + 250)%Z as Hle by lia.
  exact (proj1 (lane_silent_within_250ms sampleRandom sampleCos sampleSin
                  samplePI sampleSqrt 0 Left leftOpenWorld _ eq_refl
                  (within_frame sampleRandom sampleCos sampleSin samplePI
                     sampleSqrt (0 + 250) leftOpenWorld 200 leftOpenWorld
                     (within_start sampleRandom sampleCos sampleSin samplePI
                        sampleSqrt (0 + 250) leftOpenWorld)
                     Hle))).
Defined.

(** The left hand stays open over two frames. *)
Lemma lane_open_in_last_frame_does_not_fire_run :
  let w2 := draw sampleRandom sampleCos sampleSin samplePI 1000 leftOpenWorld in
  Forall (fun call => call_lane call <> Some Left)
    (newCalls w2 (draw sampleRandom sampleCos sampleSin samplePI 2000 w2)).
Proof.
  exact (lane_open_in_last_frame_does_not_fire sampleRandom sampleCos
           sampleSin samplePI sampleSqrt 1000 leftOpenWorld sampleCanvas
           Left _ 2000 eq_refl eq_refl eq_refl
           (callbacks_none sampleSqrt _)).
Defined.

(** A frame before the tracker saw a hand. *)
Lemma idle_frame_only_ages_pool_run :
  draw sampleRandom sampleCos sampleSin samplePI 1000 freshWorld =
    set_particles (filter alive (Particle.update <$> particles freshWorld))
      (set_prevHandState (handState freshWorld)
         (set_grandFinale
            (mkFinale false (lastSpawn (grandFinale freshWorld))) freshWorld)).
Proof.
  apply (idle_frame_only_ages_pool sampleRandom sampleCos sampleSin samplePI
           1000 freshWorld sampleCanvas eq_refl eq_refl).
  - intros [Hleft _]. discriminate Hleft.
  - intros hand [Hopen _]. destruct hand; discriminate Hopen.
Defined.

Lemma openHand_wellFormed : wellFormed [openHand] [Left].
Proof. split; [vm_compute; lia|]. repeat constructor; vm_compute; lia. Qed.

(** The wrist of an open left hand. *)
Lemma tracker_positions_follow_wrist_run :
  exists w',
    onResults sampleSqrt (mkResults (Some [openHand]) (Some [Left])) freshWorld
    = Returned w'
    /\ lane_get Left (handPos w') = Point.mk 0.5 0.5
    /\ lane_get Right (handState w') = UNKNOWN.
Proof.
  destruct (tracker_positions_follow_wrist sampleSqrt [openHand] [Left]
              freshWorld openHand_wellFormed) as (w' & Hrun & Hpos).
  exists w'. split; [exact Hrun|]. split.
  - exact (proj1 (Hpos Left) openHand (Point.mk 0.5 0.5) eq_refl eq_refl).
  - refine (proj2 (proj2 (Hpos Right) _)).
    intros landmarks Hin. apply list_elem_of_singleton in Hin.
    discriminate Hin.
Defined.

Lemma tracker_states_depend_on_latest_payload_run :
  handState
    (outcome_state
       (onResults sampleSqrt (mkResults (Some [openHand]) (Some [Left]))
          freshWorld))
  = handState
      (outcome_state
         (onResults sampleSqrt (mkResults (Some [openHand]) (Some [Left]))
            bothOpenWorld)).
Proof.
  exact (tracker_states_depend_on_latest_payload sampleSqrt [openHand] [Left]
           freshWorld bothOpenWorld openHand_wellFormed).
Defined.

(** A hand without its label: the callback throws, and the right lane stays
    OPEN. *)
Lemma tracker_throws_on_malformed_payload_run :
  (exists w',
      onResults sampleSqrt (mkResults (Some [openHand]) (Some [Left]))
        freshWorld = Returned w')
  /\ lane_get Right
       (handState
          (outcome_state
             (onResults sampleSqrt (mkResults (Some [openHand]) (Some []))
                bothOpenWorld)))
     = OPEN.
Proof.
  split.
  - exact (proj2 (proj1 (tracker_throws_on_malformed_payload sampleSqrt
                           [openHand] [Left] freshWorld))
             openHand_wellFormed).
  - refine (proj1 (proj2 (tracker_throws_on_malformed_payload sampleSqrt
                            [openHand] [] bothOpenWorld)
                     bothOpenWorld eq_refl Right _)).
    intros landmarks Hin. by apply not_elem_of_nil in Hin.
Defined.

Lemma hsl_clamps_and_wraps_run :
  colour_l (hsl 400 120 50 0.5) == 50
  /\ colour_h (hsl (-15) 100 50 1) == -15.
Proof.
  split.
  - refine (proj1 (proj2 (proj2 (hsl_clamps_and_wraps 400 120 50 0.5))) _).
    lra.
  - refine (proj1 (proj2 (proj2 (proj2 (proj2 (proj2 (proj2
              (hsl_clamps_and_wraps (-15) 100 50 1))))))) _).
    lra.
Defined.

Lemma batch_colours_drawn_unclipped_run :
  Forall (fun p => -15 <= Particle.hue p < 360)
    (appended sampleRandom sampleCos sampleSin samplePI None 100 200 freshWorld).
Proof.
  refine (Forall_impl _ _ _
            (batch_colours_drawn_unclipped sampleRandom sampleCos sampleSin
               samplePI sampleRandom_range None 100 200 freshWorld
               sampleCanvas eq_refl freshWorld_room) _).
  intros p [[Hhue _] _]. exact Hhue.
Defined.

(** The pool after the frame in which the left hand opens. *)
Lemma pool_particles_are_well_made_run :
  Forall (wellMade)
    (particles
       (draw sampleRandom sampleCos sampleSin samplePI 1000 leftOpenWorld)).
Proof.
  exact (pool_particles_are_well_made sampleRandom sampleCos sampleSin
           samplePI sampleSqrt sampleRandom_range _
           (reach_draw sampleRandom sampleCos sampleSin samplePI
              sampleSqrt 1000 leftOpenWorld leftOpenWorld_reachable)).
Defined.

(** Fullscreen denied: the game starts all the same.  Camera denied: the
    start screen with the message. *)
Lemma start_needs_camera_and_audio_only_run :
  App.render (App.handleStart windowedBrowser App.initialState).1
    = App.Game true
  /\ App.render (App.handleStart cameraDeniedBrowser App.initialState).1
     = App.StartScreen (Some App.cameraDenied) false.
Proof.
  split.
  - exact (proj1 (proj2 (start_needs_camera_and_audio_only windowedBrowser
                           App.initialState eq_refl))).
  - exact (proj1 (proj2 (start_needs_camera_and_audio_only cameraDeniedBrowser
                           App.initialState eq_refl))).
Defined.

(** Camera denied at first, granted at the second click. *)
Lemma start_is_kept_and_retry_clears_error_run :
  let s1 := (App.handleStart cameraDeniedBrowser App.initialState).1 in
  let s2 := (App.handleStart windowedBrowser s1).1 in
  App.started s2 = true /\ App.error s2 = None /\ App.loading s2 = false.
Proof.
  exact (proj2 (start_is_kept_and_retry_clears_error cameraDeniedBrowser
                  windowedBrowser App.initialState) eq_refl eq_refl).
Defined.

(** A hand is seen, then a payload without the lists arrives. *)
Lemma waiting_overlay_follows_last_payload_run :
  App.render
    (foldl trackerPayload (App.mkState true false false None)
       [mkResults (Some [openHand]) (Some [Left]); mkResults None None])
  = App.Game false.
Proof.
  exact (waiting_overlay_follows_last_payload
           (App.mkState true false false None)
           [mkResults (Some [openHand]) (Some [Left]); mkResults None None]
           eq_refl).
Defined.

(** Two frames of the sample particle. *)
Lemma particle_motion_closed_form_run :
  Particle.vx (Nat.iter 2 Particle.update sampleParticle)
    == Particle.vx sampleParticle * 0.98 ^ 2
  /\ Particle.x (Nat.iter 2 Particle.update sampleParticle)
     == Particle.x sampleParticle
        + 49 * Particle.vx sampleParticle * (1 - 0.98 ^ 2).
Proof.
  pose proof (particle_motion_closed_form sampleParticle 2 eq_refl)
    as (_ & Hvx & _ & Hx & _).
  split; [exact Hvx | exact Hx].
Defined.

(** Two open hands at time 400: the wave. *)
Lemma finale_wave_cross_chaos_stay_on_canvas_run :
  Forall (inUpperCanvas sampleCanvas)
    (newCalls bothOpenWorld
       (draw sampleRandom sampleCos sampleSin samplePI 400 bothOpenWorld)).
Proof.
  assert (15 < 400 - lastSpawn (grandFinale bothOpenWorld))%Z as Hlate
    by reflexivity.
  assert (0 <= width sampleCanvas)%Z as HW by (cbn; lia).
  assert (0 <= height sampleCanvas)%Z as HH by (cbn; lia).
  refine (finale_wave_cross_chaos_stay_on_canvas sampleRandom sampleCos
            sampleSin samplePI sampleRandom_range 400 bothOpenWorld
            sampleCanvas eq_refl eq_refl HW HH bothOpenWorld_bothOpen
            Hlate _ _ _); discriminate.
Defined.

(** ** Where the statements of the specification fail *)

(** C5 as stated fails: a payload without the two lists leaves a lane that
    was OPEN as it is, although the frame holds no observation of it. *)
Lemma classifier_keeps_state_without_lists :
  lane_get Left (handState leftOpenWorld) = OPEN
  /\ onResults sampleSqrt (mkResults None None) leftOpenWorld
     = Returned leftOpenWorld
  /\ lane_get Left
       (handState
          (outcome_state
             (onResults sampleSqrt (mkResults None None) leftOpenWorld)))
     <> UNKNOWN.
Proof. split; [reflexivity|]. split; [reflexivity|]. discriminate. Qed.

(** C8 as stated fails: in a circle-style batch the lightness of a
    constructed particle can lie above 55. *)
Lemma circle_lightness_above_55 :
  canvas freshWorld = Some sampleCanvas
  /\ (length (particles freshWorld) <= MAX_PARTICLES)%nat
  /\ plan_style (planOf brightRandom freshWorld) = circle
  /\ ~ Forall (fun p => 45 <= Particle.lightness p <= 55)
         (appended brightRandom sampleCos sampleSin samplePI
            None 100 200 freshWorld).
Proof.
  split; [reflexivity|].
  split; [apply Nat.leb_le; vm_compute; reflexivity|].
  split; [vm_compute; reflexivity|].
  intros Hall.
  remember (appended brightRandom sampleCos sampleSin samplePI
              None 100 200 freshWorld) as batch eqn:Hbatch.
  vm_compute in Hbatch. subst batch.
  apply Forall_cons in Hall as [[_ Hle] _].
  vm_compute in Hle. apply Hle. reflexivity.
Qed.
